(** * Star-field canvas animator of the portfolio page

    Shallow embedding of the star background script (the
    [DOMContentLoaded] handler holding [generateStars], [render],
    [updateStars] and the [beforeunload] handler).

    Modelling choices.
    - The script is written once, over an interface [Number] of the
      JavaScript number type.  Two instances are given: [binary64], the
      IEEE-754 doubles the script runs on (primitive floats, with the
      platform's [Math.sin] as a parameter), and [real_number], exact
      arithmetic on the reals.  Statements about the control flow and the
      state hold for every instance; the star count is stated on
      [binary64], and so are the statements giving a formula or a range
      for a computed number, since rounding decides them; the section
      [Exact] gives their counterparts in exact arithmetic.
    - [Math.random()] and [Date.now()] are oracles: the n-th call returns
      [random_source n], respectively [clock n]; the number of calls made
      so far is part of the state.  The statements on [binary64] that
      need it assume what the platform guarantees: [Math.random()] is in
      [0, 1), [Math.sin] is in [-1, 1] on finite arguments, [Date.now()]
      is a time value (an integer of magnitude at most 8.64e15).
    - The script mutates two closure variables ([stars],
      [animationFrameId]) and talks to the browser (canvas bitmap size,
      2D context, animation-frame callback list, resize observer).  All of
      it is one record, [World], threaded through a small state monad.
    - The browser side follows the web platform: [requestAnimationFrame]
      appends a fresh, non-zero handle to the callback list and returns
      it, [cancelAnimationFrame] removes a handle from that list,
      [unobserve] stops the delivery of resize notifications.
    - The limits of the platform are part of the model: an array holds
      at most 2^32 - 1 elements and a loop whose bound is plus infinity
      does not end, so a call of [generateStars] can give no result
      ([loop_ends], [generateStars_call]); the size attributes of a canvas
      hold at most 2147483647 ([reflected]).  The handlers are modelled
      for the sizes at which the loop ends.
    - The script returns at once when the page has no canvas or no 2D
      context; everything below is the case where both exist.

    The module [Page] embeds the rest of the page script (preloader,
    smooth scroll, cursor, navigation, reveal, accordion and the [load]
    listener); its modelling choices are stated there. *)

From Stdlib Require Import Reals Lra Lia ZArith List Bool.
From Stdlib Require PrimFloat FloatOps FloatAxioms.
From Stdlib Require String Ascii DecimalString.
Import ListNotations.

(** ** The number type of the script *)

Class Number : Type := {
  num : Type;
  (** an integer value: the result of [Date.now()], an integer literal *)
  of_int : Z -> num;
  (** the decimal literal [n / d], [d] a power of ten *)
  lit : Z -> positive -> num;
  nadd : num -> num -> num;
  nsub : num -> num -> num;
  nmul : num -> num -> num;
  ndiv : num -> num -> num;
  (** [<] and [===] *)
  nltb : num -> num -> bool;
  neqb : num -> num -> bool;
  Math_abs : num -> num;
  Math_sin : num -> num;
  Math_PI : num;
  (** [Math.floor]; [None] stands for NaN and the infinities *)
  Math_floor : num -> option Z;
  (** conversion to the [unsigned long] of [canvas.width] *)
  unsigned_long : num -> Z
}.

Declare Scope num_scope.
Delimit Scope num_scope with num.
Infix "+" := nadd : num_scope.
Infix "-" := nsub : num_scope.
Infix "*" := nmul : num_scope.
Infix "/" := ndiv : num_scope.
Infix "<?" := nltb : num_scope.
Notation "a === b" := (neqb a b) (at level 70, no associativity) : num_scope.

(** *** Exact arithmetic *)

Definition Rltb (a b : R) : bool := if Rlt_dec a b then true else false.
Definition Reqb (a b : R) : bool := if Req_dec_T a b then true else false.

(** Truncation towards zero, modulo 2^32. *)
Definition R_unsigned_long (v : R) : Z :=
  ((if Rle_dec 0 v then Zfloor v else Zceil v) mod 4294967296)%Z.

Definition real_number : Number := {|
  num := R;
  of_int := IZR;
  lit := fun n d => Q2R (QArith_base.Qmake n d);
  nadd := Rplus;
  nsub := Rminus;
  nmul := Rmult;
  ndiv := Rdiv;
  nltb := Rltb;
  neqb := Reqb;
  Math_abs := Rabs;
  Math_sin := sin;
  Math_PI := PI;
  Math_floor := fun v => Some (Zfloor v);
  unsigned_long := R_unsigned_long
|}.

(** *** IEEE-754 binary64 *)

Module Binary64.

Import PrimFloat FloatOps SpecFloat.

(** The double nearest to an integer. *)
Definition float_of_Z (z : Z) : float :=
  SF2Prim (binary_normalize prec emax z 0 false).

(** A decimal literal denotes the double nearest to its value: the
    correctly rounded quotient of two integers that are doubles. *)
Definition float_lit (n : Z) (d : positive) : float :=
  PrimFloat.div (float_of_Z n) (float_of_Z (Zpos d)).

(** The integer part of a finite double, rounded towards minus infinity. *)
Definition float_floor (v : float) : option Z :=
  match Prim2SF v with
  | S754_zero _ => Some 0%Z
  | S754_finite s m e => Some (Z.shiftl (if s then Zneg m else Zpos m) e)
  | S754_infinity _ | S754_nan => None
  end.

(** Truncation towards zero, modulo 2^32; NaN and the infinities give 0. *)
Definition float_unsigned_long (v : float) : Z :=
  match Prim2SF v with
  | S754_finite s m e =>
      ((if s then Z.opp (Z.shiftl (Zpos m) e) else Z.shiftl (Zpos m) e)
       mod 4294967296)%Z
  | _ => 0%Z
  end.

(** The doubles, with the platform's sine. *)
Definition binary64 (platform_sin : float -> float) : Number := {|
  num := float;
  of_int := float_of_Z;
  lit := float_lit;
  nadd := PrimFloat.add;
  nsub := PrimFloat.sub;
  nmul := PrimFloat.mul;
  ndiv := PrimFloat.div;
  nltb := PrimFloat.ltb;
  neqb := PrimFloat.eqb;
  Math_abs := PrimFloat.abs;
  Math_sin := platform_sin;
  Math_PI := 0x1.921fb54442d18p+1%float;
  Math_floor := float_floor;
  unsigned_long := float_unsigned_long
|}.

(** *** Vocabulary for rounding

    [SpecFloat] specifies the operations on doubles: a finite double is a
    sign, a mantissa and an exponent, and an operation rounds its exact
    result with [binary_round_aux]. *)

Local Open Scope Z_scope.

(** A shift record [(m, r, s)] holds the quotient of [A] by [2^k] and the
    position of the remainder with respect to the half. *)
Definition shr_holds (A k : Z) (mrs : shr_record) : Prop :=
  shr_m mrs = A / 2 ^ k
  /\ (shr_r mrs = true <-> 2 ^ k <= 2 * (A mod 2 ^ k))
  /\ (shr_s mrs = true <-> (A mod 2 ^ k <> 0 /\ 2 * (A mod 2 ^ k) <> 2 ^ k)).

(** The outcome of rounding [p * 2^e]: a mantissa [M2] at the exponent
    [ef], with a possible carry into the next binade. *)
Definition rounded (sx : bool) (M2 ef : Z) : spec_float :=
  match M2 with
  | Z0 => S754_zero sx
  | Zpos m =>
      if M2 <? 2 ^ 53
      then if ef <=? 971 then S754_finite sx m ef else S754_infinity sx
      else if ef + 1 <=? 971 then S754_finite sx 4503599627370496 (ef + 1)
           else S754_infinity sx
  | Zneg _ => S754_nan
  end.

(** The order [SFleb] computes on positive finite numbers. *)
Definition lex_le (m1 : positive) (e1 : Z) (m2 : positive) (e2 : Z) : Prop :=
  e1 < e2 \/ (e1 = e2 /\ Zpos m1 <= Zpos m2).

(** The value of a valid positive number, in units of 2^-1074. *)
Definition val (m : positive) (e : Z) : Z := Zpos m * 2 ^ (e + 1074).

(** Zero or a finite number. *)
Definition SFfinite (x : spec_float) : bool :=
  match x with
  | S754_zero _ | S754_finite _ _ _ => true
  | _ => false
  end.

(** Zero or a positive finite number. *)
Definition SFnonneg (x : spec_float) : bool :=
  match x with
  | S754_zero _ | S754_finite false _ _ => true
  | _ => false
  end.

(** The magnitude of a finite number in units of 2^-1074. *)
Definition SFmag (x : spec_float) : Z :=
  match x with
  | S754_finite _ m e => Zpos m * 2 ^ (e + 1074)
  | _ => 0
  end.

Definition SFvalid (x : spec_float) : Prop := valid_binary prec emax x = true.

(** The same on doubles.  [mag v] is the exact value of [|v|] times
    2^1074, an integer. *)
Definition finite (v : float) : bool := SFfinite (Prim2SF v).
Definition nonneg (v : float) : bool := SFnonneg (Prim2SF v).
Definition mag (v : float) : Z := SFmag (Prim2SF v).

(** The sine, rounded to nearest, of three doubles: 3400000000.0160003,
    3400000000.016 and the double nearest to PI/2.  The concrete pages
    that need values of [Math.sin] take them from this table. *)
Definition sine_table (v : float) : float :=
  if PrimFloat.eqb v 0x1.954fc40008313p+31 then (-0x1.813a7b24e4b85p-4)%float
  else if PrimFloat.eqb v 0x1.954fc40008312p+31 then (-0x1.8139fbb6232d2p-4)%float
  else if PrimFloat.eqb v 0x1.921fb54442d18p+0 then 1%float
  else 0%float.

End Binary64.

(** * The page script

    The functions of [script.js] that drive the rest of the page: the
    preloader counter, the smooth-scroll set-up, the cursor follower, the
    mobile navigation, the hero animation, the reveal-on-scroll set-up,
    the accordion, and the [load] listener that runs them.

    Modelling choices.
    - The document is what the selectors of the script find in it
      ([Document]); the script creates and removes no element, and none of
      the classes and attributes it writes occurs in a selector it uses, so
      a selector finds the same elements whenever it is evaluated.
    - The mutable part ([Dom]) holds, for every element, its class list (an
      ordered set of tokens, as [DOMTokenList] has it), its attributes, its
      text and its inline style; the closure variables of the script; the
      timers and event listeners it has installed; and the calls it has
      made into GSAP, ScrollTrigger and LocomotiveScroll, which are
      recorded with their arguments and return.
    - Reading a property of [null] or [undefined] throws a [TypeError]; a
      throw ends the running function and its callers, the writes made
      before it stay ([Js] is a state monad with an exceptional outcome). *)

Module Page.

Import Stdlib.Strings.String.StringSyntax.
Local Open Scope string_scope.
Local Open Scope list_scope.

Definition node : Type := nat.

(** What the selectors of the script find, and the element after a given
    one among its siblings. *)
Record Document : Type := {
  (** [document.querySelector(".preloader")], [".preloader-counter"],
      [".preloader-text"] *)
  preloader : option node;
  counterElement : option node;
  preloaderText : option node;
  (** [document.querySelector("[data-scroll-container]")] *)
  scrollContainer : option node;
  (** [document.querySelector(".cursor-follower")] *)
  cursor : option node;
  (** [".hamburger-menu"], [".nav-links"], and all of [".nav-links a"] *)
  hamburger : option node;
  navLinks : option node;
  navLinksItems : list node;
  (** all of [".reveal-up"] and of [".accordion-button"] *)
  revealElements : list node;
  accordionButtons : list node;
  (** [document.body] *)
  body : node;
  nextElementSibling : node -> option node
}.

(** The function values of the script. *)
Inductive Callback : Type :=
| preloader_tick_cb
| preloader_onComplete_cb
| ScrollTrigger_update_cb
| proxy_scrollTop_cb
| proxy_getBoundingClientRect_cb
| locoScroll_update_cb
| mousemove_cb
| mouseleave_cb
| mouseenter_cb
| hamburger_click_cb
| link_click_cb
| reveal_call_cb
| accordion_click_cb (button : node)
| scroll_update_cb.

(** Values handed to the libraries; an object literal is the list of its
    properties. *)
Inductive Value : Type :=
| Num (q : QArith_base.Q)
| Text (s : String.string)
| Boolean (b : bool)
| Elem (e : option node)
| Function (c : Callback)
| Object (properties : list Property)
with Property : Type :=
| property (name : String.string) (value : Value).

Inductive Target : Type :=
| Element (e : option node)
| Selector (s : String.string).

Inductive LibCall : Type :=
| gsap_timeline
| timeline_to (target : Target) (vars : list Property)
    (position : option String.string)
| gsap_to (target : Target) (vars : list Property)
| new_LocomotiveScroll (options : list Property)
| locoScroll_on (event : String.string) (c : Callback)
| locoScroll_update
| ScrollTrigger_scrollerProxy (scroller : String.string)
    (vars : list Property)
| ScrollTrigger_addEventListener (type : String.string) (c : Callback)
| ScrollTrigger_refresh.

Inductive EventTarget : Type :=
| Window
| Node (n : node).

Record Dom : Type := {
  classList : node -> list String.string;
  attributes : node -> list (String.string * String.string);
  textContent : node -> String.string;
  style : node -> list (String.string * String.string);
  (** [let count], [let counterInterval] of the call of [initPreloader]
      and [let locoScroll] ([false] is [undefined]) *)
  count : nat;
  counterInterval : option positive;
  locoScroll : bool;
  (** running intervals and pending timeouts: handle, callback, delay *)
  intervals : list (positive * Callback * Z);
  timeouts : list (positive * Callback * Z);
  next_timer : positive;
  listeners : list (EventTarget * String.string * Callback);
  lib_calls : list LibCall
}.

Definition set_classList (v : node -> list String.string) (d : Dom) : Dom :=
  {| classList := v; attributes := attributes d; textContent := textContent d;
     style := style d; count := count d; counterInterval := counterInterval d;
     locoScroll := locoScroll d; intervals := intervals d;
     timeouts := timeouts d; next_timer := next_timer d;
     listeners := listeners d; lib_calls := lib_calls d |}.

Definition set_attributes (v : node -> list (String.string * String.string))
  (d : Dom) : Dom :=
  {| classList := classList d; attributes := v; textContent := textContent d;
     style := style d; count := count d; counterInterval := counterInterval d;
     locoScroll := locoScroll d; intervals := intervals d;
     timeouts := timeouts d; next_timer := next_timer d;
     listeners := listeners d; lib_calls := lib_calls d |}.

Definition set_textContent (v : node -> String.string) (d : Dom) : Dom :=
  {| classList := classList d; attributes := attributes d; textContent := v;
     style := style d; count := count d; counterInterval := counterInterval d;
     locoScroll := locoScroll d; intervals := intervals d;
     timeouts := timeouts d; next_timer := next_timer d;
     listeners := listeners d; lib_calls := lib_calls d |}.

Definition set_style (v : node -> list (String.string * String.string))
  (d : Dom) : Dom :=
  {| classList := classList d; attributes := attributes d;
     textContent := textContent d; style := v; count := count d;
     counterInterval := counterInterval d; locoScroll := locoScroll d;
     intervals := intervals d; timeouts := timeouts d;
     next_timer := next_timer d; listeners := listeners d;
     lib_calls := lib_calls d |}.

Definition set_count (v : nat) (d : Dom) : Dom :=
  {| classList := classList d; attributes := attributes d;
     textContent := textContent d; style := style d; count := v;
     counterInterval := counterInterval d; locoScroll := locoScroll d;
     intervals := intervals d; timeouts := timeouts d;
     next_timer := next_timer d; listeners := listeners d;
     lib_calls := lib_calls d |}.

Definition set_counterInterval (v : option positive) (d : Dom) : Dom :=
  {| classList := classList d; attributes := attributes d;
     textContent := textContent d; style := style d; count := count d;
     counterInterval := v; locoScroll := locoScroll d;
     intervals := intervals d; timeouts := timeouts d;
     next_timer := next_timer d; listeners := listeners d;
     lib_calls := lib_calls d |}.

Definition set_locoScroll (v : bool) (d : Dom) : Dom :=
  {| classList := classList d; attributes := attributes d;
     textContent := textContent d; style := style d; count := count d;
     counterInterval := counterInterval d; locoScroll := v;
     intervals := intervals d; timeouts := timeouts d;
     next_timer := next_timer d; listeners := listeners d;
     lib_calls := lib_calls d |}.

Definition set_intervals (v : list (positive * Callback * Z)) (d : Dom) : Dom :=
  {| classList := classList d; attributes := attributes d;
     textContent := textContent d; style := style d; count := count d;
     counterInterval := counterInterval d; locoScroll := locoScroll d;
     intervals := v; timeouts := timeouts d; next_timer := next_timer d;
     listeners := listeners d; lib_calls := lib_calls d |}.

Definition set_timeouts (v : list (positive * Callback * Z)) (d : Dom) : Dom :=
  {| classList := classList d; attributes := attributes d;
     textContent := textContent d; style := style d; count := count d;
     counterInterval := counterInterval d; locoScroll := locoScroll d;
     intervals := intervals d; timeouts := v; next_timer := next_timer d;
     listeners := listeners d; lib_calls := lib_calls d |}.

Definition set_next_timer (v : positive) (d : Dom) : Dom :=
  {| classList := classList d; attributes := attributes d;
     textContent := textContent d; style := style d; count := count d;
     counterInterval := counterInterval d; locoScroll := locoScroll d;
     intervals := intervals d; timeouts := timeouts d; next_timer := v;
     listeners := listeners d; lib_calls := lib_calls d |}.

Definition set_listeners (v : list (EventTarget * String.string * Callback))
  (d : Dom) : Dom :=
  {| classList := classList d; attributes := attributes d;
     textContent := textContent d; style := style d; count := count d;
     counterInterval := counterInterval d; locoScroll := locoScroll d;
     intervals := intervals d; timeouts := timeouts d;
     next_timer := next_timer d; listeners := v; lib_calls := lib_calls d |}.

Definition set_lib_calls (v : list LibCall) (d : Dom) : Dom :=
  {| classList := classList d; attributes := attributes d;
     textContent := textContent d; style := style d; count := count d;
     counterInterval := counterInterval d; locoScroll := locoScroll d;
     intervals := intervals d; timeouts := timeouts d;
     next_timer := next_timer d; listeners := listeners d; lib_calls := v |}.

(** ** Running script code *)

Inductive Completion (A : Type) : Type :=
| Normal (a : A)
| TypeError.

Arguments Normal {A} a.
Arguments TypeError {A}.

Definition Js (A : Type) : Type := Dom -> Completion A * Dom.

Definition js_ret {A : Type} (a : A) : Js A := fun d => (Normal a, d).

Definition js_bind {A B : Type} (m : Js A) (k : A -> Js B) : Js B :=
  fun d => match m d with
           | (Normal a, d') => k a d'
           | (TypeError, d') => (TypeError, d')
           end.

Definition throw {A : Type} : Js A := fun d => (TypeError, d).

Definition js_get {A : Type} (f : Dom -> A) : Js A := fun d => (Normal (f d), d).
Definition js_modify (f : Dom -> Dom) : Js unit := fun d => (Normal tt, f d).

Definition outcome {A : Type} (m : Js A) (d : Dom) : Completion A := fst (m d).
Definition after {A : Type} (m : Js A) (d : Dom) : Dom := snd (m d).

Notation "v <- m ;; k" := (js_bind m (fun v => k))
  (at level 61, m at next level, right associativity).
Notation "m ;; k" := (js_bind m (fun _ => k))
  (at level 61, right associativity).

(** [array.forEach] and [nodeList.forEach]. *)
Fixpoint each {A : Type} (f : A -> Js unit) (l : list A) : Js unit :=
  match l with
  | [] => js_ret tt
  | a :: rest => f a;; each f rest
  end.

(** The value of an expression whose properties are read: [null] has
    none. *)
Definition the (e : option node) : Js node :=
  match e with
  | Some n => js_ret n
  | None => throw
  end.

(** ** The platform *)

Definition upd {X : Type} (f : node -> X) (n : node) (v : X) : node -> X :=
  fun m => if Nat.eqb m n then v else f m.

(** [DOMTokenList]: [contains], [add], [remove], [toggle]. *)
Definition contains (l : list String.string) (token : String.string) : bool :=
  existsb (String.eqb token) l.

Definition tokens_add (l : list String.string) (token : String.string)
  : list String.string :=
  if contains l token then l else l ++ [token].

Definition tokens_remove (l : list String.string) (token : String.string)
  : list String.string :=
  filter (fun t => negb (String.eqb token t)) l.

Definition tokens_toggle (l : list String.string) (token : String.string)
  : list String.string :=
  if contains l token then tokens_remove l token else l ++ [token].

Definition classList_add (n : node) (token : String.string) : Js unit :=
  js_modify (fun d => set_classList (upd (classList d) n
                                       (tokens_add (classList d n) token)) d).

Definition classList_remove (n : node) (token : String.string) : Js unit :=
  js_modify (fun d => set_classList (upd (classList d) n
                                       (tokens_remove (classList d n) token)) d).

Definition classList_toggle (n : node) (token : String.string) : Js unit :=
  js_modify (fun d => set_classList (upd (classList d) n
                                       (tokens_toggle (classList d n) token)) d).

(** [setAttribute]: the value of an attribute that exists is replaced in
    place, a new attribute goes last. *)
Fixpoint attribute_set (l : list (String.string * String.string))
  (name value : String.string) : list (String.string * String.string) :=
  match l with
  | [] => [(name, value)]
  | (k, v) :: rest =>
      if String.eqb k name then (k, value) :: rest
      else (k, v) :: attribute_set rest name value
  end.

(** [getAttribute]. *)
Fixpoint attribute_get (l : list (String.string * String.string))
  (name : String.string) : option String.string :=
  match l with
  | [] => None
  | (k, v) :: rest => if String.eqb k name then Some v else attribute_get rest name
  end.

Definition setAttribute (n : node) (name value : String.string) : Js unit :=
  js_modify (fun d => set_attributes (upd (attributes d) n
                                        (attribute_set (attributes d n) name value)) d).

(** [element.style.name = value], and the value read back (the empty
    string when the property is not set). *)
Definition style_set (n : node) (name value : String.string) : Js unit :=
  js_modify (fun d => set_style (upd (style d) n
                                   (attribute_set (style d n) name value)) d).

Definition style_get (n : node) (name : String.string) : Js String.string :=
  js_get (fun d => match attribute_get (style d n) name with
                   | Some v => v
                   | None => ""
                   end).

Definition addEventListener (t : EventTarget) (type : String.string)
  (c : Callback) : Js unit :=
  js_modify (fun d => set_listeners (listeners d ++ [(t, type, c)]) d).

Definition setInterval (c : Callback) (delay : Z) : Js positive :=
  id <- js_get next_timer;;
  js_modify (fun d => set_intervals (intervals d ++ [(id, c, delay)]) d);;
  js_modify (set_next_timer (Pos.succ id));;
  js_ret id.

Definition setTimeout (c : Callback) (delay : Z) : Js positive :=
  id <- js_get next_timer;;
  js_modify (fun d => set_timeouts (timeouts d ++ [(id, c, delay)]) d);;
  js_modify (set_next_timer (Pos.succ id));;
  js_ret id.

(** [clearInterval(undefined)] does nothing. *)
Definition clearInterval (id : option positive) : Js unit :=
  match id with
  | Some h =>
      js_modify (fun d => set_intervals
                            (filter (fun t => negb (Pos.eqb (fst (fst t)) h))
                               (intervals d)) d)
  | None => js_ret tt
  end.

Definition lib (c : LibCall) : Js unit :=
  js_modify (fun d => set_lib_calls (lib_calls d ++ [c]) d).

(** The decimal numeral of a counter value. *)
Definition String_of (n : nat) : String.string :=
  DecimalString.NilZero.string_of_uint (Nat.to_uint n).

Definition numeral (n : Z) (d : positive) : Value := Num (QArith_base.Qmake n d).

Section Scripts.

Variable doc : Document.

(** ** 6. Hero text animation *)

Definition initHeroAnimations : Js unit :=
  lib gsap_timeline;;
  lib (timeline_to (Selector ".hero-line")
         [property "y" (numeral 0 1); property "opacity" (numeral 1 1); property "duration" (numeral 12 10);
          property "stagger" (numeral 1 10); property "ease" (Text "power3.out")] None);;
  lib (timeline_to (Selector ".hero-subtitle")
         [property "opacity" (numeral 1 1); property "duration" (numeral 1 1);
          property "ease" (Text "power2.out")] (Some "-=0.8"));;
  lib (timeline_to (Selector ".hero-cta-container")
         [property "opacity" (numeral 1 1); property "duration" (numeral 1 1);
          property "ease" (Text "power2.out")] (Some "-=0.6")).

(** ** 1. Preloader *)

(** [onComplete] of the last tween of the fade-out. *)
Definition preloader_onComplete : Js unit :=
  p <- the (preloader doc);;
  style_set p "display" "none";;
  style_set (body doc) "overflow" "visible";;
  initHeroAnimations.

(** The callback of [setInterval]; [target] is the constant 100. *)
Definition preloader_tick : Js unit :=
  c <- js_get count;;
  if (100 <=? c)%nat then
    id <- js_get counterInterval;;
    clearInterval id;;
    lib gsap_timeline;;
    lib (timeline_to (Element (preloaderText doc))
           [property "y" (numeral (-100) 1); property "opacity" (numeral 0 1); property "duration" (numeral 8 10);
            property "ease" (Text "power2.inOut")] None);;
    lib (timeline_to (Element (counterElement doc))
           [property "y" (numeral (-100) 1); property "opacity" (numeral 0 1); property "duration" (numeral 8 10);
            property "ease" (Text "power2.inOut")] (Some "-=0.5"));;
    lib (timeline_to (Element (preloader doc))
           [property "yPercent" (numeral (-100) 1); property "duration" (numeral 12 10);
            property "ease" (Text "power3.inOut");
            property "onComplete" (Function preloader_onComplete_cb)] None)
  else
    js_modify (set_count (S c));;
    e <- the (counterElement doc);;
    js_modify (fun d => set_textContent
                          (upd (textContent d) e
                             (String.append (String_of (S c)) "%")) d).

Definition initPreloader : Js unit :=
  js_modify (set_count 0);;
  id <- setInterval preloader_tick_cb 20;;
  js_modify (set_counterInterval (Some id)).

(** ** 2. and 3. Smooth scroll and its ScrollTrigger proxy *)

Definition initSmoothScroll : Js unit :=
  lib (new_LocomotiveScroll
         [property "el" (Elem (scrollContainer doc)); property "smooth" (Boolean true);
          property "lerp" (numeral 8 100);
          property "smartphone" (Object [property "smooth" (Boolean true)]);
          property "tablet" (Object [property "smooth" (Boolean true)])]);;
  js_modify (set_locoScroll true);;
  lib (locoScroll_on "scroll" ScrollTrigger_update_cb);;
  c <- the (scrollContainer doc);;
  transform <- style_get c "transform";;
  lib (ScrollTrigger_scrollerProxy "[data-scroll-container]"
         [property "scrollTop" (Function proxy_scrollTop_cb);
          property "getBoundingClientRect" (Function proxy_getBoundingClientRect_cb);
          property "pinType" (Text (if String.eqb transform "" then "fixed"
                            else "transform"))]);;
  lib (ScrollTrigger_addEventListener "refresh" locoScroll_update_cb);;
  lib ScrollTrigger_refresh.

(** [() => locoScroll.update()] *)
Definition locoScroll_update_listener : Js unit :=
  l <- js_get locoScroll;;
  if l : bool then lib locoScroll_update else throw.

(** ** 4. Cursor follower *)

Definition initCursorFollower : Js unit :=
  addEventListener Window "mousemove" mousemove_cb;;
  addEventListener (Node (body doc)) "mouseleave" mouseleave_cb;;
  addEventListener (Node (body doc)) "mouseenter" mouseenter_cb.

Definition mousemove (clientX clientY : QArith_base.Q) : Js unit :=
  lib (gsap_to (Element (cursor doc))
         [property "duration" (numeral 3 10); property "x" (Num clientX); property "y" (Num clientY);
          property "ease" (Text "power3.out")]).

Definition mouseleave : Js unit :=
  lib (gsap_to (Element (cursor doc))
         [property "duration" (numeral 3 10); property "opacity" (numeral 0 1)]).

Definition mouseenter : Js unit :=
  lib (gsap_to (Element (cursor doc))
         [property "duration" (numeral 3 10); property "opacity" (numeral 1 1)]).

(** ** 5. Mobile navigation *)

Definition hamburger_click : Js unit :=
  h <- the (hamburger doc);;
  classList_toggle h "active";;
  n <- the (navLinks doc);;
  classList_toggle n "active".

Definition link_click : Js unit :=
  h <- the (hamburger doc);;
  classList_remove h "active";;
  n <- the (navLinks doc);;
  classList_remove n "active".

Definition initMobileNav : Js unit :=
  h <- the (hamburger doc);;
  addEventListener (Node h) "click" hamburger_click_cb;;
  each (fun link => addEventListener (Node link) "click" link_click_cb)
    (navLinksItems doc).

(** ** 7. Reveal on scroll *)

(** The listener of LocomotiveScroll's ["call"] event; [el] is [obj.el]. *)
Definition reveal_call (func dir : String.string) (el : node) : Js unit :=
  if String.eqb func "reveal" then
    if String.eqb dir "enter" then classList_add el "is-inview"
    else js_ret tt
  else js_ret tt.

Definition initScrollAnimations : Js unit :=
  l <- js_get locoScroll;;
  (if l : bool then lib (locoScroll_on "call" reveal_call_cb) else throw);;
  each (fun el =>
          setAttribute el "data-scroll" "";;
          setAttribute el "data-scroll-call" "reveal";;
          setAttribute el "data-scroll-repeat" "true")
    (revealElements doc).

(** ** 8. Accordion *)

(** [() => { if (locoScroll) { locoScroll.update(); } }] *)
Definition scroll_update : Js unit :=
  l <- js_get locoScroll;;
  if l : bool then lib locoScroll_update else js_ret tt.

Definition accordion_click (button : node) : Js unit :=
  classList_toggle button "active";;
  content <- the (nextElementSibling doc button);;
  classList_toggle content "open";;
  _ <- setTimeout scroll_update_cb 500;;
  js_ret tt.

Definition initAccordion : Js unit :=
  each (fun button =>
          addEventListener (Node button) "click" (accordion_click_cb button))
    (accordionButtons doc).

(** ** The load listener *)

(** As [script.js] has it. *)
Definition load : Js unit :=
  initPreloader;;
  initSmoothScroll;;
  initCursorFollower;;
  initMobileNav;;
  initScrollAnimations;;
  _ <- setTimeout scroll_update_cb 500;;
  js_ret tt.

(** As the page has it, with the accordion. *)
Definition load_with_accordion : Js unit :=
  initPreloader;;
  initSmoothScroll;;
  initCursorFollower;;
  initMobileNav;;
  initScrollAnimations;;
  initAccordion;;
  _ <- setTimeout scroll_update_cb 500;;
  js_ret tt.

(** ** The timers firing *)

(** What a timer runs: the two callbacks the script hands to timers. *)
Definition timer_callback (c : Callback) : option (Js unit) :=
  match c with
  | preloader_tick_cb => Some preloader_tick
  | scroll_update_cb => Some scroll_update
  | _ => None
  end.

Definition find_timer (id : positive) (l : list (positive * Callback * Z))
  : option Callback :=
  match find (fun t => Pos.eqb (fst (fst t)) id) l with
  | Some t => Some (snd (fst t))
  | None => None
  end.

(** An interval fires while it is running; what its callback throws is
    reported and does not stop it. *)
Definition fire_interval (id : positive) (d : Dom) : option Dom :=
  match find_timer id (intervals d) with
  | Some c =>
      match timer_callback c with
      | Some m => Some (after m d)
      | None => None
      end
  | None => None
  end.

(** A pending timeout fires once. *)
Definition fire_timeout (id : positive) (d : Dom) : option Dom :=
  match find_timer id (timeouts d) with
  | Some c =>
      match timer_callback c with
      | Some m =>
          Some (after m
                  (set_timeouts
                     (filter (fun t => negb (Pos.eqb (fst (fst t)) id))
                        (timeouts d)) d))
      | None => None
      end
  | None => None
  end.

(** The interval firing [n] times in a row. *)
Fixpoint fire_interval_times (n : nat) (id : positive) (d : Dom) : option Dom :=
  match n with
  | O => Some d
  | S k =>
      match fire_interval id d with
      | Some d' => fire_interval_times k id d'
      | None => None
      end
  end.

(** ** Vocabulary of the statements *)



Fixpoint handle_all {E : Type} (h : E -> Js unit) (l : list E) (d : Dom) : Dom :=
  match l with
  | [] => d
  | e :: rest => handle_all h rest (after (h e) d)
  end.

(** A ["call"] event of LocomotiveScroll: function name, direction, element. *)
Definition reveal_handler (e : String.string * String.string * node) : Js unit :=
  reveal_call (fst (fst e)) (snd (fst e)) (snd e).

Definition active (d : Dom) (n : node) : bool := contains (classList d n) "active".
Definition open (d : Dom) (n : node) : bool := contains (classList d n) "open".
Definition inview (d : Dom) (n : node) : bool :=
  contains (classList d n) "is-inview".

(** The attributes of an element after the three [setAttribute] calls of
    [initScrollAnimations]. *)
Definition reveal_attributes (l : list (String.string * String.string))
  : list (String.string * String.string) :=
  attribute_set
    (attribute_set (attribute_set l "data-scroll" "") "data-scroll-call" "reveal")
    "data-scroll-repeat" "true".

(** What LocomotiveScroll looks for on an element it is to report. *)
Definition marked_for_reveal (l : list (String.string * String.string)) : Prop :=
  attribute_get l "data-scroll" = Some ""
  /\ attribute_get l "data-scroll-call" = Some "reveal"
  /\ attribute_get l "data-scroll-repeat" = Some "true".

Definition click_listeners (d : Dom) (n : node) : list Callback :=
  flat_map (fun l => match l with
                     | (Node m, type, c) =>
                         if Nat.eqb m n && String.eqb type "click" then [c] else []
                     | _ => []
                     end) (listeners d).

End Scripts.

(** A page on which the script has not run yet. *)
Definition fresh (classes : node -> list String.string) : Dom :=
  {| classList := classes; attributes := fun _ => []; textContent := fun _ => "";
     style := fun _ => []; count := 0; counterInterval := None;
     locoScroll := false; intervals := []; timeouts := [];
     next_timer := 1%positive; listeners := []; lib_calls := [] |}.

(** A page with every element the script looks for: two navigation
    links, two reveal elements, and two accordion buttons, each followed
    by its panel. *)
Definition sample_document : Document := {|
  preloader := Some 1;
  counterElement := Some 2;
  preloaderText := Some 3;
  scrollContainer := Some 4;
  cursor := Some 5;
  hamburger := Some 6;
  navLinks := Some 7;
  navLinksItems := [8; 9];
  revealElements := [10; 11];
  accordionButtons := [12; 14];
  body := 0;
  nextElementSibling := fun n => match n with
                                 | 12 => Some 13
                                 | 14 => Some 15
                                 | _ => None
                                 end
|}.

(** A page with none of them. *)
Definition bare_document : Document := {|
  preloader := None;
  counterElement := None;
  preloaderText := None;
  scrollContainer := None;
  cursor := None;
  hamburger := None;
  navLinks := None;
  navLinksItems := [];
  revealElements := [];
  accordionButtons := [];
  body := 0;
  nextElementSibling := fun _ => None
|}.

End Page.

Section Script.

Context {N : Number}.

(** ** Settings and data *)

(** The block of constants under "Settings (You can change these)". *)
Record Settings : Type := {
  starDensity : num;
  minTwinkleSpeed : num;
  maxTwinkleSpeed : num;
  twinkleProbability : num;
  allStarsTwinkle : bool
}.

(** The values the script ships with: 0.00015, 0.5, 1, 0.7, true. *)
Definition settings : Settings := {|
  starDensity := lit 15 100000;
  minTwinkleSpeed := lit 5 10;
  maxTwinkleSpeed := of_int 1;
  twinkleProbability := lit 7 10;
  allStarsTwinkle := true
|}.

(** One star object; [twinkleSpeed = None] is the script's [null]. *)
Record Star : Type := {
  x : num;
  y : num;
  radius : num;
  opacity : num;
  twinkleSpeed : option num
}.

(** Calls made on the 2D context, the clock and the browser, in program
    order ([Call_fillStyle] is the assignment of an rgba colour to
    [ctx.fillStyle]). *)
Inductive Call : Type :=
| Call_clearRect (x0 y0 w h : num)
| Call_beginPath
| Call_arc (cx cy r startAngle endAngle : num)
| Call_fillStyle (red green blue : Z) (alpha : num)
| Call_fill
| Call_Date_now
| Call_requestAnimationFrame (id : positive)
| Call_cancelAnimationFrame (id : option positive)
| Call_unobserve.

Record World : Type := {
  (* closure variables of the script *)
  stars : list Star;
  animationFrameId : option positive;
  (* canvas element: size of the backing bitmap *)
  canvas_width : Z;
  canvas_height : Z;
  (* browser *)
  frame_callbacks : list positive;
  next_frame_id : positive;
  observing : bool;
  random_calls : nat;
  clock_reads : nat;
  calls : list Call
}.

(** State right after [let stars = []; let animationFrameId;]: a canvas
    has its default 300x150 bitmap, nothing is scheduled or observed. *)
Definition init : World := {|
  stars := [];
  animationFrameId := None;
  canvas_width := 300;
  canvas_height := 150;
  frame_callbacks := [];
  next_frame_id := 1;
  observing := false;
  random_calls := 0;
  clock_reads := 0;
  calls := []
|}.

(** ** The state monad of the script *)

Definition M (A : Type) : Type := World -> A * World.

Definition ret {A : Type} (a : A) : M A := fun w => (a, w).

Definition bind {A B : Type} (m : M A) (k : A -> M B) : M B :=
  fun w => let (a, w') := m w in k a w'.

Notation "v <- m ;; k" := (bind m (fun v => k))
  (at level 61, m at next level, right associativity).
Notation "m ;; k" := (bind m (fun _ => k))
  (at level 61, right associativity).

Definition get {A : Type} (f : World -> A) : M A := fun w => (f w, w).
Definition modify (f : World -> World) : M unit := fun w => (tt, f w).
Definition exec {A : Type} (m : M A) (w : World) : World := snd (m w).
Definition eval {A : Type} (m : M A) (w : World) : A := fst (m w).

Definition set_stars (v : list Star) (w : World) : World :=
  {| stars := v; animationFrameId := animationFrameId w;
     canvas_width := canvas_width w; canvas_height := canvas_height w;
     frame_callbacks := frame_callbacks w; next_frame_id := next_frame_id w;
     observing := observing w; random_calls := random_calls w;
     clock_reads := clock_reads w; calls := calls w |}.

Definition set_animationFrameId (v : option positive) (w : World) : World :=
  {| stars := stars w; animationFrameId := v;
     canvas_width := canvas_width w; canvas_height := canvas_height w;
     frame_callbacks := frame_callbacks w; next_frame_id := next_frame_id w;
     observing := observing w; random_calls := random_calls w;
     clock_reads := clock_reads w; calls := calls w |}.

Definition set_canvas_width (v : Z) (w : World) : World :=
  {| stars := stars w; animationFrameId := animationFrameId w;
     canvas_width := v; canvas_height := canvas_height w;
     frame_callbacks := frame_callbacks w; next_frame_id := next_frame_id w;
     observing := observing w; random_calls := random_calls w;
     clock_reads := clock_reads w; calls := calls w |}.

Definition set_canvas_height (v : Z) (w : World) : World :=
  {| stars := stars w; animationFrameId := animationFrameId w;
     canvas_width := canvas_width w; canvas_height := v;
     frame_callbacks := frame_callbacks w; next_frame_id := next_frame_id w;
     observing := observing w; random_calls := random_calls w;
     clock_reads := clock_reads w; calls := calls w |}.

Definition set_frame_callbacks (v : list positive) (w : World) : World :=
  {| stars := stars w; animationFrameId := animationFrameId w;
     canvas_width := canvas_width w; canvas_height := canvas_height w;
     frame_callbacks := v; next_frame_id := next_frame_id w;
     observing := observing w; random_calls := random_calls w;
     clock_reads := clock_reads w; calls := calls w |}.

Definition set_next_frame_id (v : positive) (w : World) : World :=
  {| stars := stars w; animationFrameId := animationFrameId w;
     canvas_width := canvas_width w; canvas_height := canvas_height w;
     frame_callbacks := frame_callbacks w; next_frame_id := v;
     observing := observing w; random_calls := random_calls w;
     clock_reads := clock_reads w; calls := calls w |}.

Definition set_observing (v : bool) (w : World) : World :=
  {| stars := stars w; animationFrameId := animationFrameId w;
     canvas_width := canvas_width w; canvas_height := canvas_height w;
     frame_callbacks := frame_callbacks w; next_frame_id := next_frame_id w;
     observing := v; random_calls := random_calls w;
     clock_reads := clock_reads w; calls := calls w |}.

Definition set_random_calls (v : nat) (w : World) : World :=
  {| stars := stars w; animationFrameId := animationFrameId w;
     canvas_width := canvas_width w; canvas_height := canvas_height w;
     frame_callbacks := frame_callbacks w; next_frame_id := next_frame_id w;
     observing := observing w; random_calls := v;
     clock_reads := clock_reads w; calls := calls w |}.

Definition set_clock_reads (v : nat) (w : World) : World :=
  {| stars := stars w; animationFrameId := animationFrameId w;
     canvas_width := canvas_width w; canvas_height := canvas_height w;
     frame_callbacks := frame_callbacks w; next_frame_id := next_frame_id w;
     observing := observing w; random_calls := random_calls w;
     clock_reads := v; calls := calls w |}.

Definition set_calls (v : list Call) (w : World) : World :=
  {| stars := stars w; animationFrameId := animationFrameId w;
     canvas_width := canvas_width w; canvas_height := canvas_height w;
     frame_callbacks := frame_callbacks w; next_frame_id := next_frame_id w;
     observing := observing w; random_calls := random_calls w;
     clock_reads := clock_reads w; calls := v |}.

(** Records a call at the end of the log. *)
Definition call (c : Call) : M unit :=
  modify (fun w => set_calls (calls w ++ [c]) w).

(** ** Platform primitives *)

(** Removes every occurrence of a handle from the callback list. *)
Definition remove_handle (id : positive) (l : list positive) : list positive :=
  filter (fun h => negb (Pos.eqb h id)) l.

Definition requestAnimationFrame : M positive :=
  id <- get next_frame_id;;
  modify (fun w => set_frame_callbacks (frame_callbacks w ++ [id]) w);;
  modify (set_next_frame_id (Pos.succ id));;
  call (Call_requestAnimationFrame id);;
  ret id.

Definition cancelAnimationFrame (id : option positive) : M unit :=
  call (Call_cancelAnimationFrame id);;
  match id with
  | Some h => modify (fun w => set_frame_callbacks (remove_handle h (frame_callbacks w)) w)
  | None => ret tt
  end.

Definition resizeObserver_observe : M unit := modify (set_observing true).

Definition resizeObserver_unobserve : M unit :=
  call Call_unobserve;; modify (set_observing false).

(** [array.forEach] with a callback that may mutate the element it is
    given: the elements are visited in order, each one is replaced by its
    mutated version. *)
Fixpoint forEach {A : Type} (f : A -> M A) (l : list A) : M (list A) :=
  match l with
  | [] => ret []
  | a :: rest =>
      a' <- f a;;
      rest' <- forEach f rest;;
      ret (a' :: rest')
  end.

(** The n-th value returned by [Math.random()] and by [Date.now()]. *)
Variable random_source : nat -> num.
Variable clock : nat -> Z.

(** The constants of the settings block. *)
Variable cfg : Settings.

Definition Math_random : M num :=
  n <- get random_calls;;
  modify (set_random_calls (S n));;
  ret (random_source n).

Definition Date_now : M num :=
  n <- get clock_reads;;
  modify (set_clock_reads (S n));;
  call Call_Date_now;;
  ret (of_int (clock n)).

(** ** generateStars *)

(** Body of the [for] loop: one object literal, its properties evaluated
    in the order they are written. *)
Definition new_star (width height : num) : M Star :=
  shouldTwinkle <-
    (if allStarsTwinkle cfg then ret true
     else r <- Math_random;; ret (r <? twinkleProbability cfg)%num);;
  rx <- Math_random;;
  ry <- Math_random;;
  rr <- Math_random;;
  ro <- Math_random;;
  speed <-
    (if shouldTwinkle : bool
     then r <- Math_random;;
          ret (Some (minTwinkleSpeed cfg
                     + r * (maxTwinkleSpeed cfg - minTwinkleSpeed cfg))%num)
     else ret None);;
  ret {| x := (rx * width)%num;
         y := (ry * height)%num;
         radius := (rr * lit 5 100 + lit 5 10)%num;
         opacity := (ro * lit 5 10 + lit 5 10)%num;
         twinkleSpeed := speed |}.

(** [for (let i = 0; i < numStars; i++) newStars.push(...)], with the
    number of remaining iterations as the recursion argument. *)
Fixpoint generate_loop (width height : num) (n : nat) (newStars : list Star)
  : M (list Star) :=
  match n with
  | O => ret newStars
  | S k =>
      s <- new_star width height;;
      generate_loop width height k (newStars ++ [s])
  end.

(** [Math.floor(area * starDensity)]. *)
Definition numStars (width height : num) : option Z :=
  let area := (width * height)%num in
  Math_floor (area * starDensity cfg)%num.

(** How often the body of [for (let i = 0; i < numStars; i++)] runs when
    the loop ends: the value of [numStars] when it is a positive integer,
    never when it is negative, zero, NaN or minus infinity. *)
Definition passes (n : option Z) : nat :=
  match n with
  | Some k => Z.to_nat k
  | None => O
  end.

(** What the call leaves when its loop ends: the collection and the
    state after [passes] passes. *)
Definition generateStars (width height : num) : M (list Star) :=
  generate_loop width height (passes (numStars width height)) [].

(** *** The limits of the platform

    The loop of the script does not always end.  When [numStars] is plus
    infinity, [i < numStars] holds for ever; and an array holds at most
    2^32 - 1 elements: [push] on a full array throws a RangeError.  So
    the call gives a result only when [numStars] is at most 4294967295,
    or is NaN or minus infinity (no pass). *)
Definition max_array_length : Z := 4294967295.

Definition loop_ends (width height : num) : bool :=
  let area := (width * height)%num in
  match Math_floor (area * starDensity cfg)%num with
  | Some n => (n <=? max_array_length)%Z
  | None => negb (of_int 0 <? area * starDensity cfg)%num
  end.

(** The call [generateStars(width, height)]; [None] when it gives no
    result. *)
Definition generateStars_call (width height : num) (w : World)
  : option (list Star * World) :=
  if loop_ends width height then Some (generateStars width height w) else None.

(** ** render *)

(** Callback of [stars.forEach]: draw the star, then update its opacity
    when it twinkles. *)
Definition render_star (star : Star) : M Star :=
  call Call_beginPath;;
  call (Call_arc (x star) (y star) (radius star) (of_int 0)
          (Math_PI * of_int 2)%num);;
  call (Call_fillStyle 255 255 255 (opacity star));;
  call Call_fill;;
  match twinkleSpeed star with
  | Some speed =>
      now <- Date_now;;
      ret {| x := x star; y := y star; radius := radius star;
             opacity := (lit 5 10
                         + Math_abs (Math_sin ((now * lit 1 1000) / speed)
                                     * lit 5 10))%num;
             twinkleSpeed := twinkleSpeed star |}
  | None => ret star
  end.

(** [if (!canvas) return;] never fires here and in [updateStars]: the
    handler has already returned when there is no canvas. *)
Definition render : M unit :=
  cw <- get canvas_width;;
  ch <- get canvas_height;;
  call (Call_clearRect (of_int 0) (of_int 0) (of_int cw) (of_int ch));;
  current <- get stars;;
  updated <- forEach render_star current;;
  modify (set_stars updated);;
  id <- requestAnimationFrame;;
  modify (set_animationFrameId (Some id)).

(** ** updateStars, the resize handler *)

(** [canvas.width = v] and [canvas.height = v]: the value is converted to
    an unsigned long, and the attribute holds it when it is at most
    2147483647 and its default otherwise (300 for the width, 150 for the
    height). *)
Definition reflected (default : Z) (v : num) : Z :=
  let n := unsigned_long v in
  if (n <=? 2147483647)%Z then n else default.

(** [width] and [height] are what [canvas.getBoundingClientRect()]
    returns when the handler runs. *)
Definition updateStars (width height : num) : M unit :=
  if (width === of_int 0)%num || (height === of_int 0)%num then ret tt
  else
    modify (set_canvas_width (reflected 300 width));;
    modify (set_canvas_height (reflected 150 height));;
    newStars <- generateStars width height;;
    modify (set_stars newStars);;
    id <- get animationFrameId;;
    match id with
    | None => render
    | Some _ => ret tt
    end.

(** ** The beforeunload handler *)
Definition beforeunload : M unit :=
  id <- get animationFrameId;;
  cancelAnimationFrame id;;
  resizeObserver_unobserve.

(** ** The script body: first call, then the observer is installed. *)
Definition DOMContentLoaded (width height : num) : M unit :=
  updateStars width height;;
  resizeObserver_observe.

(** ** The browser driving the script

    After the script has run, the browser invokes its callbacks: the
    oldest pending animation-frame callback (it leaves the list before it
    runs), the resize observer's callback while the canvas is observed,
    the [beforeunload] listener. *)
Inductive Event : Type :=
| Frame
| Resize (width height : num)
| Unload.

Definition deliver (e : Event) (w : World) : option World :=
  match e with
  | Frame =>
      match frame_callbacks w with
      | [] => None
      | _ :: rest => Some (exec render (set_frame_callbacks rest w))
      end
  | Resize width height =>
      if observing w then Some (exec (updateStars width height) w) else None
  | Unload => Some (exec beforeunload w)
  end.


(** The final state after a list of events, when all can be delivered. *)
Fixpoint run (evs : list Event) (w : World) : option World :=
  match evs with
  | [] => Some w
  | e :: rest =>
      match deliver e w with
      | None => None
      | Some w' => run rest w'
      end
  end.

(** States the page can be in once the script has run. *)
Inductive reachable : World -> Prop :=
| reachable_loaded : forall width height,
    reachable (exec (DOMContentLoaded width height) init)
| reachable_deliver : forall e w w',
    reachable w -> deliver e w = Some w' -> reachable w'.

(** The same, before any teardown. *)
Inductive live : World -> Prop :=
| live_loaded : forall width height,
    live (exec (DOMContentLoaded width height) init)
| live_deliver : forall e w w',
    live w -> e <> Unload -> deliver e w = Some w' -> live w'.

(** States reachable from [w]. *)
Inductive reachable_from (w : World) : World -> Prop :=
| reachable_from_here : reachable_from w w
| reachable_from_deliver : forall e w1 w2,
    reachable_from w w1 -> deliver e w1 = Some w2 -> reachable_from w w2.

(** ** Vocabulary of the statements *)

(** What one run of the [forEach] callback sends to the context and the
    clock for a star. *)
Definition star_calls (s : Star) : list Call :=
  [Call_beginPath;
   Call_arc (x s) (y s) (radius s) (of_int 0) (Math_PI * of_int 2)%num;
   Call_fillStyle 255 255 255 (opacity s);
   Call_fill]
  ++ match twinkleSpeed s with Some _ => [Call_Date_now] | None => [] end.

Definition twinkles (s : Star) : bool :=
  match twinkleSpeed s with Some _ => true | None => false end.

(** Number of twinkling stars of a list: the clock reads of one frame. *)
Definition twinkling (l : list Star) : nat := length (filter twinkles l).

(** The opacity [render] gives a star of speed [speed] at time [now]. *)
Definition twinkle (now : Z) (speed : num) : num :=
  (lit 5 10
   + Math_abs (Math_sin ((of_int now * lit 1 1000) / speed) * lit 5 10))%num.

(** The stars after one frame whose first clock read is the [k]-th. *)
Fixpoint twinkled (k : nat) (l : list Star) : list Star :=
  match l with
  | [] => []
  | s :: rest =>
      match twinkleSpeed s with
      | Some speed =>
          {| x := x s; y := y s; radius := radius s;
             opacity := twinkle (clock k) speed;
             twinkleSpeed := twinkleSpeed s |} :: twinkled (S k) rest
      | None => s :: twinkled k rest
      end
  end.

(** The two states of the animation: whether a frame is outstanding. *)
Inductive AnimationState : Type := Idle | Animating.

Definition animation_state (w : World) : AnimationState :=
  match frame_callbacks w with
  | [] => Idle
  | _ :: _ => Animating
  end.

Definition is_idle (w : World) : bool :=
  match animation_state w with Idle => true | Animating => false end.



(** A rendered size with no zero dimension: the guard of [updateStars]
    does not fire. *)
Definition visible (width height : num) : bool :=
  negb ((width === of_int 0)%num || (height === of_int 0)%num).

Definition sees_visible (e : Event) : bool :=
  match e with
  | Resize width height => visible width height
  | _ => false
  end.

Definition is_unload (e : Event) : bool :=
  match e with Unload => true | _ => false end.

(** The calls logged between two states. *)
Definition new_calls (before after : World) : list Call :=
  skipn (length (calls before)) (calls after).

(** The opacities the context was asked to paint with. *)
Definition drawn_opacities (l : list Call) : list num :=
  flat_map (fun c => match c with
                     | Call_fillStyle _ _ _ alpha => [alpha]
                     | _ => []
                     end) l.

Definition count_cancels (l : list Call) : nat :=
  length (filter (fun c => match c with
                           | Call_cancelAnimationFrame _ => true
                           | _ => false
                           end) l).

Definition count_renders (l : list Call) : nat :=
  length (filter (fun c => match c with
                           | Call_clearRect _ _ _ _ => true
                           | _ => false
                           end) l).

(** A star built by one pass through the loop body of [generateStars]:
    every number in it comes from a value of [Math.random()]. *)
Definition generated (width height : num) (s : Star) : Prop :=
  (exists a, x s = (random_source a * width)%num) /\
  (exists b, y s = (random_source b * height)%num) /\
  (exists c, radius s = (random_source c * lit 5 100 + lit 5 10)%num) /\
  (exists d, opacity s = (random_source d * lit 5 10 + lit 5 10)%num) /\
  ((allStarsTwinkle cfg = false /\ twinkleSpeed s = None) \/
   (exists e, twinkleSpeed s =
              Some (minTwinkleSpeed cfg
                    + random_source e
                      * (maxTwinkleSpeed cfg - minTwinkleSpeed cfg))%num)).

(** The state in which [generateStars] runs inside [updateStars]. *)
Definition resized (width height : num) (w : World) : World :=
  set_canvas_height (reflected 150 height)
    (set_canvas_width (reflected 300 width) w).

(** [keeps a b]: star [b] is star [a] up to the opacity of a twinkling
    star. *)
Definition keeps (a b : Star) : Prop :=
  x b = x a /\ y b = y a /\ radius b = radius a
  /\ twinkleSpeed b = twinkleSpeed a
  /\ (twinkleSpeed a = None -> opacity b = opacity a).

(** The closure variable [animationFrameId] and the browser's callback
    list agree: no handle and nothing scheduled, or the handle of the one
    scheduled frame. *)
Definition coherent (w : World) : Prop :=
  match animationFrameId w with
  | None => frame_callbacks w = []
  | Some id => frame_callbacks w = [id]
  end.


(** ** Basic facts about the monad and the record *)

Ltac unfold_monad :=
  cbv [bind ret get modify call exec eval
       set_stars set_animationFrameId set_canvas_width set_canvas_height
       set_frame_callbacks set_next_frame_id set_observing set_random_calls
       set_clock_reads set_calls
       stars animationFrameId canvas_width canvas_height frame_callbacks
       next_frame_id observing random_calls clock_reads calls].

(** ** One frame *)

Lemma twinkling_cons (s : Star) (l : list Star) :
  twinkling (s :: l) = ((if twinkles s then 1 else 0) + twinkling l)%nat.
Proof. unfold twinkling; simpl; destruct (twinkles s); reflexivity. Qed.

Lemma forEach_render_star (l : list Star) :
  forall w,
    forEach render_star l w =
    (twinkled (clock_reads w) l,
     set_calls (calls w ++ flat_map star_calls l)
       (set_clock_reads (clock_reads w + twinkling l) w)).
Proof.
  induction l as [|s rest IH]; intro w.
  - simpl. unfold ret, twinkling. simpl.
    rewrite app_nil_r, Nat.add_0_r. destruct w; reflexivity.
  - rewrite twinkling_cons. unfold twinkles.
    cbn [forEach twinkled flat_map]. unfold bind at 1.
    unfold render_star, star_calls at 1.
    destruct (twinkleSpeed s) as [speed|].
    + unfold Date_now. unfold_monad. destruct w. cbn.
      rewrite IH. unfold set_calls, set_clock_reads. cbn.
      f_equal. f_equal.
      * lia.
      * rewrite <- !app_assoc. reflexivity.
    + unfold_monad. destruct w. cbn.
      rewrite IH. unfold set_calls, set_clock_reads. cbn.
      f_equal. f_equal.
      rewrite <- !app_assoc. reflexivity.
Qed.

Lemma render_exec (w : World) :
  exec render w =
  {| stars := twinkled (clock_reads w) (stars w);
     animationFrameId := Some (next_frame_id w);
     canvas_width := canvas_width w;
     canvas_height := canvas_height w;
     frame_callbacks := frame_callbacks w ++ [next_frame_id w];
     next_frame_id := Pos.succ (next_frame_id w);
     observing := observing w;
     random_calls := random_calls w;
     clock_reads := (clock_reads w + twinkling (stars w))%nat;
     calls := calls w
              ++ Call_clearRect (of_int 0) (of_int 0) (of_int (canvas_width w))
       (of_int (canvas_height w))
                 :: flat_map star_calls (stars w)
              ++ [Call_requestAnimationFrame (next_frame_id w)] |}.
Proof.
  unfold render, requestAnimationFrame. unfold_monad. destruct w. cbn.
  rewrite forEach_render_star. unfold set_calls, set_clock_reads. cbn.
  f_equal. rewrite <- !app_assoc. reflexivity.
Qed.

(** ** Generation *)

Lemma new_star_spec (width height : num) (w : World) :
  exists s k,
    new_star width height w = (s, set_random_calls k w)
    /\ generated width height s.
Proof.
  unfold new_star, generated, Math_random.
  destruct (allStarsTwinkle cfg) eqn:Hall.
  - unfold_monad. destruct w. cbn.
    eexists. eexists. split; [reflexivity|]. cbn.
    repeat split; eauto.
  - unfold_monad. destruct w. cbn.
    destruct (nltb _ _); cbn.
    + eexists. eexists. split; [reflexivity|]. cbn.
      repeat split; eauto.
    + eexists. eexists. split; [reflexivity|]. cbn.
      repeat split; eauto.
Qed.

Lemma set_random_calls_twice (a b : nat) (w : World) :
  set_random_calls a (set_random_calls b w) = set_random_calls a w.
Proof. reflexivity. Qed.

Lemma generate_loop_spec (width height : num) (n : nat) :
  forall acc w,
  exists l k,
    generate_loop width height n acc w = (acc ++ l, set_random_calls k w)
    /\ length l = n
    /\ Forall (generated width height) l.
Proof.
  induction n as [|n IH]; intros acc w.
  - exists [], (random_calls w). simpl. unfold ret.
    rewrite app_nil_r. split; [|split; [reflexivity|constructor]].
    f_equal. destruct w; reflexivity.
  - destruct (new_star_spec width height w) as (s & k & Hs & Hg).
    destruct (IH (acc ++ [s]) (set_random_calls k w)) as (l & k' & Hl & Hlen & Hall).
    exists (s :: l), k'. cbn [generate_loop]. unfold bind. rewrite Hs, Hl.
    rewrite set_random_calls_twice, <- app_assoc. simpl.
    split; [reflexivity|]. split; [congruence|]. constructor; assumption.
Qed.

Lemma generateStars_spec (width height : num) (w : World) :
  exists l k,
    generateStars width height w = (l, set_random_calls k w)
    /\ length l = passes (numStars width height)
    /\ Forall (generated width height) l.
Proof.
  unfold generateStars.
  destruct (generate_loop_spec width height
              (passes (numStars width height)) [] w) as (l & k & H & Hlen & Hall).
  exists l, k. auto.
Qed.

(** ** The resize handler *)

Lemma visible_false (width height : num) :
  visible width height = false <->
  (width === of_int 0)%num = true \/ (height === of_int 0)%num = true.
Proof.
  unfold visible. rewrite negb_false_iff, orb_true_iff. reflexivity.
Qed.

Lemma updateStars_hidden (width height : num) (w : World) :
  visible width height = false -> updateStars width height w = (tt, w).
Proof.
  unfold visible, updateStars. intro H.
  apply negb_false_iff in H. rewrite H. reflexivity.
Qed.

Lemma updateStars_visible (width height : num) (w : World) :
  visible width height = true ->
  exec (updateStars width height) w =
  let g := generateStars width height (resized width height w) in
  let w1 := set_stars (fst g) (snd g) in
  match animationFrameId w with
  | None => exec render w1
  | Some _ => w1
  end.
Proof.
  unfold visible, updateStars. intro H.
  apply negb_true_iff in H. rewrite H.
  unfold exec, resized. unfold bind at 1 2 3. unfold modify at 1 2.
  destruct (generateStars_spec width height
              (set_canvas_height (reflected 150 height)
                 (set_canvas_width (reflected 300 width) w))) as (l & k & Hg & _).
  cbn zeta. rewrite Hg. cbn [fst snd].
  unfold bind, modify, get.
  destruct (animationFrameId w) eqn:Hid.
  - unfold set_stars, set_random_calls, set_canvas_height, set_canvas_width.
    cbn. rewrite Hid. reflexivity.
  - unfold set_stars, set_random_calls, set_canvas_height, set_canvas_width.
    cbn. rewrite Hid. reflexivity.
Qed.

Lemma generateStars_eval (width height : num) (w : World) :
  length (eval (generateStars width height) w) = passes (numStars width height)
  /\ Forall (generated width height) (eval (generateStars width height) w).
Proof.
  destruct (generateStars_spec width height w) as (l & k & H & Hlen & Hall).
  unfold eval. rewrite H. auto.
Qed.


(** ** Facts about one frame *)

Lemma twinkled_keeps (l : list Star) :
  forall k, Forall2 keeps l (twinkled k l).
Proof.
  induction l as [|s rest IH]; intro k; simpl.
  - constructor.
  - destruct (twinkleSpeed s) eqn:E; constructor; auto;
      unfold keeps; simpl; repeat split; auto; congruence.
Qed.

Lemma twinkling_firstn_lt (l : list Star) :
  forall i s, nth_error l i = Some s -> twinkles s = true ->
              (twinkling (firstn i l) < twinkling l)%nat.
Proof.
  induction l as [|a rest IH]; intros [|i] s Hn Ht; simpl in Hn; try discriminate.
  - injection Hn as ->. rewrite twinkling_cons, Ht.
    unfold twinkling at 1. simpl. lia.
  - cbn [firstn]. rewrite !twinkling_cons. specialize (IH i s Hn Ht). lia.
Qed.

Lemma twinkled_nth (l : list Star) :
  forall k i s speed,
    nth_error l i = Some s -> twinkleSpeed s = Some speed ->
    exists s',
      nth_error (twinkled k l) i = Some s'
      /\ opacity s' = twinkle (clock (k + twinkling (firstn i l))) speed.
Proof.
  induction l as [|a rest IH]; intros k [|i] s speed Hn Hs; simpl in Hn;
    try discriminate.
  - injection Hn as ->. simpl. rewrite Hs. eexists. split; [reflexivity|].
    simpl. unfold twinkling. simpl. rewrite Nat.add_0_r. reflexivity.
  - cbn [twinkled firstn]. rewrite twinkling_cons. unfold twinkles.
    destruct (twinkleSpeed a) eqn:Ea; cbn [nth_error].
    + destruct (IH (S k) i s speed Hn Hs) as (s' & H1 & H2).
      exists s'. split; [exact H1|]. rewrite H2.
      replace (k + (1 + twinkling (firstn i rest)))%nat
        with (S k + twinkling (firstn i rest))%nat by lia.
      reflexivity.
    + destruct (IH k i s speed Hn Hs) as (s' & H1 & H2).
      exists s'. split; [exact H1|]. rewrite H2. reflexivity.
Qed.


Lemma skipn_app_exact {A : Type} (l l' : list A) :
  skipn (length l) (l ++ l') = l'.
Proof. induction l; simpl; auto. Qed.

Lemma drawn_opacities_app (l l' : list Call) :
  drawn_opacities (l ++ l') = drawn_opacities l ++ drawn_opacities l'.
Proof. unfold drawn_opacities. apply flat_map_app. Qed.

Lemma drawn_opacities_stars (l : list Star) :
  drawn_opacities (flat_map star_calls l) = map opacity l.
Proof.
  induction l as [|s rest IH]; simpl; [reflexivity|].
  rewrite drawn_opacities_app, IH. unfold star_calls.
  destruct (twinkleSpeed s); reflexivity.
Qed.

Lemma render_new_calls (w : World) :
  new_calls w (exec render w) =
  Call_clearRect (of_int 0) (of_int 0) (of_int (canvas_width w))
       (of_int (canvas_height w))
  :: flat_map star_calls (stars w)
  ++ [Call_requestAnimationFrame (next_frame_id w)].
Proof.
  unfold new_calls. rewrite render_exec. cbn [calls].
  apply skipn_app_exact.
Qed.

Lemma render_drawn (w : World) :
  drawn_opacities (new_calls w (exec render w)) = map opacity (stars w).
Proof.
  rewrite render_new_calls.
  change (drawn_opacities
            (Call_clearRect (of_int 0) (of_int 0) (of_int (canvas_width w))
       (of_int (canvas_height w))
             :: flat_map star_calls (stars w)
             ++ [Call_requestAnimationFrame (next_frame_id w)]))
    with (drawn_opacities
            (flat_map star_calls (stars w)
             ++ [Call_requestAnimationFrame (next_frame_id w)])).
  rewrite drawn_opacities_app, drawn_opacities_stars. simpl.
  apply app_nil_r.
Qed.

Lemma keeps_refl (l : list Star) : Forall2 keeps l l.
Proof. induction l; constructor; auto. unfold keeps. auto. Qed.

Lemma keeps_trans (l1 l2 l3 : list Star) :
  Forall2 keeps l1 l2 -> Forall2 keeps l2 l3 -> Forall2 keeps l1 l3.
Proof.
  intro H. revert l3. induction H as [|a b l1 l2 Hab _ IH]; intros l3 H3.
  - inversion H3. constructor.
  - inversion H3 as [|? c ? l3' Hbc Hrest]; subst. constructor; auto.
    unfold keeps in *. destruct Hab as (A1 & A2 & A3 & A4 & A5).
    destruct Hbc as (B1 & B2 & B3 & B4 & B5).
    repeat split; try congruence.
    intro Hn. rewrite B5, A5; congruence.
Qed.

(** ** Facts about the handlers *)

Lemma beforeunload_exec (w : World) :
  exec beforeunload w =
  {| stars := stars w;
     animationFrameId := animationFrameId w;
     canvas_width := canvas_width w;
     canvas_height := canvas_height w;
     frame_callbacks :=
       match animationFrameId w with
       | Some h => remove_handle h (frame_callbacks w)
       | None => frame_callbacks w
       end;
     next_frame_id := next_frame_id w;
     observing := false;
     random_calls := random_calls w;
     clock_reads := clock_reads w;
     calls := calls w ++ [Call_cancelAnimationFrame (animationFrameId w);
                          Call_unobserve] |}.
Proof.
  unfold beforeunload, cancelAnimationFrame, resizeObserver_unobserve.
  destruct w as [st [h|] cw ch fc nf ob rc cr cl]; unfold_monad; cbn;
    rewrite <- app_assoc; reflexivity.
Qed.

Lemma DOMContentLoaded_exec (width height : num) (w : World) :
  exec (DOMContentLoaded width height) w =
  set_observing true (exec (updateStars width height) w).
Proof.
  unfold DOMContentLoaded, resizeObserver_observe, exec, bind, modify.
  destruct (updateStars width height w). reflexivity.
Qed.

Lemma updateStars_hidden_exec (width height : num) (w : World) :
  visible width height = false -> exec (updateStars width height) w = w.
Proof. intro H. unfold exec. rewrite updateStars_hidden; auto. Qed.

Lemma updateStars_visible_exec (width height : num) (w : World) :
  visible width height = true ->
  exists k,
    let w1 := set_stars (eval (generateStars width height) (resized width height w))
                (set_random_calls k (resized width height w)) in
    exec (updateStars width height) w =
    match animationFrameId w with
    | None => exec render w1
    | Some _ => w1
    end.
Proof.
  intro Hv. rewrite (updateStars_visible width height w Hv).
  destruct (generateStars_spec width height (resized width height w))
    as (l & k & Hg & _).
  exists k. cbv zeta. unfold eval. rewrite Hg. reflexivity.
Qed.

Lemma coherent_idle (w : World) :
  coherent w -> is_idle w = true -> animationFrameId w = None.
Proof.
  unfold coherent, is_idle, animation_state.
  destruct (animationFrameId w); [|reflexivity].
  intros ->. discriminate.
Qed.

Lemma coherent_animating (w : World) :
  coherent w -> is_idle w = false ->
  exists id, animationFrameId w = Some id /\ frame_callbacks w = [id].
Proof.
  unfold coherent, is_idle, animation_state.
  destruct (animationFrameId w) as [id|].
  - intros H _. eauto.
  - intros ->. discriminate.
Qed.

Lemma render_from_idle (w : World) :
  frame_callbacks w = [] ->
  coherent (exec render w) /\ is_idle (exec render w) = false.
Proof.
  intro H. rewrite render_exec.
  unfold coherent, is_idle, animation_state. cbn. rewrite H. auto.
Qed.

Lemma updateStars_step (width height : num) (w : World) :
  coherent w ->
  coherent (exec (updateStars width height) w)
  /\ is_idle (exec (updateStars width height) w)
     = is_idle w && negb (visible width height).
Proof.
  intro Hc. destruct (visible width height) eqn:Hv.
  - destruct (updateStars_visible_exec width height w Hv) as (k & Hk).
    cbv zeta in Hk. rewrite Hk. rewrite andb_false_r.
    destruct (is_idle w) eqn:Hi.
    + rewrite (coherent_idle w Hc Hi).
      apply render_from_idle. cbn.
      unfold coherent in Hc. rewrite (coherent_idle w Hc Hi) in Hc. exact Hc.
    + destruct (coherent_animating w Hc Hi) as (id & Hid & Hfc).
      rewrite Hid. unfold coherent, is_idle, animation_state. cbn.
      rewrite Hid, Hfc. auto.
  - rewrite updateStars_hidden_exec by exact Hv.
    rewrite andb_true_r. auto.
Qed.

Lemma deliver_step (e : Event) (w w' : World) :
  coherent w -> is_unload e = false -> deliver e w = Some w' ->
  coherent w' /\ is_idle w' = is_idle w && negb (sees_visible e).
Proof.
  intros Hc Hu Hd. destruct e as [|width height|]; simpl in *; try discriminate.
  - destruct (frame_callbacks w) as [|h rest] eqn:Hfc; [discriminate|].
    injection Hd as <-.
    assert (is_idle w = false) as Hi
      by (unfold is_idle, animation_state; rewrite Hfc; reflexivity).
    destruct (coherent_animating w Hc Hi) as (id & _ & Hfc').
    rewrite Hfc in Hfc'. injection Hfc' as -> ->.
    rewrite Hi. apply (render_from_idle (set_frame_callbacks [] w)).
    reflexivity.
  - destruct (observing w); [|discriminate]. injection Hd as <-.
    apply updateStars_step. exact Hc.
Qed.

Lemma coherent_set_observing (b : bool) (w : World) :
  coherent w -> coherent (set_observing b w).
Proof. unfold coherent. cbn. auto. Qed.

Lemma loaded_step (width height : num) :
  coherent (exec (DOMContentLoaded width height) init)
  /\ is_idle (exec (DOMContentLoaded width height) init)
     = negb (visible width height).
Proof.
  rewrite DOMContentLoaded_exec.
  destruct (updateStars_step width height init) as [H1 H2];
    [reflexivity|].
  split.
  - apply coherent_set_observing. exact H1.
  - exact H2.
Qed.

Lemma live_coherent (w : World) : live w -> coherent w.
Proof.
  induction 1 as [width height|e w w' _ IH Hu Hd].
  - apply loaded_step.
  - apply (deliver_step e w w'); auto.
    destruct e; auto. congruence.
Qed.






Lemma is_idle_state (w : World) (b : bool) :
  is_idle w = negb b ->
  animation_state w = if b then Animating else Idle.
Proof.
  unfold is_idle. destruct (animation_state w), b; simpl; congruence.
Qed.


Lemma torn_down_stays (w w' : World) :
  frame_callbacks w = [] -> observing w = false ->
  reachable_from w w' ->
  frame_callbacks w' = [] /\ observing w' = false
  /\ calls w' = calls w ++ skipn (length (calls w)) (calls w')
  /\ count_renders (calls w') = count_renders (calls w)
  /\ stars w' = stars w.
Proof.
  intros Hfc Hob Hr. induction Hr as [|e w1 w2 _ IH Hd].
  - repeat split; auto. rewrite skipn_all. symmetry. apply app_nil_r.
  - destruct IH as (Hfc1 & Hob1 & Hcalls & Hcount & Hstars).
    destruct e as [|width height|]; simpl in Hd.
    + rewrite Hfc1 in Hd. discriminate.
    + rewrite Hob1 in Hd. discriminate.
    + injection Hd as <-. rewrite beforeunload_exec. cbn.
      rewrite Hfc1. split.
      * destruct (animationFrameId w1); reflexivity.
      * split; [reflexivity|]. split; [|split].
        -- rewrite Hcalls at 1. rewrite <- app_assoc.
           f_equal. rewrite Hcalls at 2. rewrite <- app_assoc.
           rewrite skipn_app_exact. reflexivity.
        -- rewrite <- Hcount. unfold count_renders.
           rewrite filter_app. simpl. rewrite app_nil_r. reflexivity.
        -- exact Hstars.
Qed.




Lemma loaded_visible_stars (width height : num) :
  visible width height = true ->
  stars (exec (DOMContentLoaded width height) init)
  = twinkled 0 (eval (generateStars width height) (resized width height init)).
Proof.
  intro Hv. rewrite DOMContentLoaded_exec. cbn [stars set_observing].
  destruct (updateStars_visible_exec width height init Hv) as (k & Hk).
  cbv zeta in Hk. rewrite Hk. cbn [animationFrameId init].
  rewrite render_exec. reflexivity.
Qed.

(** A property of opacities that generation establishes and a frame
    re-establishes holds in every reachable state. *)
Lemma reachable_opacity (P : num -> Prop) :
  (forall width height w,
      Forall (fun s => P (opacity s)) (eval (generateStars width height) w)) ->
  (forall now speed, P (twinkle now speed)) ->
  forall w, reachable w -> Forall (fun s => P (opacity s)) (stars w).
Proof.
  intros Hgen Htw.
  assert (forall l k, Forall (fun s => P (opacity s)) l ->
                      Forall (fun s => P (opacity s)) (twinkled k l)) as Hfr.
  { induction l as [|s rest IH]; intros k H; simpl; [constructor|].
    inversion H as [|? ? Hs Hrest]; subst.
    destruct (twinkleSpeed s); constructor; auto. apply Htw. }
  assert (forall w, Forall (fun s => P (opacity s)) (stars w) ->
                    Forall (fun s => P (opacity s)) (stars (exec render w)))
    as Hrender.
  { intros w H. rewrite render_exec. cbn [stars]. apply Hfr. exact H. }
  assert (forall width height w,
             Forall (fun s => P (opacity s)) (stars w) ->
             Forall (fun s => P (opacity s))
               (stars (exec (updateStars width height) w))) as Hupd.
  { intros width height w H. destruct (visible width height) eqn:Hv.
    - destruct (updateStars_visible_exec width height w Hv) as (k & Hk).
      cbv zeta in Hk. rewrite Hk.
      destruct (animationFrameId w).
      + cbn [stars set_stars]. apply Hgen.
      + apply Hrender. cbn [stars set_stars]. apply Hgen.
    - rewrite updateStars_hidden_exec by exact Hv. exact H. }
  induction 1 as [width height|e w w' _ IH Hd].
  - rewrite DOMContentLoaded_exec. cbn [stars set_observing].
    apply Hupd. constructor.
  - destruct e as [|width height|]; simpl in Hd.
    + destruct (frame_callbacks w) as [|h rest]; [discriminate|].
      injection Hd as <-. apply Hrender. exact IH.
    + destruct (observing w); [|discriminate]. injection Hd as <-.
      apply Hupd. exact IH.
    + injection Hd as <-. rewrite beforeunload_exec. exact IH.
Qed.

(** A property of stars that generation establishes and the update of a
    frame preserves holds in every reachable state. *)
Lemma reachable_stars (P : Star -> Prop) :
  (forall width height w, Forall P (eval (generateStars width height) w)) ->
  (forall k s speed,
      P s -> twinkleSpeed s = Some speed ->
      P {| x := x s; y := y s; radius := radius s;
           opacity := twinkle (clock k) speed;
           twinkleSpeed := twinkleSpeed s |}) ->
  forall w, reachable w -> Forall P (stars w).
Proof.
  intros Hgen Htw.
  assert (forall l k, Forall P l -> Forall P (twinkled k l)) as Hfr.
  { induction l as [|s rest IH]; intros k H; simpl; [constructor|].
    inversion H as [|? ? Hs Hrest]; subst.
    destruct (twinkleSpeed s) as [speed|] eqn:Hsp; constructor; auto.
    rewrite <- Hsp. apply Htw; assumption. }
  assert (forall w, Forall P (stars w) -> Forall P (stars (exec render w)))
    as Hrender.
  { intros w H. rewrite render_exec. cbn [stars]. apply Hfr. exact H. }
  assert (forall width height w,
             Forall P (stars w) ->
             Forall P (stars (exec (updateStars width height) w))) as Hupd.
  { intros width height w H. destruct (visible width height) eqn:Hv.
    - destruct (updateStars_visible_exec width height w Hv) as (k & Hk).
      cbv zeta in Hk. rewrite Hk.
      destruct (animationFrameId w).
      + cbn [stars set_stars]. apply Hgen.
      + apply Hrender. cbn [stars set_stars]. apply Hgen.
    - rewrite updateStars_hidden_exec by exact Hv. exact H. }
  induction 1 as [width height|e w w' _ IH Hd].
  - rewrite DOMContentLoaded_exec. cbn [stars set_observing].
    apply Hupd. constructor.
  - destruct e as [|width height|]; simpl in Hd.
    + destruct (frame_callbacks w) as [|h rest]; [discriminate|].
      injection Hd as <-. apply Hrender. exact IH.
    + destruct (observing w); [|discriminate]. injection Hd as <-.
      apply Hupd. exact IH.
    + injection Hd as <-. rewrite beforeunload_exec. exact IH.
Qed.

(** ** Statements about one frame *)

(** C7: within one run of [render] every star is painted with the opacity
    it had when the run started, and a twinkling star is painted before
    its clock read and opacity update; after the run a twinkling star
    holds the opacity computed from that clock read.  A frame delivered
    next paints the opacities this run left.  When the resize handler
    regenerates the collection in between, the next frame paints the
    generated opacities instead, and so does the frame the handler starts
    itself: what a frame displays is not always a value computed by the
    frame before (see [frame_paints_generated_opacity]). *)
Theorem render_draws_before_update (w : World) :
  let w' := exec render w in
  new_calls w w' =
    Call_clearRect (of_int 0) (of_int 0) (of_int (canvas_width w))
      (of_int (canvas_height w))
    :: flat_map star_calls (stars w)
    ++ [Call_requestAnimationFrame (next_frame_id w)]
  /\ drawn_opacities (new_calls w w') = map opacity (stars w)
  /\ stars w' = twinkled (clock_reads w) (stars w)
  /\ (forall i s speed,
         nth_error (stars w) i = Some s ->
         twinkleSpeed s = Some speed ->
         exists s',
           nth_error (stars w') i = Some s'
           /\ opacity s'
              = twinkle (clock (clock_reads w + twinkling (firstn i (stars w))))
                  speed)
  /\ (exists w'',
         deliver Frame w' = Some w''
         /\ drawn_opacities (new_calls w' w'') = map opacity (stars w'))
  /\ (forall width height,
         visible width height = true ->
         loop_ends width height = true ->
         let regenerated :=
           eval (generateStars width height) (resized width height w') in
         let w1 := exec (updateStars width height) w' in
         stars w1 = regenerated
         /\ exists w'',
              deliver Frame w1 = Some w''
              /\ drawn_opacities (new_calls w1 w'') = map opacity regenerated)
  /\ (forall width height w0,
         visible width height = true ->
         loop_ends width height = true ->
         animationFrameId w0 = None ->
         drawn_opacities (new_calls w0 (exec (updateStars width height) w0))
         = map opacity
             (eval (generateStars width height) (resized width height w0))).
Proof.
  cbv zeta. split; [apply render_new_calls|]. split; [apply render_drawn|].
  split; [rewrite render_exec; reflexivity|].
  split.
  { intros i s speed Hn Hs. rewrite render_exec. cbn [stars].
    apply (twinkled_nth (stars w) (clock_reads w) i s speed Hn Hs). }
  assert (exists h rest, frame_callbacks (exec render w) = h :: rest)
    as (h & rest & Hfc).
  { rewrite render_exec. cbn [frame_callbacks].
    destruct (frame_callbacks w); simpl; eauto. }
  split; [|split].
  - eexists. unfold deliver. rewrite Hfc. split; [reflexivity|].
    apply (render_drawn (set_frame_callbacks rest (exec render w))).
  - intros width height Hv _.
    destruct (updateStars_visible_exec width height (exec render w) Hv)
      as (k & Hk).
    cbv zeta in Hk. rewrite Hk.
    assert (animationFrameId (exec render w) = Some (next_frame_id w)) as Hid
      by (rewrite render_exec; reflexivity).
    rewrite Hid. cbn [stars set_stars]. split; [reflexivity|].
    eexists. unfold deliver. cbn [frame_callbacks set_stars set_random_calls
                                  resized set_canvas_height set_canvas_width].
    rewrite Hfc. split; [reflexivity|].
    match goal with
    | |- drawn_opacities (new_calls ?a (exec render ?b)) = _ =>
        change (new_calls a (exec render b)) with (new_calls b (exec render b))
    end.
    rewrite render_drawn. reflexivity.
  - intros width height w0 Hv _ Hnone.
    destruct (updateStars_visible_exec width height w0 Hv) as (k & Hk).
    cbv zeta in Hk. rewrite Hk, Hnone.
    match goal with
    | |- drawn_opacities (new_calls w0 (exec render ?b)) = _ =>
        change (new_calls w0 (exec render b)) with (new_calls b (exec render b))
    end.
    rewrite render_drawn. reflexivity.
Qed.

(** C10: [render] changes nothing in the star collection but the opacity
    of twinkling stars: same length, same x, y, radius and twinkleSpeed;
    a star without twinkle speed keeps its opacity, and this stays so
    along every delivery of events in which the collection is not
    regenerated. *)
Theorem render_frame_effect :
  (forall w,
      length (stars (exec render w)) = length (stars w)
      /\ Forall2 keeps (stars w) (stars (exec render w)))
  /\ (forall evs w w',
         existsb sees_visible evs = false ->
         run evs w = Some w' ->
         length (stars w') = length (stars w)
         /\ Forall2 keeps (stars w) (stars w')).
Proof.
  assert (forall w, Forall2 keeps (stars w) (stars (exec render w))) as Hr.
  { intro w. rewrite render_exec. cbn [stars]. apply twinkled_keeps. }
  split.
  - intro w. split; [|apply Hr].
    symmetry. exact (Forall2_length (Hr w)).
  - assert (forall evs w w',
               existsb sees_visible evs = false ->
               run evs w = Some w' ->
               Forall2 keeps (stars w) (stars w')) as Hrun.
    { induction evs as [|e evs IH]; intros w w' Hv Hrun; simpl in Hrun.
      - injection Hrun as <-. apply keeps_refl.
      - simpl in Hv. apply orb_false_iff in Hv as [He Hv].
        destruct (deliver e w) as [w1|] eqn:Hd; [|discriminate].
        apply keeps_trans with (stars w1); [|eapply IH; eauto].
        destruct e as [|width height|]; simpl in Hd.
        + destruct (frame_callbacks w) as [|h rest]; [discriminate|].
          injection Hd as <-.
          apply (Hr (set_frame_callbacks rest w)).
        + destruct (observing w); [|discriminate]. injection Hd as <-.
          simpl in He. rewrite updateStars_hidden_exec by exact He.
          apply keeps_refl.
        + injection Hd as <-. rewrite beforeunload_exec. cbn [stars].
          apply keeps_refl. }
    intros evs w w' Hv H. split; [|eapply Hrun; eauto].
    symmetry. exact (Forall2_length (Hrun evs w w' Hv H)).
Qed.

(** ** Statements about the resize handler *)

(** C4: when the observed width or height is zero, [updateStars] leaves
    the whole state as it is: stars, bitmap size, scheduled frames and
    every other component. *)
Theorem updateStars_hidden_unchanged (width height : num) (w : World) :
  (width === of_int 0)%num = true \/ (height === of_int 0)%num = true ->
  exec (updateStars width height) w = w
  /\ stars (exec (updateStars width height) w) = stars w
  /\ canvas_width (exec (updateStars width height) w) = canvas_width w
  /\ canvas_height (exec (updateStars width height) w) = canvas_height w
  /\ frame_callbacks (exec (updateStars width height) w) = frame_callbacks w
  /\ animationFrameId (exec (updateStars width height) w) = animationFrameId w
  /\ calls (exec (updateStars width height) w) = calls w.
Proof.
  intro H. apply visible_false in H.
  rewrite updateStars_hidden_exec by exact H. repeat split.
Qed.


(** ** Statements about teardown *)

(** C9: when the [beforeunload] handler runs while the animation is
    Animating, it calls [cancelAnimationFrame] exactly once, with the
    handle of the scheduled frame, and unsubscribes the resize observer;
    afterwards no frame is scheduled and the browser can deliver neither a
    frame nor a resize notification, so [render] and [updateStars] never
    run again. *)
Theorem beforeunload_stops_callbacks (w : World) :
  live w ->
  animation_state w = Animating ->
  let w' := exec beforeunload w in
  (exists id,
      frame_callbacks w = [id]
      /\ new_calls w w' = [Call_cancelAnimationFrame (Some id); Call_unobserve])
  /\ count_cancels (new_calls w w') = 1%nat
  /\ frame_callbacks w' = []
  /\ observing w' = false
  /\ animation_state w' = Idle
  /\ (forall w'',
         reachable_from w' w'' ->
         deliver Frame w'' = None
         /\ (forall width height, deliver (Resize width height) w'' = None)
         /\ count_renders (calls w'') = count_renders (calls w')
         /\ stars w'' = stars w').
Proof.
  intros Hl Ha. cbv zeta.
  pose proof (live_coherent w Hl) as Hc.
  assert (is_idle w = false) as Hi by (unfold is_idle; rewrite Ha; reflexivity).
  destruct (coherent_animating w Hc Hi) as (id & Hid & Hfc).
  assert (new_calls w (exec beforeunload w)
          = [Call_cancelAnimationFrame (Some id); Call_unobserve]) as Hnew.
  { unfold new_calls. rewrite beforeunload_exec. cbn [calls].
    rewrite skipn_app_exact, Hid. reflexivity. }
  assert (frame_callbacks (exec beforeunload w) = []) as Hfc'.
  { rewrite beforeunload_exec. cbn [frame_callbacks]. rewrite Hid, Hfc.
    unfold remove_handle. simpl. rewrite Pos.eqb_refl. reflexivity. }
  assert (observing (exec beforeunload w) = false) as Hob'
    by (rewrite beforeunload_exec; reflexivity).
  split; [exists id; auto|].
  split; [rewrite Hnew; reflexivity|].
  split; [exact Hfc'|]. split; [exact Hob'|].
  split; [unfold animation_state; rewrite Hfc'; reflexivity|].
  intros w'' Hr.
  destruct (torn_down_stays _ w'' Hfc' Hob' Hr) as (H1 & H2 & _ & H4 & H5).
  simpl. rewrite H1, H2. auto.
Qed.

End Script.

(** * Exact arithmetic

    The formulas and ranges of the numbers the script computes, read in
    exact arithmetic on the reals.  They are the ones a reader of the
    source has in mind; the script itself computes on the doubles, where
    the section [Doubles] below states what holds. *)

Section Exact.

Local Existing Instance real_number.
Local Open Scope R_scope.

Variable random_source : nat -> num.
Variable clock : nat -> Z.
Variable cfg : Settings.

(** [Math.random()] returns a number of the interval [0, 1). *)
Hypothesis Math_random_range : forall n, 0 <= random_source n < 1.

Lemma generated_size_exact (s : Star) (width height : num) :
  generated random_source cfg width height s ->
  0.5 <= radius s < 0.55 /\ 0.5 <= opacity s < 1.
Proof.
  intros (_ & _ & (c & Hc) & (d & Hd) & _).
  pose proof (Math_random_range c). pose proof (Math_random_range d).
  rewrite Hc, Hd. cbn. lra.
Qed.

Lemma generated_position_exact (s : Star) (width height : num) :
  0 < width -> 0 < height ->
  generated random_source cfg width height s ->
  0 <= x s < width /\ 0 <= y s < height.
Proof.
  intros Hw Hh ((a & Ha) & (b & Hb) & _).
  pose proof (Math_random_range a). pose proof (Math_random_range b).
  rewrite Ha, Hb. cbn. nra.
Qed.

Lemma passes_positive_dims (width height : num) :
  0 <= width -> 0 <= height ->
  (0 < passes (numStars cfg width height))%nat ->
  0 < width /\ 0 < height.
Proof.
  intros Hw Hh Hn. unfold numStars, passes in Hn. cbn in Hn.
  pose proof (Zfloor_bound (width * height * starDensity cfg)) as [Hlo _].
  assert (1 <= IZR (Zfloor (width * height * starDensity cfg))) as H1
    by (apply IZR_le; lia).
  destruct (Req_dec width 0) as [E|E].
  - rewrite E in *. lra.
  - destruct (Req_dec height 0) as [E'|E'].
    + rewrite E' in *. lra.
    + lra.
Qed.

Lemma twinkle_range_exact (now : Z) (speed : num) :
  0.5 <= twinkle now speed <= 1.
Proof.
  unfold twinkle. cbn.
  pose proof (SIN_bound ((IZR now * 0.001) / speed)) as [Hlo Hhi].
  pose proof (Rabs_pos (sin ((IZR now * 0.001) / speed) * 0.5)).
  assert (Rabs (sin ((IZR now * 0.001) / speed) * 0.5) <= 0.5).
  { apply Rabs_le. lra. }
  lra.
Qed.

(** ** Statements about generation *)

(** In exact arithmetic the ranges of generation are half-open: on a
    surface of non-negative size, every generated star has its radius in
    [0.5, 0.55), its opacity in [0.5, 1) and its position in
    [0, width) x [0, height). *)
Theorem generateStars_ranges_exact (width height : num) (w : World) (s : Star) :
  0 <= width -> 0 <= height ->
  In s (eval (generateStars random_source cfg width height) w) ->
  0.5 <= radius s < 0.55
  /\ 0.5 <= opacity s < 1
  /\ 0 <= x s < width
  /\ 0 <= y s < height.
Proof.
  intros Hw Hh Hin.
  destruct (generateStars_eval random_source cfg width height w) as [Hlen Hall].
  assert (generated random_source cfg width height s) as Hg
    by (rewrite Forall_forall in Hall; auto).
  assert (0 < passes (numStars cfg width height))%nat as Hn.
  { destruct (eval (generateStars random_source cfg width height) w);
      [contradiction|].
    rewrite <- Hlen. cbn [length]. lia. }
  destruct (passes_positive_dims width height Hw Hh Hn) as [Hw' Hh'].
  destruct (generated_size_exact s width height Hg) as [Hr Ho].
  destruct (generated_position_exact s width height Hw' Hh' Hg) as [Hx Hy].
  auto.
Qed.

(** In exact arithmetic, when the "all stars twinkle" flag is set (and
    the speed interval is not empty), every generated star has a twinkle
    speed, and it lies in [minTwinkleSpeed, maxTwinkleSpeed). *)
Theorem generateStars_all_twinkle_exact (width height : num) (w : World) (s : Star) :
  allStarsTwinkle cfg = true ->
  minTwinkleSpeed cfg < maxTwinkleSpeed cfg ->
  In s (eval (generateStars random_source cfg width height) w) ->
  exists speed,
    twinkleSpeed s = Some speed
    /\ minTwinkleSpeed cfg <= speed < maxTwinkleSpeed cfg.
Proof.
  intros Hall Hlt Hin.
  destruct (generateStars_eval random_source cfg width height w) as [_ HF].
  rewrite Forall_forall in HF.
  destruct (HF s Hin) as (_ & _ & _ & _ & [[Hf _]|(e & He)]).
  - congruence.
  - eexists. split; [exact He|].
    pose proof (Math_random_range e). cbn. nra.
Qed.

(** ** Statements about one frame *)

(** In exact arithmetic one run of [render] sets the opacity of a
    twinkling star to
    0.5 + 0.5 * |sin ((currentTimeMillis / 1000) / twinkleSpeed)|, where
    currentTimeMillis is a value of [Date.now()] read during that run (the
    clock is read once for each twinkling star, in the order of the
    collection). *)
Theorem render_twinkle_opacity_exact (w : World) (i : nat) (s : Star) (speed : num) :
  nth_error (stars w) i = Some s ->
  twinkleSpeed s = Some speed ->
  let n := (clock_reads w + twinkling (firstn i (stars w)))%nat in
  let currentTimeMillis := IZR (clock n) in
  (clock_reads w <= n < clock_reads (exec (render clock) w))%nat
  /\ exists s',
       nth_error (stars (exec (render clock) w)) i = Some s'
       /\ opacity s' =
          0.5 + 0.5 * Rabs (sin ((currentTimeMillis / 1000) / speed)).
Proof.
  intros Hn Hs. cbv zeta. rewrite render_exec. cbn [clock_reads stars].
  split.
  - assert (twinkles s = true) as Ht by (unfold twinkles; rewrite Hs; reflexivity).
    pose proof (twinkling_firstn_lt (stars w) i s Hn Ht). lia.
  - destruct (twinkled_nth clock (stars w) (clock_reads w) i s speed Hn Hs)
      as (s' & H1 & H2).
    exists s'. split; [exact H1|]. rewrite H2. unfold twinkle. cbn.
    rewrite Rabs_mult, (Rabs_right 0.5) by lra.
    replace (IZR (clock (clock_reads w + twinkling (firstn i (stars w)))) * 0.001)
      with (IZR (clock (clock_reads w + twinkling (firstn i (stars w)))) / 1000)
      by lra.
    ring.
Qed.

(** ** The range of the opacity *)

(** In exact arithmetic a generated star has its opacity in
    [0.5, 1), a run of [render] puts the opacity of every star in the
    closed interval [0.5, 1], and so the opacity of every star of every
    reachable state lies in [0.5, 1]. *)
Theorem opacity_closed_range_exact :
  (forall width height w s,
      In s (eval (generateStars random_source cfg width height) w) ->
      0.5 <= opacity s < 1)
  /\ (forall w,
         Forall (fun s => 0.5 <= opacity s <= 1) (stars w) ->
         Forall (fun s => 0.5 <= opacity s <= 1) (stars (exec (render clock) w)))
  /\ (forall w,
         reachable random_source clock cfg w ->
         Forall (fun s => 0.5 <= opacity s <= 1) (stars w)).
Proof.
  assert (forall width height w,
             Forall (fun s => 0.5 <= opacity s < 1)
               (eval (generateStars random_source cfg width height) w)) as Hgen.
  { intros width height w.
    destruct (generateStars_eval random_source cfg width height w) as [_ H].
    eapply Forall_impl; [|exact H].
    intros s Hg. apply (generated_size_exact s width height Hg). }
  split; [|split].
  - intros width height w s Hin.
    specialize (Hgen width height w). rewrite Forall_forall in Hgen. auto.
  - intros w H. rewrite render_exec. cbn [stars].
    revert H. generalize (clock_reads w). induction (stars w) as [|s rest IH];
      intros k H; simpl; [constructor|].
    inversion H as [|? ? Hs Hrest]; subst.
    destruct (twinkleSpeed s); constructor; auto. apply twinkle_range_exact.
  - apply (reachable_opacity random_source clock cfg
             (fun v => 0.5 <= v <= 1)).
    + intros width height w. eapply Forall_impl; [|apply Hgen].
      cbv beta. intros s H. lra.
    + apply twinkle_range_exact.
Qed.

End Exact.

(** * Rounding on the doubles

    Bounds for the rounded sum, product and quotient of doubles, from the
    specification of the operations in [SpecFloat]. *)

Module Rounding.

Import SpecFloat FloatOps PrimFloat Binary64.
Local Open Scope Z_scope.

(** ** Digits and shifts *)

Lemma digits2_bounds (p : positive) :
  2 ^ (Zpos (digits2_pos p) - 1) <= Zpos p < 2 ^ Zpos (digits2_pos p).
Proof.
  induction p as [p IH|p IH|]; cbn [digits2_pos].
  - rewrite Pos2Z.inj_succ.
    replace (Z.succ (Zpos (digits2_pos p)) - 1) with (Z.succ (Zpos (digits2_pos p) - 1)) by lia.
    rewrite !Z.pow_succ_r by lia. lia.
  - rewrite Pos2Z.inj_succ.
    replace (Z.succ (Zpos (digits2_pos p)) - 1) with (Z.succ (Zpos (digits2_pos p) - 1)) by lia.
    rewrite !Z.pow_succ_r by lia. lia.
  - simpl. lia.
Qed.

Lemma digits2_le (p : positive) (k : Z) :
  0 <= k -> Zpos p < 2 ^ k -> Zpos (digits2_pos p) <= k.
Proof.
  intros Hk H. destruct (digits2_bounds p) as [Hlo _].
  destruct (Z_le_gt_dec (Zpos (digits2_pos p)) k) as [|Hgt]; [assumption|].
  exfalso. assert (2 ^ k <= 2 ^ (Zpos (digits2_pos p) - 1)) by (apply Z.pow_le_mono_r; lia).
  lia.
Qed.

Lemma digits2_gt (p : positive) (k : Z) :
  2 ^ k <= Zpos p -> k < Zpos (digits2_pos p).
Proof.
  intros H. destruct (digits2_bounds p) as [_ Hhi].
  destruct (Z_lt_le_dec k (Zpos (digits2_pos p))) as [|Hle]; [assumption|].
  exfalso. assert (2 ^ Zpos (digits2_pos p) <= 2 ^ k) by (apply Z.pow_le_mono_r; lia).
  lia.
Qed.

Lemma shr_holds_start (A : Z) : shr_holds A 0 (Build_shr_record A false false).
Proof.
  unfold shr_holds. simpl. rewrite Z.div_1_r, Z.mod_1_r.
  repeat split; try discriminate; try lia.
Qed.

Lemma shr_1_holds (A k : Z) (mrs : shr_record) :
  0 <= A -> 0 <= k -> shr_holds A k mrs -> shr_holds A (k + 1) (shr_1 mrs).
Proof.
  intros HA Hk (Hm & Hr & Hs).
  assert (0 < 2 ^ k) as Hpow by (apply Z.pow_pos_nonneg; lia).
  assert (2 ^ (k + 1) = 2 * 2 ^ k) as Hpow1 by (rewrite Z.pow_add_r by lia; lia).
  pose proof (Z.div_mod A (2 ^ k) ltac:(lia)) as Hdm.
  pose proof (Z.mod_pos_bound A (2 ^ k) Hpow) as Hrem.
  assert (0 <= A / 2 ^ k) as Hq by (apply Z.div_pos; lia).
  pose proof (Z.div_mod (A / 2 ^ k) 2 ltac:(lia)) as Hdm2.
  pose proof (Z.mod_pos_bound (A / 2 ^ k) 2 ltac:(lia)) as Hrem2.
  assert (A / 2 ^ (k + 1) = A / 2 ^ k / 2) as Hq1.
  { rewrite Hpow1, Z.mul_comm. rewrite <- Z.div_div by lia. reflexivity. }
  assert (A mod 2 ^ (k + 1) = (A / 2 ^ k mod 2) * 2 ^ k + A mod 2 ^ k) as Hr1.
  { symmetry. apply Z.mod_unique_pos with (q := A / 2 ^ k / 2); nia. }
  destruct mrs as [m r s]. cbn [shr_m shr_r shr_s] in *. subst m.
  unfold shr_holds. rewrite Hq1, Hr1, Hpow1.
  assert (r || s = true <-> A mod 2 ^ k <> 0) as Hrs.
  { rewrite orb_true_iff, Hr, Hs. lia. }
  destruct (A / 2 ^ k) as [|q|q] eqn:Eq; [| |lia].
  - cbn [shr_1 shr_m shr_r shr_s]. change (0 / 2) with 0. change (0 mod 2) with 0.
    repeat split; intros; try discriminate; try lia; try tauto;
      try (apply Hrs; lia); try (apply Hrs in H; lia).
  - destruct q as [q|q|]; cbn [shr_1 shr_m shr_r shr_s].
    + assert (Zpos q~1 / 2 = Zpos q) as E1 by (rewrite Pos2Z.inj_xI; symmetry; apply Z.div_unique with 1; lia).
      assert (Zpos q~1 mod 2 = 1) as E2 by (rewrite Pos2Z.inj_xI; symmetry; apply Z.mod_unique with (Zpos q); lia).
      rewrite E1, E2.
      repeat split; intros; try discriminate; try lia; try tauto;
        try (apply Hrs; lia); try (apply Hrs in H; lia).
    + assert (Zpos q~0 / 2 = Zpos q) as E1 by (rewrite Pos2Z.inj_xO; symmetry; apply Z.div_unique with 0; lia).
      assert (Zpos q~0 mod 2 = 0) as E2 by (rewrite Pos2Z.inj_xO; symmetry; apply Z.mod_unique with (Zpos q); lia).
      rewrite E1, E2.
      repeat split; intros; try discriminate; try lia; try tauto;
        try (apply Hrs; lia); try (apply Hrs in H; lia).
    + change (1 / 2) with 0. change (1 mod 2) with 1.
      repeat split; intros; try discriminate; try lia; try tauto;
        try (apply Hrs; lia); try (apply Hrs in H; lia).
Qed.

Lemma iter_pos_holds (n : positive) :
  forall A k mrs, 0 <= A -> 0 <= k -> shr_holds A k mrs ->
                  shr_holds A (k + Zpos n) (iter_pos shr_1 n mrs).
Proof.
  induction n as [n IH|n IH|]; intros A k mrs HA Hk H; cbn [iter_pos].
  - replace (k + Zpos n~1) with (((k + 1) + Zpos n) + Zpos n) by lia.
    apply IH; try lia. apply IH; try lia. apply shr_1_holds; assumption.
  - replace (k + Zpos n~0) with ((k + Zpos n) + Zpos n) by lia.
    apply IH; try lia. apply IH; try lia. assumption.
  - apply shr_1_holds; assumption.
Qed.

Lemma fexp64 (e : Z) : fexp prec emax e = Z.max (e - 53) (-1074).
Proof. reflexivity. Qed.

Lemma Zdigits2_nonneg (M : Z) : 0 <= Zdigits2 M.
Proof. destruct M; simpl; lia. Qed.

(** Shifting an exact integer to the exponent of its format. *)
Lemma shr_fexp_exact (M e : Z) :
  0 <= M ->
  exists mrs,
    shr_fexp prec emax M e loc_Exact
    = (mrs, Z.max e (fexp prec emax (Zdigits2 M + e)))
    /\ shr_holds M (Z.max e (fexp prec emax (Zdigits2 M + e)) - e) mrs.
Proof.
  intro HM. unfold shr_fexp, shr. cbn [shr_record_of_loc].
  destruct (fexp prec emax (Zdigits2 M + e) - e) as [|n|n] eqn:En.
  - eexists. split.
    + f_equal. lia.
    + replace (Z.max e (fexp prec emax (Zdigits2 M + e)) - e) with 0 by lia.
      apply shr_holds_start.
  - eexists. split.
    + f_equal. lia.
    + replace (Z.max e (fexp prec emax (Zdigits2 M + e)) - e) with (0 + Zpos n) by lia.
      apply iter_pos_holds; try lia. apply shr_holds_start.
  - eexists. split.
    + f_equal. lia.
    + replace (Z.max e (fexp prec emax (Zdigits2 M + e)) - e) with 0 by lia.
      apply shr_holds_start.
Qed.

Lemma round_nearest_even_holds (A k : Z) (mrs : shr_record) :
  0 <= A -> 0 <= k -> shr_holds A k mrs ->
  let M2 := round_nearest_even (shr_m mrs) (loc_of_shr_record mrs) in
  A / 2 ^ k <= M2 <= A / 2 ^ k + 1
  /\ (2 * (A mod 2 ^ k) < 2 ^ k -> M2 = A / 2 ^ k)
  /\ (2 ^ k < 2 * (A mod 2 ^ k) -> M2 = A / 2 ^ k + 1).
Proof.
  intros HA Hk (Hm & Hr & Hs). cbv zeta.
  destruct mrs as [m r s]. cbn [shr_m shr_r shr_s] in *. subst m.
  assert (0 < 2 ^ k) as Hpow by (apply Z.pow_pos_nonneg; lia).
  pose proof (Z.mod_pos_bound A (2 ^ k) Hpow) as Hrem.
  destruct r, s; cbn [loc_of_shr_record round_nearest_even].
  - assert (2 ^ k <= 2 * (A mod 2 ^ k)) by (apply Hr; reflexivity).
    assert (2 * (A mod 2 ^ k) <> 2 ^ k) by (apply Hs; reflexivity).
    lia.
  - assert (2 ^ k <= 2 * (A mod 2 ^ k)) by (apply Hr; reflexivity).
    assert (~ (A mod 2 ^ k <> 0 /\ 2 * (A mod 2 ^ k) <> 2 ^ k))
      by (intro H1; apply Hs in H1; discriminate).
    destruct (Z.even (A / 2 ^ k)); lia.
  - assert (~ 2 ^ k <= 2 * (A mod 2 ^ k))
      by (intro H1; apply Hr in H1; discriminate).
    lia.
  - assert (~ 2 ^ k <= 2 * (A mod 2 ^ k))
      by (intro H1; apply Hr in H1; discriminate).
    lia.
Qed.

Lemma binary_round_aux_exact (sx : bool) (p : positive) (e : Z) :
  let ef := Z.max e (Z.max (Zpos (digits2_pos p) + e - 53) (-1074)) in
  let n := ef - e in
  exists M2,
    binary_round_aux prec emax sx (Zpos p) e loc_Exact = rounded sx M2 ef
    /\ Zpos p / 2 ^ n <= M2 <= Zpos p / 2 ^ n + 1
    /\ (2 * (Zpos p mod 2 ^ n) < 2 ^ n -> M2 = Zpos p / 2 ^ n)
    /\ (2 ^ n < 2 * (Zpos p mod 2 ^ n) -> M2 = Zpos p / 2 ^ n + 1)
    /\ M2 <= 2 ^ 53.
Proof.
  cbv zeta. unfold binary_round_aux.
  destruct (shr_fexp_exact (Zpos p) e ltac:(lia)) as (mrs & E & Hh).
  rewrite E. cbn [Zdigits2] in *. rewrite fexp64 in *.
  set (ef := Z.max e (Z.max (Zpos (digits2_pos p) + e - 53) (-1074))) in *.
  assert (0 <= ef - e) as Hn by lia.
  destruct (round_nearest_even_holds (Zpos p) (ef - e) mrs ltac:(lia) Hn Hh)
    as (Hb & Hlo & Hhi).
  set (M2 := round_nearest_even (shr_m mrs) (loc_of_shr_record mrs)) in *.
  assert (0 < 2 ^ (ef - e)) as Hpow by (apply Z.pow_pos_nonneg; lia).
  assert (0 <= Zpos p / 2 ^ (ef - e)) as Hq by (apply Z.div_pos; lia).
  (* the quotient has at most 53 digits *)
  assert (Zpos p / 2 ^ (ef - e) < 2 ^ 53) as Hq53.
  { destruct (digits2_bounds p) as [_ Hd].
    apply Z.div_lt_upper_bound; [lia|].
    rewrite <- Z.pow_add_r by lia.
    eapply Z.lt_le_trans; [exact Hd|].
    apply Z.pow_le_mono_r; lia. }
  exists M2. split; [|repeat split; try lia; auto].
  destruct (shr_fexp_exact M2 ef ltac:(lia)) as (mrs2 & E2 & Hh2).
  rewrite E2. rewrite fexp64 in *.
  destruct Hh2 as (Hm2 & _ & _).
  destruct M2 as [|m2|m2] eqn:EM; [| |lia].
  - (* zero *)
    cbn [Zdigits2] in *.
    replace (Z.max ef (Z.max (0 + ef - 53) (-1074)) - ef) with 0 in Hm2 by lia.
    rewrite Hm2. reflexivity.
  - cbn [Zdigits2] in *. unfold rounded.
    destruct (Zpos m2 <? 2 ^ 53) eqn:Hlt.
    + apply Z.ltb_lt in Hlt.
      assert (Zpos (digits2_pos m2) <= 53) by (apply digits2_le; lia).
      replace (Z.max ef (Z.max (Zpos (digits2_pos m2) + ef - 53) (-1074))) with ef
        in * by lia.
      replace (ef - ef) with 0 in Hm2 by lia.
      rewrite Z.pow_0_r, Z.div_1_r in Hm2. rewrite Hm2. reflexivity.
    + apply Z.ltb_ge in Hlt.
      assert (Zpos m2 = 2 ^ 53) as E53 by lia.
      assert (m2 = 9007199254740992%positive) as -> by (apply Pos2Z.inj; exact E53).
      change (Zpos (digits2_pos 9007199254740992)) with 54 in *.
      replace (Z.max ef (Z.max (54 + ef - 53) (-1074))) with (ef + 1) in * by lia.
      replace (ef + 1 - ef) with 1 in Hm2 by lia.
      change (Zpos 9007199254740992 / 2 ^ 1) with (Zpos 4503599627370496) in Hm2.
      rewrite Hm2. reflexivity.
Qed.

(** ** Valid mantissa-exponent pairs and their order *)

Lemma bounded_spec (m : positive) (e : Z) :
  bounded prec emax m e = true <->
  Z.max (Zpos (digits2_pos m) + e - 53) (-1074) = e /\ e <= 971.
Proof.
  unfold bounded, canonical_mantissa. rewrite fexp64.
  rewrite andb_true_iff, Z.eqb_eq, Z.leb_le. reflexivity.
Qed.

Lemma SFleb_finite (m1 m2 : positive) (e1 e2 : Z) :
  SFleb (S754_finite false m1 e1) (S754_finite false m2 e2) = true
  <-> lex_le m1 e1 m2 e2.
Proof.
  unfold SFleb, SFcompare, lex_le.
  destruct (Z.compare_spec e1 e2) as [E|E|E].
  - subst. rewrite Pos.compare_cont_spec. cbn [Pos.switch_Eq].
    destruct (Pos.compare_spec m1 m2) as [E'|E'|E'];
      split; intro H; try reflexivity; try discriminate; try lia.
  - split; intro H; [lia|reflexivity].
  - split; intro H; [discriminate|lia].
Qed.

Lemma SFltb_finite (m1 m2 : positive) (e1 e2 : Z) :
  SFltb (S754_finite false m1 e1) (S754_finite false m2 e2) = true
  <-> ~ lex_le m2 e2 m1 e1.
Proof.
  unfold SFltb, SFcompare, lex_le.
  destruct (Z.compare_spec e1 e2) as [E|E|E].
  - subst. rewrite Pos.compare_cont_spec. cbn [Pos.switch_Eq].
    destruct (Pos.compare_spec m1 m2) as [E'|E'|E'];
      split; intro H; try reflexivity; try discriminate; try lia.
  - split; intro H; [lia|reflexivity].
  - split; intro H; [discriminate|lia].
Qed.

Lemma pow2_pos (k : Z) : 0 <= k -> 0 < 2 ^ k.
Proof. intro. apply Z.pow_pos_nonneg; lia. Qed.

Lemma pow2_split (a b : Z) : 0 <= a -> 0 <= b -> 2 ^ (a + b) = 2 ^ a * 2 ^ b.
Proof. intros. apply Z.pow_add_r; assumption. Qed.

Lemma lex_le_val (m1 m2 : positive) (e1 e2 : Z) :
  bounded prec emax m1 e1 = true -> bounded prec emax m2 e2 = true ->
  (lex_le m1 e1 m2 e2 <-> val m1 e1 <= val m2 e2).
Proof.
  intros H1 H2. apply bounded_spec in H1, H2.
  destruct H1 as [C1 _], H2 as [C2 _].
  destruct (digits2_bounds m1) as [L1 U1], (digits2_bounds m2) as [L2 U2].
  unfold lex_le, val.
  assert (forall (ma mb : positive) (ea eb : Z),
             Z.max (Zpos (digits2_pos ma) + ea - 53) (-1074) = ea ->
             Z.max (Zpos (digits2_pos mb) + eb - 53) (-1074) = eb ->
             ea < eb ->
             Zpos ma * 2 ^ (ea + 1074) < Zpos mb * 2 ^ (eb + 1074)) as Hlt.
  { intros ma mb ea eb Ca Cb Hab.
    destruct (digits2_bounds ma) as [_ Ua], (digits2_bounds mb) as [Lb _].
    assert (Zpos (digits2_pos mb) = 53) as Db by lia.
    rewrite Db in Lb. change (2 ^ (53 - 1)) with (2 ^ 52) in Lb.
    assert (Zpos ma < 2 ^ 53).
    { eapply Z.lt_le_trans; [exact Ua|]. apply Z.pow_le_mono_r; lia. }
    replace (eb + 1074) with ((eb - ea - 1) + 1 + (ea + 1074)) by lia.
    rewrite (pow2_split (eb - ea - 1 + 1) (ea + 1074)) by lia.
    rewrite (pow2_split (eb - ea - 1) 1) by lia.
    pose proof (pow2_pos (ea + 1074) ltac:(lia)).
    pose proof (pow2_pos (eb - ea - 1) ltac:(lia)).
    change (2 ^ 1) with 2. change (2 ^ 53) with (2 * 2 ^ 52) in *.
    rewrite Z.mul_assoc. apply Z.mul_lt_mono_pos_r; [assumption|].
    set (c := 2 ^ 52) in *. set (q := 2 ^ (eb - ea - 1)) in *. nia. }
  split.
  - intros [Hlt'|[-> Hle]].
    + specialize (Hlt m1 m2 e1 e2 C1 C2 Hlt'). lia.
    + pose proof (pow2_pos (e2 + 1074) ltac:(lia)). nia.
  - intro Hv.
    destruct (Z.lt_trichotomy e1 e2) as [H|[H|H]].
    + left. exact H.
    + right. split; [exact H|]. subst.
      pose proof (pow2_pos (e2 + 1074) ltac:(lia)). nia.
    + specialize (Hlt m2 m1 e2 e1 C2 C1 H). lia.
Qed.

(** ** Rounding stays within representable bounds *)

(** The digits of a number bounded by a valid one. *)
Lemma digits_value_le (p mh : positive) (e eh : Z) :
  -2148 <= e -> -2148 <= eh ->
  Zpos p * 2 ^ (e + 2148) <= Zpos mh * 2 ^ (eh + 2148) ->
  Zpos (digits2_pos p) + e <= Zpos (digits2_pos mh) + eh.
Proof.
  intros He Heh H.
  destruct (digits2_bounds p) as [Lp _], (digits2_bounds mh) as [_ Uh].
  pose proof (pow2_pos (e + 2148) ltac:(lia)).
  pose proof (pow2_pos (eh + 2148) ltac:(lia)).
  assert (2 ^ (Zpos (digits2_pos p) - 1 + (e + 2148))
          < 2 ^ (Zpos (digits2_pos mh) + (eh + 2148))) as Hpow.
  { rewrite (pow2_split (Zpos (digits2_pos p) - 1) (e + 2148)) by lia.
    rewrite (pow2_split (Zpos (digits2_pos mh)) (eh + 2148)) by lia. nia. }
  apply Z.pow_lt_mono_r_iff in Hpow; lia.
Qed.

Lemma rounded_upper (sx : bool) (p mh : positive) (e eh : Z) :
  -2148 <= e ->
  e <= Z.max (Zpos (digits2_pos p) + e - 53) (-1074) ->
  bounded prec emax mh eh = true ->
  Zpos p * 2 ^ (e + 2148) <= Zpos mh * 2 ^ (eh + 2148) ->
  match binary_round_aux prec emax sx (Zpos p) e loc_Exact with
  | S754_zero s => s = sx
  | S754_finite s m' e' => s = sx /\ lex_le m' e' mh eh
  | _ => False
  end.
Proof.
  intros He Hn Hb Hle. apply bounded_spec in Hb. destruct Hb as [Ch Hmax].
  pose proof (digits_value_le p mh e eh He ltac:(lia) Hle) as Hd.
  destruct (binary_round_aux_exact sx p e) as (M2 & -> & HM & Hlo & _ & H53).
  cbv zeta in *.
  set (d := Zpos (digits2_pos p)) in *.
  replace (Z.max e (Z.max (d + e - 53) (-1074))) with (Z.max (d + e - 53) (-1074))
    in * by lia.
  set (ef := Z.max (d + e - 53) (-1074)) in *.
  assert (ef <= eh) as Hef by lia.
  assert (0 < 2 ^ (ef - e)) as Hpow by (apply pow2_pos; lia).
  assert (0 <= Zpos p / 2 ^ (ef - e)) as Hq by (apply Z.div_pos; lia).
  unfold rounded. destruct M2 as [|m2|m2]; [reflexivity| |lia].
  destruct (Z.eq_dec ef eh) as [E|E].
  - (* same exponent: the mantissa does not pass that of the bound *)
    assert (Zpos p <= Zpos mh * 2 ^ (ef - e)) as Hp.
    { replace (eh + 2148) with ((ef - e) + (e + 2148)) in Hle by lia.
      rewrite (pow2_split (ef - e) (e + 2148)) in Hle by lia.
      pose proof (pow2_pos (e + 2148) ltac:(lia)).
      rewrite Z.mul_assoc in Hle.
      apply Z.mul_le_mono_pos_r in Hle; assumption. }
    assert (Zpos m2 <= Zpos mh) as Hm.
    { destruct (Z_lt_le_dec (Zpos p / 2 ^ (ef - e)) (Zpos mh)) as [Hlt|Hge];
        [lia|].
      pose proof (Z.div_mod (Zpos p) (2 ^ (ef - e)) ltac:(lia)) as Hdm.
      pose proof (Z.mod_pos_bound (Zpos p) (2 ^ (ef - e)) Hpow) as Hrem.
      assert (Zpos p mod 2 ^ (ef - e) = 0) as Hz by nia.
      rewrite Hlo by lia.
      apply Z.div_le_upper_bound; lia. }
    destruct (digits2_bounds mh) as [_ Uh].
    assert (Zpos mh < 2 ^ 53).
    { eapply Z.lt_le_trans; [exact Uh|]. apply Z.pow_le_mono_r; lia. }
    replace (Zpos m2 <? 2 ^ 53) with true by (symmetry; apply Z.ltb_lt; lia).
    replace (ef <=? 971) with true by (symmetry; apply Z.leb_le; lia).
    split; [reflexivity|]. right. split; assumption.
  - assert (ef < eh) as Hlt by lia.
    destruct (Zpos m2 <? 2 ^ 53).
    + replace (ef <=? 971) with true by (symmetry; apply Z.leb_le; lia).
      split; [reflexivity|]. left. exact Hlt.
    + replace (ef + 1 <=? 971) with true by (symmetry; apply Z.leb_le; lia).
      split; [reflexivity|].
      destruct (Z.eq_dec (ef + 1) eh) as [E'|E']; [|left; lia].
      right. split; [exact E'|].
      destruct (digits2_bounds mh) as [Lh _].
      assert (Zpos (digits2_pos mh) = 53) as Dh by lia.
      rewrite Dh in Lh. exact Lh.
Qed.

Lemma rounded_lower (sx : bool) (p ml : positive) (e el : Z) :
  -2148 <= e ->
  e <= Z.max (Zpos (digits2_pos p) + e - 53) (-1074) ->
  bounded prec emax ml el = true ->
  Zpos ml * 2 ^ (el + 2148) <= Zpos p * 2 ^ (e + 2148) ->
  match binary_round_aux prec emax sx (Zpos p) e loc_Exact with
  | S754_finite _ m' e' => lex_le ml el m' e'
  | S754_infinity _ => True
  | _ => False
  end.
Proof.
  intros He Hn Hb Hle. apply bounded_spec in Hb. destruct Hb as [Cl Hmax].
  pose proof (digits_value_le ml p el e ltac:(lia) He Hle) as Hd.
  destruct (binary_round_aux_exact sx p e) as (M2 & -> & HM & _ & _ & H53).
  cbv zeta in *.
  set (d := Zpos (digits2_pos p)) in *.
  replace (Z.max e (Z.max (d + e - 53) (-1074))) with (Z.max (d + e - 53) (-1074))
    in * by lia.
  set (ef := Z.max (d + e - 53) (-1074)) in *.
  assert (el <= ef) as Hef by lia.
  assert (0 < 2 ^ (ef - e)) as Hpow by (apply pow2_pos; lia).
  pose proof (pow2_pos (e + 2148) ltac:(lia)) as Hpe.
  (* the quotient is at least one *)
  assert (2 ^ (ef - e) <= Zpos p) as Hp1.
  { destruct (Z_le_gt_dec (-1074) (d + e - 53)) as [Hc|Hc].
    - destruct (digits2_bounds p) as [Lp _]. fold d in Lp.
      eapply Z.le_trans; [|exact Lp]. apply Z.pow_le_mono_r; lia.
    - assert (ef = -1074) as Eef by lia.
      apply (Z.mul_le_mono_pos_r _ _ (2 ^ (e + 2148))); [exact Hpe|].
      rewrite <- pow2_split by lia.
      eapply Z.le_trans; [|exact Hle].
      pose proof (pow2_pos (el + 2148) ltac:(lia)).
      assert (2 ^ (ef - e + (e + 2148)) <= 2 ^ (el + 2148))
        by (apply Z.pow_le_mono_r; lia).
      nia. }
  assert (1 <= Zpos p / 2 ^ (ef - e)) as Hq
    by (apply Z.div_le_lower_bound; lia).
  unfold rounded. destruct M2 as [|m2|m2]; [lia| |lia].
  destruct (Zpos m2 <? 2 ^ 53).
  - destruct (ef <=? 971); [|exact I].
    destruct (Z.eq_dec el ef) as [E|E]; [|left; lia].
    right. split; [exact E|].
    assert (Zpos ml <= Zpos p / 2 ^ (ef - e)); [|lia].
    apply Z.div_le_lower_bound; [lia|].
    replace (el + 2148) with ((ef - e) + (e + 2148)) in Hle by lia.
    rewrite (pow2_split (ef - e) (e + 2148)) in Hle by lia.
    rewrite Z.mul_assoc in Hle.
    apply Z.mul_le_mono_pos_r in Hle; [lia|assumption].
  - destruct (ef + 1 <=? 971); [|exact I]. left. lia.
Qed.

(** A product with a factor at most [1 - 2^-53] stays strictly below a
    normal bound. *)
Lemma rounded_strict (sx : bool) (p mh : positive) (e eh : Z) :
  -2148 <= e ->
  e <= Z.max (Zpos (digits2_pos p) + e - 53) (-1074) ->
  bounded prec emax mh eh = true ->
  -1073 <= eh ->
  Zpos p * 2 ^ (e + 2148) * 2 ^ 53 <= Zpos mh * 2 ^ (eh + 2148) * (2 ^ 53 - 1) ->
  match binary_round_aux prec emax sx (Zpos p) e loc_Exact with
  | S754_zero s => s = sx
  | S754_finite s m' e' => s = sx /\ ~ lex_le mh eh m' e'
  | _ => False
  end.
Proof.
  intros He Hn Hb Hnorm Hle.
  pose proof Hb as Hb'. apply bounded_spec in Hb'. destruct Hb' as [Ch Hmax].
  destruct (digits2_bounds mh) as [Lh Uh].
  assert (Zpos (digits2_pos mh) = 53) as Dh by lia.
  rewrite Dh in Lh, Uh. change (2 ^ (53 - 1)) with (2 ^ 52) in Lh.
  pose proof (pow2_pos (e + 2148) ltac:(lia)) as Hpe.
  pose proof (pow2_pos (eh + 2148) ltac:(lia)) as Hph.
  destruct (Z.eq_dec (Zpos mh) (2 ^ 52)) as [E52|N52].
  - (* a power of two: the number below it is one binade down *)
    assert (bounded prec emax 9007199254740991 (eh - 1) = true) as Hg.
    { apply bounded_spec. change (Zpos (digits2_pos 9007199254740991)) with 53. lia. }
    assert (Zpos p * 2 ^ (e + 2148)
            <= Zpos 9007199254740991 * 2 ^ (eh - 1 + 2148)) as Hle'.
    { replace (eh + 2148) with (1 + (eh - 1 + 2148)) in Hle by lia.
      rewrite (pow2_split 1 (eh - 1 + 2148)) in Hle by lia.
      rewrite E52 in Hle.
      pose proof (pow2_pos (eh - 1 + 2148) ltac:(lia)).
      change (Zpos 9007199254740991) with (2 ^ 53 - 1).
      change (2 ^ 1) with 2 in Hle. change (2 ^ 53) with (2 * 2 ^ 52) in *.
      set (c := 2 ^ 52) in *. assert (0 < c) by (subst c; reflexivity).
      set (X := Zpos p * 2 ^ (e + 2148)) in *.
      set (Y := 2 ^ (eh - 1 + 2148)) in *. nia. }
    pose proof (rounded_upper sx p _ e (eh - 1) He Hn Hg Hle') as Hup.
    destruct (binary_round_aux prec emax sx (Zpos p) e loc_Exact)
      as [s|s| |s m' e']; try assumption.
    destruct Hup as [Hs Hlex]. split; [exact Hs|].
    unfold lex_le in *. lia.
  - assert (2 ^ 52 < Zpos mh) as G52 by lia.
    pose proof (digits_value_le p mh e eh He ltac:(lia)) as Hd.
    assert (Zpos p * 2 ^ (e + 2148) <= Zpos mh * 2 ^ (eh + 2148)) as Hle0.
    { change (2 ^ 53) with (2 * 2 ^ 52) in *.
      set (c := 2 ^ 52) in *. assert (0 < c) by (subst c; reflexivity).
      set (X := Zpos p * 2 ^ (e + 2148)) in *.
      set (Y := Zpos mh * 2 ^ (eh + 2148)) in *.
      assert (0 < Y) by (subst Y; lia). nia. }
    specialize (Hd Hle0).
    destruct (binary_round_aux_exact sx p e) as (M2 & -> & HM & Hlo & _ & H53).
    cbv zeta in *.
    set (d := Zpos (digits2_pos p)) in *.
    replace (Z.max e (Z.max (d + e - 53) (-1074)))
      with (Z.max (d + e - 53) (-1074)) in * by lia.
    set (ef := Z.max (d + e - 53) (-1074)) in *.
    assert (ef <= eh) as Hef by lia.
    assert (0 < 2 ^ (ef - e)) as Hpow by (apply pow2_pos; lia).
    assert (0 <= Zpos p / 2 ^ (ef - e)) as Hq by (apply Z.div_pos; lia).
    unfold rounded. destruct M2 as [|m2|m2]; [reflexivity| |lia].
    destruct (Z.eq_dec ef eh) as [E|E].
    + assert (Zpos p * 2 ^ 53 <= Zpos mh * 2 ^ (ef - e) * (2 ^ 53 - 1)) as Hp.
      { replace (eh + 2148) with ((ef - e) + (e + 2148)) in Hle by lia.
        rewrite (pow2_split (ef - e) (e + 2148)) in Hle by lia.
        apply (Z.mul_le_mono_pos_r _ _ (2 ^ (e + 2148))); [exact Hpe|].
        lia. }
      pose proof (Z.div_mod (Zpos p) (2 ^ (ef - e)) ltac:(lia)) as Hdm.
      pose proof (Z.mod_pos_bound (Zpos p) (2 ^ (ef - e)) Hpow) as Hrem.
      set (q := Zpos p / 2 ^ (ef - e)) in *.
      set (r := Zpos p mod 2 ^ (ef - e)) in *.
      set (T := 2 ^ (ef - e)) in *.
      change (2 ^ 53) with (2 * 2 ^ 52) in *.
      set (c := 2 ^ 52) in *. assert (0 < c) as Hc by (subst c; reflexivity).
      assert (q < Zpos mh) as Hqh by nia.
      assert (Zpos m2 < Zpos mh) as Hm.
      { destruct (Z.eq_dec q (Zpos mh - 1)) as [Eq|Nq]; [|lia].
        rewrite Hlo; [lia|]. nia. }
      replace (Zpos m2 <? 2 * c) with true by (symmetry; apply Z.ltb_lt; lia).
      replace (ef <=? 971) with true by (symmetry; apply Z.leb_le; lia).
      split; [reflexivity|]. unfold lex_le. lia.
    + destruct (Zpos m2 <? 2 ^ 53).
      * replace (ef <=? 971) with true by (symmetry; apply Z.leb_le; lia).
        split; [reflexivity|]. unfold lex_le. lia.
      * replace (ef + 1 <=? 971) with true by (symmetry; apply Z.leb_le; lia).
        split; [reflexivity|]. unfold lex_le. lia.
Qed.

(** ** Results of rounding are valid *)

Lemma binary_round_aux_valid (sx : bool) (p : positive) (e : Z) :
  e <= Z.max (Zpos (digits2_pos p) + e - 53) (-1074) ->
  valid_binary prec emax (binary_round_aux prec emax sx (Zpos p) e loc_Exact)
  = true.
Proof.
  intros Hn.
  destruct (binary_round_aux_exact sx p e) as (M2 & -> & HM & _ & _ & H53).
  cbv zeta in *.
  set (d := Zpos (digits2_pos p)) in *.
  replace (Z.max e (Z.max (d + e - 53) (-1074))) with (Z.max (d + e - 53) (-1074))
    in * by lia.
  set (ef := Z.max (d + e - 53) (-1074)) in *.
  assert (0 < 2 ^ (ef - e)) as Hpow by (apply pow2_pos; lia).
  unfold rounded. destruct M2 as [|m2|m2]; [reflexivity| |reflexivity].
  destruct (Zpos m2 <? 2 ^ 53) eqn:Hlt.
  - destruct (ef <=? 971) eqn:Hle; [|reflexivity].
    apply Z.ltb_lt in Hlt. apply Z.leb_le in Hle.
    cbn [valid_binary]. apply bounded_spec. split; [|exact Hle].
    assert (Zpos (digits2_pos m2) <= 53) by (apply digits2_le; lia).
    destruct (Z_le_gt_dec (d + e - 53) (-1074)) as [Hc|Hc]; [lia|].
    assert (ef - e = d - 53) as En by lia.
    assert (2 ^ 52 <= Zpos p / 2 ^ (ef - e)) as Hq.
    { apply Z.div_le_lower_bound; [lia|].
      rewrite En, <- pow2_split by lia.
      destruct (digits2_bounds p) as [Lp _]. fold d in Lp.
      replace (d - 53 + 52) with (d - 1) by lia. exact Lp. }
    assert (52 < Zpos (digits2_pos m2)) by (apply digits2_gt; lia).
    lia.
  - destruct (ef + 1 <=? 971) eqn:Hle; [|reflexivity].
    apply Z.leb_le in Hle.
    cbn [valid_binary]. apply bounded_spec.
    change (Zpos (digits2_pos 4503599627370496)) with 53. lia.
Qed.

(** ** Alignment of mantissas *)

Lemma iter_xO_value (d m : positive) :
  Zpos (Pos.iter xO m d) = Zpos m * 2 ^ Zpos d.
Proof.
  induction d as [|d IH] using Pos.peano_ind.
  - cbn [Pos.iter]. change (2 ^ 1) with 2. lia.
  - rewrite Pos.iter_succ, Pos2Z.inj_xO, IH, Pos2Z.inj_succ, Z.pow_succ_r by lia.
    lia.
Qed.

Lemma iter_xO_digits (d m : positive) :
  Zpos (digits2_pos (Pos.iter xO m d)) = Zpos (digits2_pos m) + Zpos d.
Proof.
  induction d as [|d IH] using Pos.peano_ind.
  - cbn [Pos.iter digits2_pos]. lia.
  - rewrite Pos.iter_succ. cbn [digits2_pos]. rewrite Pos2Z.inj_succ, IH. lia.
Qed.

Lemma shl_align_spec (m : positive) (e e' : Z) :
  snd (shl_align m e e') = Z.min e e'
  /\ Zpos (fst (shl_align m e e')) = Zpos m * 2 ^ (e - Z.min e e')
  /\ Zpos (digits2_pos (fst (shl_align m e e')))
     = Zpos (digits2_pos m) + (e - Z.min e e').
Proof.
  unfold shl_align. destruct (e' - e) as [|d|d] eqn:E; cbn [fst snd].
  - replace (Z.min e e') with e by lia. rewrite Z.sub_diag. cbn. lia.
  - replace (Z.min e e') with e by lia. rewrite Z.sub_diag. cbn. lia.
  - replace (Z.min e e') with e' by lia.
    replace (e - e') with (Zpos d) by lia.
    rewrite iter_xO_value, iter_xO_digits. lia.
Qed.

(** [binary_round] rounds the number [m * 2^e] written with a mantissa
    long enough for its format. *)
Lemma binary_round_aligned (sx : bool) (m : positive) (e : Z) :
  -2148 <= e ->
  exists (p : positive) (e0 : Z),
    binary_round prec emax sx m e
    = binary_round_aux prec emax sx (Zpos p) e0 loc_Exact
    /\ -2148 <= e0
    /\ e0 <= Z.max (Zpos (digits2_pos p) + e0 - 53) (-1074)
    /\ Zpos p * 2 ^ (e0 + 2148) = Zpos m * 2 ^ (e + 2148).
Proof.
  intro He. unfold binary_round.
  destruct (shl_align_spec m e (fexp prec emax (Zpos (digits2_pos m) + e)))
    as (Hs & Hv & Hd).
  destruct (shl_align m e (fexp prec emax (Zpos (digits2_pos m) + e)))
    as [p e0]. cbn [fst snd] in *.
  rewrite fexp64 in *.
  exists p, e0. split; [reflexivity|].
  split; [lia|]. split; [lia|].
  rewrite Hv, Hs. rewrite <- Z.mul_assoc, <- pow2_split by lia.
  f_equal. f_equal. lia.
Qed.

(** ** Sum and product of finite numbers *)

Lemma SFvalid_exponent (s : bool) (m : positive) (e : Z) :
  SFvalid (S754_finite s m e) -> -1074 <= e <= 971.
Proof. intro H. apply bounded_spec in H. lia. Qed.

Lemma SFmag_pos (s : bool) (m : positive) (e : Z) :
  SFvalid (S754_finite s m e) -> 0 < SFmag (S754_finite s m e).
Proof.
  intro H. apply SFvalid_exponent in H. cbn [SFmag].
  pose proof (pow2_pos (e + 1074) ltac:(lia)). lia.
Qed.

Lemma SFmag_nonneg (x : spec_float) : SFvalid x -> 0 <= SFmag x.
Proof.
  destruct x as [s|s| |s m e]; cbn [SFmag]; lia.
Qed.

Lemma SFleb_mag (x y : spec_float) :
  SFvalid x -> SFvalid y -> SFnonneg x = true -> SFnonneg y = true ->
  (SFleb x y = true <-> SFmag x <= SFmag y).
Proof.
  intros Vx Vy Nx Ny.
  destruct x as [sx|sx| |sx mx ex]; try discriminate;
    destruct y as [sy|sy| |sy my ey]; try discriminate.
  - cbn. split; [lia|reflexivity].
  - destruct sy; [discriminate|]. pose proof (SFmag_pos _ _ _ Vy).
    cbn [SFleb SFcompare]. cbn [SFmag] in *. split; [lia|reflexivity].
  - destruct sx; [discriminate|]. pose proof (SFmag_pos _ _ _ Vx).
    cbn [SFleb SFcompare]. cbn [SFmag] in *. split; [discriminate|lia].
  - destruct sx; [discriminate|]. destruct sy; [discriminate|].
    rewrite SFleb_finite. apply lex_le_val; assumption.
Qed.

Lemma SFltb_mag (x y : spec_float) :
  SFvalid x -> SFvalid y -> SFnonneg x = true -> SFnonneg y = true ->
  (SFltb x y = true <-> SFmag x < SFmag y).
Proof.
  intros Vx Vy Nx Ny.
  destruct x as [sx|sx| |sx mx ex]; try discriminate;
    destruct y as [sy|sy| |sy my ey]; try discriminate.
  - cbn. split; [discriminate|lia].
  - destruct sy; [discriminate|]. pose proof (SFmag_pos _ _ _ Vy).
    cbn [SFltb SFcompare]. cbn [SFmag] in *. split; [lia|reflexivity].
  - destruct sx; [discriminate|]. pose proof (SFmag_pos _ _ _ Vx).
    cbn [SFltb SFcompare]. cbn [SFmag] in *. split; [discriminate|lia].
  - destruct sx; [discriminate|]. destruct sy; [discriminate|].
    rewrite SFltb_finite.
    pose proof (lex_le_val my mx ey ex Vy Vx) as H. cbn [SFmag].
    unfold val in H. rewrite H. lia.
Qed.

(** A number between zero and a finite number is finite and not
    negative. *)
Lemma SFnonneg_between (z x h : spec_float) :
  SFfinite z = true -> SFnonneg z = true -> SFfinite h = true ->
  SFleb z x = true -> SFleb x h = true \/ SFltb x h = true ->
  SFnonneg x = true.
Proof.
  intros Fz Nz Fh Hz Hh.
  destruct x as [sx|sx| |sx mx ex]; try reflexivity.
  - destruct z as [?|?| |[|] ? ?], sx; try discriminate;
      destruct h as [?|?| |[|] ? ?]; try discriminate;
      destruct Hh; discriminate.
  - destruct z as [?|?| |[|] ? ?]; try discriminate.
  - destruct sx; [|reflexivity].
    destruct z as [?|?| |[|] ? ?]; try discriminate.
Qed.

Lemma product_aligned (mx my : positive) (ex ey : Z) :
  bounded prec emax mx ex = true -> bounded prec emax my ey = true ->
  ex + ey <= Z.max (Zpos (digits2_pos (mx * my)) + (ex + ey) - 53) (-1074).
Proof.
  intros Hx Hy. apply bounded_spec in Hx, Hy.
  destruct (digits2_bounds mx) as [Lx _], (digits2_bounds my) as [Ly _].
  destruct (Z.eq_dec (Zpos (digits2_pos mx)) 53) as [Dx|Dx].
  - rewrite Dx in Lx. change (2 ^ (53 - 1)) with (2 ^ 52) in Lx.
    assert (52 < Zpos (digits2_pos (mx * my))); [|lia].
    apply digits2_gt. rewrite Pos2Z.inj_mul. nia.
  - destruct (Z.eq_dec (Zpos (digits2_pos my)) 53) as [Dy|Dy].
    + rewrite Dy in Ly. change (2 ^ (53 - 1)) with (2 ^ 52) in Ly.
      assert (52 < Zpos (digits2_pos (mx * my))); [|lia].
      apply digits2_gt. rewrite Pos2Z.inj_mul. nia.
    + lia.
Qed.

Lemma product_value (mx my : positive) (ex ey : Z) :
  -1074 <= ex -> -1074 <= ey ->
  Zpos (mx * my) * 2 ^ (ex + ey + 2148)
  = (Zpos mx * 2 ^ (ex + 1074)) * (Zpos my * 2 ^ (ey + 1074)).
Proof.
  intros Hx Hy. replace (ex + ey + 2148) with ((ex + 1074) + (ey + 1074)) by lia.
  rewrite (pow2_split (ex + 1074) (ey + 1074)) by lia.
  rewrite Pos2Z.inj_mul. ring.
Qed.

Lemma SFmul_valid (x y : spec_float) :
  SFvalid x -> SFvalid y -> SFvalid (SFmul prec emax x y).
Proof.
  intros Vx Vy.
  destruct x as [sx|sx| |sx mx ex], y as [sy|sy| |sy my ey]; try reflexivity.
  cbn [SFmul]. apply binary_round_aux_valid.
  apply product_aligned; assumption.
Qed.

(** A product bounded by a representable number rounds to at most that
    number. *)
Lemma SFmul_upper (x y hi : spec_float) :
  SFvalid x -> SFvalid y -> SFvalid hi ->
  SFfinite x = true -> SFfinite y = true -> SFfinite hi = true ->
  SFmag x * SFmag y <= SFmag hi * 2 ^ 1074 ->
  SFfinite (SFmul prec emax x y) = true
  /\ SFmag (SFmul prec emax x y) <= SFmag hi
  /\ (SFnonneg x = true -> SFnonneg y = true ->
      SFnonneg (SFmul prec emax x y) = true).
Proof.
  intros Vx Vy Vh Fx Fy Fh Hle.
  pose proof (SFmag_nonneg hi Vh) as Hh0.
  destruct x as [sx|sx| |sx mx ex]; try discriminate;
    destruct y as [sy|sy| |sy my ey]; try discriminate;
    try (cbn [SFmul SFfinite SFmag SFnonneg]; repeat split; try lia;
         destruct sx, sy; intros; try discriminate; reflexivity).
  pose proof (SFmag_pos _ _ _ Vx) as Px. pose proof (SFmag_pos _ _ _ Vy) as Py.
  pose proof (SFvalid_exponent _ _ _ Vx) as Ex.
  pose proof (SFvalid_exponent _ _ _ Vy) as Ey.
  destruct hi as [sh|sh| |sh mh eh]; try discriminate.
  { cbn [SFmag] in *. nia. }
  pose proof (SFvalid_exponent _ _ _ Vh) as Eh.
  pose proof (SFmul_valid _ _ Vx Vy) as Vr.
  cbn [SFmul] in *. cbn [SFmag] in Hle, Px, Py.
  assert (Zpos (mx * my) * 2 ^ (ex + ey + 2148) <= Zpos mh * 2 ^ (eh + 2148))
    as Hv.
  { rewrite product_value by lia.
    replace (eh + 2148) with ((eh + 1074) + 1074) by lia.
    rewrite (pow2_split (eh + 1074) 1074) by lia. lia. }
  pose proof (rounded_upper (xorb sx sy) (mx * my) mh (ex + ey) eh
                ltac:(lia) (product_aligned _ _ _ _ Vx Vy) Vh Hv) as Hup.
  destruct (binary_round_aux prec emax (xorb sx sy) (Zpos (mx * my)) (ex + ey)
              loc_Exact) as [s|s| |s m' e']; try contradiction.
  - cbn [SFfinite SFmag SFnonneg]. repeat split. lia.
  - destruct Hup as [Hs Hlex].
    cbn [SFfinite SFmag SFnonneg]. split; [reflexivity|]. split.
    + apply (lex_le_val m' mh e' eh Vr Vh). exact Hlex.
    + intros Nx Ny. destruct sx; [discriminate|]. destruct sy; [discriminate|].
      subst s. reflexivity.
Qed.

(** A product with a factor at most [1 - 2^-53] is strictly below the
    other factor when that one is normal. *)
Lemma SFmul_strict (x w : spec_float) :
  SFvalid x -> SFvalid w ->
  SFfinite x = true -> SFfinite w = true ->
  2 ^ 53 <= SFmag w ->
  SFmag x * 2 ^ 53 <= (2 ^ 53 - 1) * 2 ^ 1074 ->
  SFfinite (SFmul prec emax x w) = true
  /\ SFmag (SFmul prec emax x w) < SFmag w.
Proof.
  intros Vx Vw Fx Fw Hnorm Hle.
  destruct w as [sw|sw| |sw mw ew]; try discriminate.
  { cbn [SFmag] in Hnorm. change (2 ^ 53) with 9007199254740992 in Hnorm. lia. }
  pose proof (SFmag_pos _ _ _ Vw) as Pw.
  pose proof (SFvalid_exponent _ _ _ Vw) as Ew.
  destruct x as [sx|sx| |sx mx ex]; try discriminate.
  { cbn [SFmul SFfinite]. split; [reflexivity|]. exact Pw. }
  pose proof (SFmag_pos _ _ _ Vx) as Px.
  pose proof (SFvalid_exponent _ _ _ Vx) as Ex.
  pose proof (SFmul_valid _ _ Vx Vw) as Vr.
  cbn [SFmul] in *. cbn [SFmag] in Hle, Px, Pw, Hnorm |- *.
  (* the bound is normal *)
  assert (-1073 <= ew) as Hn.
  { destruct (Z_le_gt_dec (-1073) ew) as [|Hc]; [assumption|exfalso].
    assert (ew = -1074) as -> by lia. change (2 ^ (-1074 + 1074)) with 1 in Hnorm.
    apply bounded_spec in Vw. destruct Vw as [Cw _].
    destruct (digits2_bounds mw) as [_ Uw].
    assert (2 ^ Zpos (digits2_pos mw) <= 2 ^ 53)
      by (apply Z.pow_le_mono_r; lia).
    lia. }
  assert (Zpos (mx * mw) * 2 ^ (ex + ew + 2148) * 2 ^ 53
          <= Zpos mw * 2 ^ (ew + 2148) * (2 ^ 53 - 1)) as Hv.
  { rewrite product_value by lia.
    replace (ew + 2148) with ((ew + 1074) + 1074) by lia.
    rewrite (pow2_split (ew + 1074) 1074) by lia.
    rewrite (Z.mul_assoc (Zpos mw)).
    set (A := Zpos mx * 2 ^ (ex + 1074)) in *.
    set (B := Zpos mw * 2 ^ (ew + 1074)) in *.
    set (c := 2 ^ 53) in *. set (u := 2 ^ 1074) in *.
    replace (A * B * c) with (B * (A * c)) by ring.
    replace (B * u * (c - 1)) with (B * ((c - 1) * u)) by ring.
    apply Z.mul_le_mono_nonneg_l; lia. }
  pose proof (rounded_strict (xorb sx sw) (mx * mw) mw (ex + ew) ew
                ltac:(lia) (product_aligned _ _ _ _ Vx Vw) Vw Hn Hv) as Hup.
  destruct (binary_round_aux prec emax (xorb sx sw) (Zpos (mx * mw)) (ex + ew)
              loc_Exact) as [s|s| |s m' e']; try contradiction.
  - cbn [SFfinite SFmag]. split; [reflexivity|lia].
  - destruct Hup as [Hs Hlex].
    cbn [SFfinite SFmag]. split; [reflexivity|].
    pose proof (lex_le_val mw m' ew e' Vw Vr) as Hiff. unfold val in Hiff.
    destruct (Z_lt_le_dec (Zpos m' * 2 ^ (e' + 1074)) (Zpos mw * 2 ^ (ew + 1074)))
      as [|Hge]; [assumption|].
    exfalso. apply Hlex, Hiff. exact Hge.
Qed.

Lemma SFadd_finite_pos (mx my : positive) (ex ey : Z) :
  -1074 <= ex -> -1074 <= ey ->
  exists S : positive,
    SFadd prec emax (S754_finite false mx ex) (S754_finite false my ey)
    = binary_round prec emax false S (Z.min ex ey)
    /\ Zpos S * 2 ^ (Z.min ex ey + 1074)
       = Zpos mx * 2 ^ (ex + 1074) + Zpos my * 2 ^ (ey + 1074).
Proof.
  intros Hx Hy. cbn [SFadd cond_Zopp].
  destruct (shl_align_spec mx ex (Z.min ex ey)) as (_ & Vx & _).
  destruct (shl_align_spec my ey (Z.min ex ey)) as (_ & Vy & _).
  set (m1 := fst (shl_align mx ex (Z.min ex ey))) in *.
  set (m2 := fst (shl_align my ey (Z.min ex ey))) in *.
  exists (m1 + m2)%positive. split; [reflexivity|].
  rewrite Pos2Z.inj_add, Vx, Vy.
  replace (Z.min ex (Z.min ex ey)) with (Z.min ex ey) by lia.
  replace (Z.min ey (Z.min ex ey)) with (Z.min ex ey) by lia.
  rewrite Z.mul_add_distr_r, <- !Z.mul_assoc.
  rewrite <- (pow2_split (ex - Z.min ex ey) (Z.min ex ey + 1074)) by lia.
  rewrite <- (pow2_split (ey - Z.min ex ey) (Z.min ex ey + 1074)) by lia.
  do 2 f_equal; f_equal; lia.
Qed.

(** A sum of non-negative numbers enclosed by representable numbers
    rounds within them. *)
Lemma SFadd_between (x y lo hi : spec_float) :
  SFvalid x -> SFvalid y -> SFvalid lo -> SFvalid hi ->
  SFnonneg x = true -> SFnonneg y = true ->
  SFfinite lo = true -> SFfinite hi = true ->
  0 < SFmag lo ->
  SFmag lo <= SFmag x + SFmag y <= SFmag hi ->
  SFnonneg (SFadd prec emax x y) = true
  /\ SFvalid (SFadd prec emax x y)
  /\ SFmag lo <= SFmag (SFadd prec emax x y) <= SFmag hi.
Proof.
  intros Vx Vy Vl Vh Nx Ny Fl Fh Hlo Hb.
  destruct x as [sx|sx| |sx mx ex]; try discriminate;
    destruct y as [sy|sy| |sy my ey]; try discriminate.
  - cbn [SFmag] in Hb. lia.
  - cbn [SFadd]. cbn [SFmag] in Hb |- *. repeat split; try assumption; lia.
  - cbn [SFadd]. cbn [SFmag] in Hb |- *. repeat split; try assumption; lia.
  - destruct sx; [discriminate|]. destruct sy; [discriminate|].
    pose proof (SFvalid_exponent _ _ _ Vx) as Ex.
    pose proof (SFvalid_exponent _ _ _ Vy) as Ey.
    destruct (SFadd_finite_pos mx my ex ey ltac:(lia) ltac:(lia)) as (S & -> & HS).
    destruct (binary_round_aligned false S (Z.min ex ey) ltac:(lia))
      as (p & e0 & -> & He0 & Hn & Hv).
    cbn [SFmag] in Hb.
    assert (Zpos p * 2 ^ (e0 + 2148)
            = (Zpos mx * 2 ^ (ex + 1074) + Zpos my * 2 ^ (ey + 1074)) * 2 ^ 1074)
      as Hval.
    { rewrite Hv, <- HS.
      replace (Z.min ex ey + 2148) with ((Z.min ex ey + 1074) + 1074) by lia.
      rewrite (pow2_split (Z.min ex ey + 1074) 1074) by lia. ring. }
    pose proof (binary_round_aux_valid false p e0 Hn) as Vr.
    destruct lo as [sl|sl| |sl ml el]; try discriminate.
    destruct hi as [sh|sh| |sh mh eh]; try discriminate.
    { cbn [SFmag] in Hb. pose proof (SFmag_pos _ _ _ Vx).
      pose proof (SFmag_pos _ _ _ Vy). cbn [SFmag] in *. lia. }
    pose proof (SFvalid_exponent _ _ _ Vl) as El.
    pose proof (SFvalid_exponent _ _ _ Vh) as Eh.
    cbn [SFmag] in Hb.
    assert (Zpos p * 2 ^ (e0 + 2148) <= Zpos mh * 2 ^ (eh + 2148)) as Hup.
    { rewrite Hval. replace (eh + 2148) with ((eh + 1074) + 1074) by lia.
      rewrite (pow2_split (eh + 1074) 1074) by lia.
      rewrite (Z.mul_assoc (Zpos mh)).
      apply Z.mul_le_mono_nonneg_r; [apply Z.pow_nonneg|]; lia. }
    assert (Zpos ml * 2 ^ (el + 2148) <= Zpos p * 2 ^ (e0 + 2148)) as Hdn.
    { rewrite Hval. replace (el + 2148) with ((el + 1074) + 1074) by lia.
      rewrite (pow2_split (el + 1074) 1074) by lia.
      rewrite (Z.mul_assoc (Zpos ml)).
      apply Z.mul_le_mono_nonneg_r; [apply Z.pow_nonneg|]; lia. }
    pose proof (rounded_upper false p mh e0 eh He0 Hn Vh Hup) as Hu.
    pose proof (rounded_lower false p ml e0 el He0 Hn Vl Hdn) as Hl.
    destruct (binary_round_aux prec emax false (Zpos p) e0 loc_Exact)
      as [s|s| |s m' e']; try contradiction.
    destruct Hu as [-> Hu].
    cbn [SFnonneg SFmag]. split; [reflexivity|]. split; [exact Vr|]. split.
    + apply (lex_le_val ml m' el e' Vl Vr). exact Hl.
    + apply (lex_le_val m' mh e' eh Vr Vh). exact Hu.
Qed.

(** ** Quotients *)

Lemma shr_1_m (mrs : shr_record) :
  0 <= shr_m mrs -> shr_m (shr_1 mrs) = shr_m mrs / 2.
Proof.
  destruct mrs as [m r s]. cbn [shr_m]. intro Hm.
  destruct m as [|q|q]; [reflexivity| |lia].
  destruct q as [q|q|]; cbn [shr_1 shr_m].
  - rewrite Pos2Z.inj_xI. apply Z.div_unique with 1; lia.
  - rewrite Pos2Z.inj_xO. apply Z.div_unique with 0; lia.
  - reflexivity.
Qed.

Lemma iter_pos_shr_m (n : positive) :
  forall mrs, 0 <= shr_m mrs ->
              shr_m (iter_pos shr_1 n mrs) = shr_m mrs / 2 ^ Zpos n.
Proof.
  induction n as [n IH|n IH|]; intros mrs Hm; cbn [iter_pos].
  - pose proof (pow2_pos (Zpos n) ltac:(lia)) as Hp.
    assert (0 <= shr_m mrs / 2) as H1 by (apply Z.div_pos; lia).
    assert (0 <= shr_m mrs / 2 / 2 ^ Zpos n) as H2 by (apply Z.div_pos; lia).
    assert (0 <= shr_m (shr_1 mrs)) as H3 by (rewrite shr_1_m; assumption).
    assert (0 <= shr_m (iter_pos shr_1 n (shr_1 mrs))) as H4
      by (rewrite IH, shr_1_m; assumption).
    rewrite (IH _ H4), (IH _ H3), shr_1_m by assumption.
    rewrite !Z.div_div by lia.
    f_equal.
    replace (Zpos n~1) with (1 + Zpos n + Zpos n) by lia.
    rewrite !pow2_split by lia. change (2 ^ 1) with 2. ring.
  - pose proof (pow2_pos (Zpos n) ltac:(lia)) as Hp.
    assert (0 <= shr_m mrs / 2 ^ Zpos n) as H2 by (apply Z.div_pos; lia).
    assert (0 <= shr_m (iter_pos shr_1 n mrs)) as H4
      by (rewrite IH; assumption).
    rewrite (IH _ H4), (IH _ Hm).
    rewrite !Z.div_div by lia.
    f_equal.
    replace (Zpos n~0) with (Zpos n + Zpos n) by lia.
    rewrite !pow2_split by lia. ring.
  - rewrite shr_1_m by assumption. reflexivity.
Qed.

Lemma round_nearest_even_bounds (m : Z) (l : location) :
  m <= round_nearest_even m l <= m + 1.
Proof.
  destruct l as [|[| |]]; cbn [round_nearest_even]; try lia.
  destruct (Z.even m); lia.
Qed.

Lemma Zdigits2_spec (M : Z) : 0 <= M -> M < 2 ^ Zdigits2 M.
Proof.
  destruct M as [|p|p]; cbn [Zdigits2]; intro H; [reflexivity| |lia].
  apply digits2_bounds.
Qed.

Lemma Zdigits2_le (M k : Z) : 0 <= M -> 0 <= k -> M < 2 ^ k -> Zdigits2 M <= k.
Proof.
  destruct M as [|p|p]; cbn [Zdigits2]; intros H Hk Hlt; [assumption| |lia].
  apply digits2_le; assumption.
Qed.

(** Rounding a non-negative integer at any location is finite when its
    exponent leaves room for a carry. *)
Lemma binary_round_aux_finite (sx : bool) (M e : Z) (l : location) :
  0 <= M ->
  Z.max e (Z.max (Zdigits2 M + e - 53) (-1074)) + 1 <= 971 ->
  binary_round_aux prec emax sx M e l = S754_zero sx
  \/ exists m' e', binary_round_aux prec emax sx M e l = S754_finite sx m' e'.
Proof.
  intros HM Hroom. unfold binary_round_aux.
  set (ef := Z.max e (Z.max (Zdigits2 M + e - 53) (-1074))) in *.
  assert (exists mrs, shr_fexp prec emax M e l = (mrs, ef)
                      /\ shr_m mrs = M / 2 ^ (ef - e)) as (mrs & E & Hm).
  { unfold shr_fexp, shr. rewrite fexp64. fold ef.
    destruct (Z.max (Zdigits2 M + e - 53) (-1074) - e) as [|n|n] eqn:En.
    - eexists. split; [f_equal; lia|].
      replace (ef - e) with 0 by lia. rewrite Z.pow_0_r, Z.div_1_r.
      destruct l as [|[| |]]; reflexivity.
    - eexists. split; [f_equal; lia|].
      rewrite iter_pos_shr_m by (destruct l as [|[| |]]; exact HM).
      replace (ef - e) with (Zpos n) by lia.
      destruct l as [|[| |]]; reflexivity.
    - eexists. split; [f_equal; lia|].
      replace (ef - e) with 0 by lia. rewrite Z.pow_0_r, Z.div_1_r.
      destruct l as [|[| |]]; reflexivity. }
  rewrite E.
  assert (0 < 2 ^ (ef - e)) as Hpow by (apply pow2_pos; lia).
  assert (0 <= M / 2 ^ (ef - e)) as Hq by (apply Z.div_pos; lia).
  assert (M / 2 ^ (ef - e) < 2 ^ 53) as Hq53.
  { pose proof (Zdigits2_spec M HM) as Hd. pose proof (Zdigits2_nonneg M).
    apply Z.div_lt_upper_bound; [lia|].
    rewrite <- pow2_split by lia.
    eapply Z.lt_le_trans; [exact Hd|]. apply Z.pow_le_mono_r; lia. }
  pose proof (round_nearest_even_bounds (shr_m mrs) (loc_of_shr_record mrs))
    as Hb.
  set (M2 := round_nearest_even (shr_m mrs) (loc_of_shr_record mrs)) in *.
  rewrite Hm in Hb.
  destruct (shr_fexp_exact M2 ef ltac:(lia)) as (mrs2 & E2 & Hh2).
  rewrite E2. rewrite fexp64 in *. destruct Hh2 as (Hm2 & _ & _).
  assert (Zdigits2 M2 <= 54) as Hd2.
  { apply Zdigits2_le; lia. }
  pose proof (Zdigits2_nonneg M2).
  set (e2 := Z.max ef (Z.max (Zdigits2 M2 + ef - 53) (-1074))) in *.
  assert (0 <= shr_m mrs2) as Hpos.
  { rewrite Hm2. apply Z.div_pos; [lia|]. apply pow2_pos. lia. }
  destruct (shr_m mrs2) as [|m'|m']; [left; reflexivity| |lia].
  right. replace (e2 <=? emax - prec) with true.
  - eexists _, _. reflexivity.
  - symmetry. apply Z.leb_le. change (emax - prec) with 971. lia.
Qed.

Lemma SFdiv_finite (x y : spec_float) (ka kb : Z) :
  SFvalid x -> SFvalid y -> SFfinite x = true -> SFfinite y = true ->
  0 <= ka -> 0 <= kb -> ka - kb <= 1023 ->
  SFmag x < 2 ^ ka -> 2 ^ kb <= SFmag y ->
  SFfinite (SFdiv prec emax x y) = true
  /\ (SFnonneg x = true -> SFnonneg y = true ->
      SFnonneg (SFdiv prec emax x y) = true).
Proof.
  intros Vx Vy Fx Fy Hka Hkb Hk Hx Hy.
  destruct y as [sy|sy| |sy my ey]; try discriminate.
  { cbn [SFmag] in Hy. pose proof (pow2_pos kb Hkb). lia. }
  destruct x as [sx|sx| |sx mx ex]; try discriminate.
  { cbn [SFdiv SFfinite SFnonneg]. split; [reflexivity|].
    destruct sy; intros; try discriminate; reflexivity. }
  pose proof (SFvalid_exponent _ _ _ Vx) as Ex.
  pose proof (SFvalid_exponent _ _ _ Vy) as Ey.
  cbn [SFmag] in Hx, Hy.
  destruct (digits2_bounds mx) as [Lx Ux], (digits2_bounds my) as [Ly Uy].
  set (d1 := Zpos (digits2_pos mx)) in *.
  set (d2 := Zpos (digits2_pos my)) in *.
  assert (0 < d1) as Hd1 by (subst d1; lia).
  assert (0 < d2) as Hd2 by (subst d2; lia).
  (* the exponents of the operands *)
  assert (d1 + ex + 1073 < ka) as Hxa.
  { apply (Z.pow_lt_mono_r_iff 2); [lia|lia|].
    eapply Z.le_lt_trans; [|exact Hx].
    replace (d1 + ex + 1073) with ((d1 - 1) + (ex + 1074)) by lia.
    rewrite (pow2_split (d1 - 1) (ex + 1074)) by lia.
    apply Z.mul_le_mono_nonneg_r; [apply Z.pow_nonneg; lia|exact Lx]. }
  assert (kb < d2 + ey + 1074) as Hyb.
  { apply (Z.pow_lt_mono_r_iff 2); [lia|lia|].
    eapply Z.le_lt_trans; [exact Hy|].
    replace (d2 + ey + 1074) with (d2 + (ey + 1074)) by lia.
    rewrite (pow2_split d2 (ey + 1074)) by lia.
    apply Z.mul_lt_mono_pos_r; [apply pow2_pos; lia|exact Uy]. }
  cbn [SFdiv]. unfold SFdiv_core_binary. cbn [Zdigits2]. fold d1 d2.
  rewrite fexp64.
  set (e' := Z.min (Z.max (d1 + ex - (d2 + ey) - 53) (-1074)) (ex - ey)).
  set (s := ex - ey - e').
  assert (0 <= s) as Hs by (subst s e'; lia).
  set (m' := match s with
             | 0 => Zpos mx
             | Zpos _ => Z.shiftl (Zpos mx) s
             | Zneg _ => 0
             end).
  assert (m' = Zpos mx * 2 ^ s) as Em'.
  { subst m'. destruct s as [|n|n] eqn:Es; [| |lia].
    - rewrite Z.pow_0_r. lia.
    - apply Z.shiftl_mul_pow2. lia. }
  pose proof (pow2_pos s Hs) as Hps.
  destruct (Z.div_eucl m' (Zpos my)) as [q r] eqn:Eqr.
  assert (q = m' / Zpos my) as Eq by (unfold Z.div; rewrite Eqr; reflexivity).
  assert (0 <= q) as Hq by (rewrite Eq; apply Z.div_pos; lia).
  assert (Zdigits2 q + e' - 53
          <= Z.max (d1 + ex - (d2 + ey) + 1 - 53) (-1074)) as Hdq.
  { destruct (Z.eq_dec q 0) as [->|Nq].
    - cbn [Zdigits2]. subst e'. lia.
    - assert (Zpos my <= m') as Hge.
      { destruct (Z_le_gt_dec (Zpos my) m') as [|Hc]; [assumption|exfalso].
        rewrite Z.div_small in Eq by lia. lia. }
      assert (m' < 2 ^ (d1 + s)) as Hm'.
      { rewrite Em', (pow2_split d1 s) by lia.
        apply Z.mul_lt_mono_pos_r; assumption. }
      assert (d2 - 1 < d1 + s) as Hdd.
      { apply (Z.pow_lt_mono_r_iff 2); lia. }
      assert (Zdigits2 q <= d1 + s - d2 + 1) as Hdig; [|subst s; lia].
      apply Zdigits2_le; [assumption|lia|].
      set (K := d1 + s - d2 + 1) in *.
      rewrite Eq. apply Z.div_lt_upper_bound; [lia|].
      eapply Z.lt_le_trans; [exact Hm'|].
      replace (d1 + s) with ((d2 - 1) + K) by (subst K; lia).
      rewrite (pow2_split (d2 - 1) K) by lia.
      apply Z.mul_le_mono_nonneg_r; [apply Z.pow_nonneg; lia|exact Ly]. }
  destruct (binary_round_aux_finite (xorb sx sy) q e' (new_location (Zpos my) r)
              Hq) as [->|(m1 & e1 & ->)].
  - subst e'. lia.
  - cbn [SFfinite SFnonneg]. split; [reflexivity|].
    destruct sx, sy; intros; try discriminate; reflexivity.
  - cbn [SFfinite SFnonneg]. split; [reflexivity|].
    destruct sx, sy; intros; try discriminate; reflexivity.
Qed.

(** ** Integers *)

Lemma binary_round_integer (sx : bool) (m : positive) (hi : spec_float) :
  SFvalid hi -> SFfinite hi = true ->
  Zpos m * 2 ^ 1074 <= SFmag hi ->
  SFvalid (binary_round prec emax sx m 0)
  /\ SFfinite (binary_round prec emax sx m 0) = true
  /\ SFmag (binary_round prec emax sx m 0) <= SFmag hi
  /\ (sx = false -> SFnonneg (binary_round prec emax sx m 0) = true).
Proof.
  intros Vh Fh Hle.
  destruct (binary_round_aligned sx m 0 ltac:(lia))
    as (p & e0 & -> & He0 & Hn & Hv).
  pose proof (binary_round_aux_valid sx p e0 Hn) as Vr.
  split; [exact Vr|].
  destruct hi as [sh|sh| |sh mh eh]; try discriminate.
  { cbn [SFmag] in Hle. lia. }
  pose proof (SFvalid_exponent _ _ _ Vh) as Eh.
  cbn [SFmag] in Hle.
  assert (Zpos p * 2 ^ (e0 + 2148) <= Zpos mh * 2 ^ (eh + 2148)) as Hup.
  { rewrite Hv. replace (eh + 2148) with ((eh + 1074) + 1074) by lia.
    rewrite (pow2_split (eh + 1074) 1074) by lia.
    change (0 + 2148) with (1074 + 1074).
    rewrite (pow2_split 1074 1074) by lia.
    rewrite !Z.mul_assoc.
    apply Z.mul_le_mono_nonneg_r; [apply Z.pow_nonneg|]; lia. }
  pose proof (rounded_upper sx p mh e0 eh He0 Hn Vh Hup) as Hu.
  destruct (binary_round_aux prec emax sx (Zpos p) e0 loc_Exact)
    as [s|s| |s m' e']; try contradiction.
  - cbn [SFfinite SFnonneg SFmag]. repeat split. lia.
  - destruct Hu as [-> Hu]. cbn [SFfinite SFnonneg SFmag].
    split; [reflexivity|]. split.
    + apply (lex_le_val m' mh e' eh Vr Vh). exact Hu.
    + intros ->. reflexivity.
Qed.

(** The double nearest to an integer bounded by a representable
    number. *)
Lemma binary_normalize_integer (z : Z) (hi : spec_float) :
  SFvalid hi -> SFfinite hi = true ->
  Z.abs z * 2 ^ 1074 <= SFmag hi ->
  SFvalid (binary_normalize prec emax z 0 false)
  /\ SFfinite (binary_normalize prec emax z 0 false) = true
  /\ SFmag (binary_normalize prec emax z 0 false) <= SFmag hi
  /\ (0 <= z -> SFnonneg (binary_normalize prec emax z 0 false) = true).
Proof.
  intros Vh Fh Hle.
  destruct z as [|m|m]; cbn [binary_normalize].
  - cbn [SFfinite SFnonneg SFmag]. repeat split.
    apply SFmag_nonneg. exact Vh.
  - destruct (binary_round_integer false m hi Vh Fh Hle) as (H1 & H2 & H3 & H4).
    repeat split; auto.
  - destruct (binary_round_integer true m hi Vh Fh Hle) as (H1 & H2 & H3 & _).
    repeat split; auto; lia.
Qed.

(** ** Absolute value, commutation *)

Lemma SFabs_binary_round_aux (sx : bool) (M e : Z) (l : location) :
  SFabs (binary_round_aux prec emax sx M e l)
  = binary_round_aux prec emax false M e l.
Proof.
  unfold binary_round_aux.
  destruct (shr_fexp prec emax M e l) as [mrs1 e1].
  destruct (shr_fexp prec emax _ e1 loc_Exact) as [mrs2 e2].
  destruct (shr_m mrs2); try reflexivity.
  destruct (e2 <=? emax - prec); reflexivity.
Qed.

Lemma SFabs_mul (x y : spec_float) :
  SFabs (SFmul prec emax x y) = SFmul prec emax (SFabs x) (SFabs y).
Proof.
  destruct x as [sx|sx| |sx mx ex], y as [sy|sy| |sy my ey]; try reflexivity.
  cbn [SFmul SFabs xorb]. apply SFabs_binary_round_aux.
Qed.

Lemma SFmul_comm (x y : spec_float) :
  SFmul prec emax x y = SFmul prec emax y x.
Proof.
  destruct x as [sx|sx| |sx mx ex], y as [sy|sy| |sy my ey]; cbn [SFmul];
    try rewrite (xorb_comm sx sy); try reflexivity.
  rewrite (Pos.mul_comm mx my), (Z.add_comm ex ey). reflexivity.
Qed.

(** A valid number below one is at most [1 - 2^-53]. *)
Lemma SFmag_below_one (x : spec_float) :
  SFvalid x -> SFmag x < 2 ^ 1074 -> SFmag x * 2 ^ 53 <= (2 ^ 53 - 1) * 2 ^ 1074.
Proof.
  intros Vx Hlt. destruct x as [s|s| |s m e]; cbn [SFmag] in *; try lia.
  pose proof (SFvalid_exponent _ _ _ Vx) as He.
  apply bounded_spec in Vx. destruct Vx as [Cx _].
  destruct (digits2_bounds m) as [Lm Um].
  assert (e <= -53) as He53.
  { destruct (Z_le_gt_dec e (-53)) as [|Hc]; [assumption|exfalso].
    assert (Zpos (digits2_pos m) = 53) as D by lia.
    rewrite D in Lm. change (2 ^ (53 - 1)) with (2 ^ 52) in Lm.
    assert (2 ^ 1022 <= 2 ^ (e + 1074)) by (apply Z.pow_le_mono_r; lia).
    assert (2 ^ 1074 = 2 ^ 52 * 2 ^ 1022) as E by reflexivity.
    assert (0 < 2 ^ 52) by reflexivity.
    assert (0 < 2 ^ 1022) by reflexivity.
    rewrite E in Hlt.
    assert (2 ^ 52 * 2 ^ 1022 <= Zpos m * 2 ^ (e + 1074)); [|lia].
    apply Z.mul_le_mono_nonneg; lia. }
  assert (Zpos m <= 2 ^ 53 - 1) as Hm.
  { assert (2 ^ Zpos (digits2_pos m) <= 2 ^ 53)
      by (apply Z.pow_le_mono_r; lia). lia. }
  assert (2 ^ (e + 1074) <= 2 ^ 1021) as Hp by (apply Z.pow_le_mono_r; lia).
  assert (2 ^ 1074 = 2 ^ 1021 * 2 ^ 53) as E by reflexivity.
  rewrite E.
  pose proof (pow2_pos (e + 1074) ltac:(lia)).
  assert (0 < 2 ^ 53) by reflexivity.
  assert (Zpos m * 2 ^ (e + 1074) <= (2 ^ 53 - 1) * 2 ^ 1021);
    [apply Z.mul_le_mono_nonneg; lia|].
  set (A := Zpos m * 2 ^ (e + 1074)) in *.
  set (c := 2 ^ 53) in *. set (u := 2 ^ 1021) in *. nia.
Qed.

(** A product bounded from below by a representable number. *)
Lemma SFmul_lower (x y lo : spec_float) :
  SFvalid x -> SFvalid y -> SFvalid lo ->
  SFfinite x = true -> SFfinite y = true -> SFfinite lo = true ->
  0 < SFmag lo ->
  SFmag lo * 2 ^ 1074 <= SFmag x * SFmag y ->
  SFfinite (SFmul prec emax x y) = true ->
  SFmag lo <= SFmag (SFmul prec emax x y).
Proof.
  intros Vx Vy Vl Fx Fy Fl Hlo Hle Ffin.
  destruct lo as [sl|sl| |sl ml el]; try discriminate.
  pose proof (SFvalid_exponent _ _ _ Vl) as El.
  pose proof (pow2_pos 1074 ltac:(lia)) as Hu.
  destruct x as [sx|sx| |sx mx ex]; try discriminate;
    destruct y as [sy|sy| |sy my ey]; try discriminate;
    try (cbn [SFmag] in Hle; exfalso; nia).
  pose proof (SFvalid_exponent _ _ _ Vx) as Ex.
  pose proof (SFvalid_exponent _ _ _ Vy) as Ey.
  pose proof (SFmul_valid _ _ Vx Vy) as Vr.
  cbn [SFmul] in *. cbn [SFmag] in Hle, Hlo.
  assert (Zpos ml * 2 ^ (el + 2148) <= Zpos (mx * my) * 2 ^ (ex + ey + 2148))
    as Hv.
  { rewrite product_value by lia.
    replace (el + 2148) with ((el + 1074) + 1074) by lia.
    rewrite (pow2_split (el + 1074) 1074) by lia. lia. }
  pose proof (rounded_lower (xorb sx sy) (mx * my) ml (ex + ey) el
                ltac:(lia) (product_aligned _ _ _ _ Vx Vy) Vl Hv) as Hdn.
  destruct (binary_round_aux prec emax (xorb sx sy) (Zpos (mx * my)) (ex + ey)
              loc_Exact) as [s|s| |s m' e']; try contradiction; try discriminate.
  cbn [SFmag]. apply (lex_le_val ml m' el e' Vl Vr). exact Hdn.
Qed.

(** ** Primitive floats *)

Lemma float_valid (v : float) : SFvalid (Prim2SF v).
Proof. apply FloatAxioms.Prim2SF_valid. Qed.

Lemma nonneg_finite (v : float) : nonneg v = true -> finite v = true.
Proof.
  unfold nonneg, finite. destruct (Prim2SF v) as [s|s| |s m e]; auto.
Qed.

Lemma mag_nonneg (v : float) : 0 <= mag v.
Proof. apply SFmag_nonneg, float_valid. Qed.

Lemma leb_mag (a b : float) :
  nonneg a = true -> nonneg b = true ->
  ((a <=? b)%float = true <-> mag a <= mag b).
Proof.
  intros Na Nb. rewrite FloatAxioms.leb_spec.
  apply SFleb_mag; auto using float_valid.
Qed.

Lemma ltb_mag (a b : float) :
  nonneg a = true -> nonneg b = true ->
  ((a <? b)%float = true <-> mag a < mag b).
Proof.
  intros Na Nb. rewrite FloatAxioms.ltb_spec.
  apply SFltb_mag; auto using float_valid.
Qed.

(** A number between zero and a finite number is not negative. *)
Lemma nonneg_leb (z v h : float) :
  nonneg z = true -> finite h = true ->
  (z <=? v)%float = true -> (v <=? h)%float = true -> nonneg v = true.
Proof.
  intros Nz Fh Hz Hh. rewrite FloatAxioms.leb_spec in Hz, Hh.
  apply (SFnonneg_between (Prim2SF z) (Prim2SF v) (Prim2SF h)); auto.
  apply nonneg_finite. exact Nz.
Qed.

Lemma nonneg_ltb (z v h : float) :
  nonneg z = true -> finite h = true ->
  (z <=? v)%float = true -> (v <? h)%float = true -> nonneg v = true.
Proof.
  intros Nz Fh Hz Hh. rewrite FloatAxioms.leb_spec in Hz.
  rewrite FloatAxioms.ltb_spec in Hh.
  apply (SFnonneg_between (Prim2SF z) (Prim2SF v) (Prim2SF h)); auto.
  apply nonneg_finite. exact Nz.
Qed.

Lemma nonneg_of_finite (v : float) :
  (0 <=? v)%float = true -> finite v = true -> nonneg v = true.
Proof.
  unfold finite, nonneg. rewrite FloatAxioms.leb_spec.
  change (Prim2SF 0) with (S754_zero false).
  destruct (Prim2SF v) as [s|s| |[|] m e]; auto.
Qed.

Lemma mul_le (a c hi : float) :
  finite a = true -> finite c = true -> finite hi = true ->
  mag a * mag c <= mag hi * 2 ^ 1074 ->
  finite (a * c) = true
  /\ mag (a * c) <= mag hi
  /\ (nonneg a = true -> nonneg c = true -> nonneg (a * c) = true).
Proof.
  unfold finite, nonneg, mag. rewrite FloatAxioms.mul_spec.
  intros Fa Fc Fh H.
  apply SFmul_upper; auto using float_valid.
Qed.

Lemma mul_ge (a c lo : float) :
  finite a = true -> finite c = true -> finite lo = true ->
  0 < mag lo ->
  mag lo * 2 ^ 1074 <= mag a * mag c ->
  finite (a * c) = true ->
  mag lo <= mag (a * c).
Proof.
  unfold finite, nonneg, mag. rewrite FloatAxioms.mul_spec.
  intros Fa Fc Fl Hl H Ff.
  apply SFmul_lower; auto using float_valid.
Qed.

Lemma mul_lt (r w : float) :
  finite r = true -> finite w = true ->
  2 ^ 53 <= mag w ->
  mag r * 2 ^ 53 <= (2 ^ 53 - 1) * 2 ^ 1074 ->
  finite (r * w) = true /\ mag (r * w) < mag w.
Proof.
  unfold finite, nonneg, mag. rewrite FloatAxioms.mul_spec.
  intros Fr Fw Hn H.
  apply SFmul_strict; auto using float_valid.
Qed.

Lemma add_range (a c lo hi : float) :
  nonneg a = true -> nonneg c = true ->
  finite lo = true -> finite hi = true ->
  0 < mag lo ->
  mag lo <= mag a + mag c <= mag hi ->
  nonneg (a + c) = true /\ mag lo <= mag (a + c) <= mag hi.
Proof.
  unfold finite, nonneg, mag. rewrite FloatAxioms.add_spec.
  intros Na Nc Fl Fh Hl H.
  destruct (SFadd_between (Prim2SF a) (Prim2SF c) (Prim2SF lo) (Prim2SF hi))
    as (H1 & _ & H2); auto using float_valid.
Qed.

Lemma div_finite (a c : float) (ka kb : Z) :
  finite a = true -> finite c = true ->
  0 <= ka -> 0 <= kb -> ka - kb <= 1023 ->
  mag a < 2 ^ ka -> 2 ^ kb <= mag c ->
  finite (a / c) = true.
Proof.
  unfold finite, nonneg, mag. rewrite FloatAxioms.div_spec.
  intros Fa Fc Ha Hb Hk H1 H2.
  apply (SFdiv_finite (Prim2SF a) (Prim2SF c) ka kb); auto using float_valid.
Qed.

Lemma abs_finite (v : float) :
  finite v = true ->
  nonneg (abs v) = true /\ mag (abs v) = mag v.
Proof.
  unfold finite, nonneg, mag. rewrite FloatAxioms.abs_spec.
  destruct (Prim2SF v) as [s|s| |s m e]; try discriminate; auto.
Qed.

(** A number whose absolute value is at most a finite number is finite. *)
Lemma abs_leb_finite (v h : float) :
  finite h = true -> (abs v <=? h)%float = true -> finite v = true.
Proof.
  unfold finite. rewrite FloatAxioms.leb_spec, FloatAxioms.abs_spec.
  destruct (Prim2SF v) as [s|s| |s m e]; try reflexivity;
    destruct (Prim2SF h) as [sh|sh| |sh mh eh]; try discriminate.
Qed.

Lemma abs_mul_comm (s c : float) :
  abs c = c -> abs (s * c) = (c * abs s)%float.
Proof.
  intro Hc. apply FloatAxioms.Prim2SF_inj.
  rewrite FloatAxioms.abs_spec, !FloatAxioms.mul_spec, FloatAxioms.abs_spec.
  unfold FloatAxioms.SF64mul. rewrite SFabs_mul, SFmul_comm.
  rewrite <- (FloatAxioms.abs_spec c), Hc. reflexivity.
Qed.

Lemma random_unit (r : float) :
  (0 <=? r)%float = true -> (r <? 1)%float = true ->
  nonneg r = true /\ finite r = true
  /\ mag r * 2 ^ 53 <= (2 ^ 53 - 1) * 2 ^ 1074.
Proof.
  intros H0 H1.
  assert (nonneg r = true) as Nr
    by (apply (nonneg_ltb 0 r 1); auto).
  split; [exact Nr|]. split; [apply nonneg_finite; exact Nr|].
  apply SFmag_below_one; [apply float_valid|].
  apply (ltb_mag r 1 Nr eq_refl) in H1. exact H1.
Qed.

End Rounding.

(** * The doubles

    The statements that depend on the arithmetic, in the arithmetic the
    script runs on. *)

Section Doubles.

Import PrimFloat Binary64 Rounding.

Variable platform_sin : float -> float.

Local Abbreviation doubles := (Binary64.binary64 platform_sin).

(** Decimal and integer literals of the script, read as doubles. *)
Local Abbreviation literal := (@lit doubles).
Local Abbreviation integer := (@of_int doubles).

Variable random_source : nat -> @num doubles.
Variable clock : nat -> Z.
Variable cfg : @Settings doubles.

(** [Math.random()] returns a double of the interval [0, 1). *)
Hypothesis Math_random_range :
  forall n, (0 <=? random_source n)%float = true
            /\ (random_source n <? 1)%float = true.

(** [Math.sin] returns a double of [-1, 1] on a finite argument. *)
Hypothesis Math_sin_range :
  forall v, finite v = true -> (abs (platform_sin v) <=? 1)%float = true.

(** [Date.now()] returns a time value: an integer number of milliseconds
    of magnitude at most 8.64e15. *)
Hypothesis Date_now_range :
  forall n, (Z.abs (clock n) <= 8640000000000000)%Z.

(** ** The literals of the script *)

Lemma literal_0 : float_of_Z 0 = 0%float.
Proof. vm_compute. reflexivity. Qed.

Lemma literal_1 : float_of_Z 1 = 1%float.
Proof. vm_compute. reflexivity. Qed.

Lemma literal_0_5 : float_lit 5 10 = 0.5%float.
Proof. vm_compute. reflexivity. Qed.

Lemma literal_0_05 : float_lit 5 100 = 0x1.999999999999ap-5%float.
Proof. vm_compute. reflexivity. Qed.

Lemma literal_0_55 : float_lit 55 100 = 0x1.199999999999ap-1%float.
Proof. vm_compute. reflexivity. Qed.

Lemma literal_0_001 : float_lit 1 1000 = 0x1.0624dd2f1a9fcp-10%float.
Proof. vm_compute. reflexivity. Qed.

Lemma literal_0_00015 : float_lit 15 100000 = 0x1.3a92a30553261p-13%float.
Proof. vm_compute. reflexivity. Qed.

Lemma literal_0_7 : float_lit 7 10 = 0x1.6666666666666p-1%float.
Proof. vm_compute. reflexivity. Qed.

Lemma literal_1000 : float_of_Z 1000 = 1000%float.
Proof. vm_compute. reflexivity. Qed.

Lemma mag_0 : mag 0 = 0%Z.
Proof. reflexivity. Qed.

Lemma mag_0_5 : mag 0.5 = (2 ^ 1073)%Z.
Proof. vm_compute. reflexivity. Qed.

Lemma mag_1 : mag 1 = (2 ^ 1074)%Z.
Proof. vm_compute. reflexivity. Qed.

Lemma mag_8 : mag 8 = (2 ^ 1077)%Z.
Proof. vm_compute. reflexivity. Qed.

Lemma mag_2_44 : mag 0x1p+44 = (2 ^ 1118)%Z.
Proof. vm_compute. reflexivity. Qed.

Lemma mag_latest : mag 8640000000000000 = (8640000000000000 * 2 ^ 1074)%Z.
Proof. vm_compute. reflexivity. Qed.

(** 0.05 + 0.5 is at most the double 0.55 (the three are rounded
    literals). *)
Lemma radius_upper_end :
  (mag 0x1.999999999999ap-5 + mag 0.5 <= mag 0x1.199999999999ap-1)%Z.
Proof. vm_compute. discriminate. Qed.

(** The latest time value, in seconds, is below 2^44. *)
Lemma latest_seconds :
  (mag 8640000000000000 * mag 0x1.0624dd2f1a9fcp-10 <= mag 0x1p+44 * 2 ^ 1074)%Z.
Proof. vm_compute. discriminate. Qed.

(** The density 0.00015 is below 2^-4. *)
Lemma density_small : (mag 0x1.3a92a30553261p-13 <= 2 ^ 1070)%Z.
Proof. vm_compute. discriminate. Qed.

(** ** Conversions *)

Lemma of_int_mag (z : Z) (hi : float) :
  finite hi = true -> (Z.abs z * 2 ^ 1074 <= mag hi)%Z ->
  finite (float_of_Z z) = true /\ (mag (float_of_Z z) <= mag hi)%Z.
Proof.
  intros Fh H. unfold finite, mag, float_of_Z.
  destruct (binary_normalize_integer z (FloatOps.Prim2SF hi) (float_valid hi)
              Fh H) as (V & F & Hm & _).
  rewrite FloatAxioms.Prim2SF_SF2Prim by exact V. auto.
Qed.

(** A finite double is below 2^1024. *)
Lemma mag_top (v : float) : (mag v < 2 ^ 2098)%Z.
Proof.
  unfold mag. pose proof (float_valid v) as V.
  destruct (FloatOps.Prim2SF v) as [s|s| |s m e]; cbn [SFmag];
    try reflexivity.
  pose proof (SFvalid_exponent _ _ _ V) as He.
  apply bounded_spec in V. destruct V as [C _].
  destruct (digits2_bounds m) as [_ Um].
  assert (2 ^ Zpos (SpecFloat.digits2_pos m) <= 2 ^ 53)%Z
    by (apply Z.pow_le_mono_r; lia).
  assert (2 ^ (e + 1074) <= 2 ^ 2045)%Z by (apply Z.pow_le_mono_r; lia).
  pose proof (pow2_pos (e + 1074) ltac:(lia)).
  change (2 ^ 2098)%Z with (2 ^ 53 * 2 ^ 2045)%Z.
  apply Z.lt_le_trans with (2 ^ 53 * 2 ^ (e + 1074))%Z;
    [apply Z.mul_lt_mono_pos_r; lia|apply Z.mul_le_mono_nonneg_l; lia].
Qed.

(** [Math.floor] of a number of [0, 1) is 0. *)
Lemma floor_zero (v : float) :
  nonneg v = true -> (mag v < 2 ^ 1074)%Z -> float_floor v = Some 0%Z.
Proof.
  unfold nonneg, mag, float_floor. pose proof (float_valid v) as V.
  destruct (FloatOps.Prim2SF v) as [s|s| |s m e]; try discriminate;
    [reflexivity|].
  intros Hs Hlt. destruct s; [discriminate|]. cbn [SFmag] in Hlt.
  pose proof (SFvalid_exponent _ _ _ V) as He.
  pose proof (pow2_pos (e + 1074) ltac:(lia)) as Hp.
  assert (e < 0)%Z as Hneg.
  { destruct (Z_lt_le_dec e 0) as [|Hc]; [assumption|exfalso].
    assert (2 ^ 1074 <= 2 ^ (e + 1074))%Z by (apply Z.pow_le_mono_r; lia).
    nia. }
  rewrite Z.shiftl_div_pow2 by lia. f_equal.
  apply Z.div_small. split; [lia|].
  pose proof (pow2_pos (- e) ltac:(lia)) as Hq.
  assert (2 ^ 1074 = 2 ^ (- e) * 2 ^ (e + 1074))%Z as E.
  { rewrite <- pow2_split by lia. f_equal. lia. }
  rewrite E in Hlt. nia.
Qed.

(** ** The numbers of a generated star *)

Lemma random_below_one (n : nat) :
  nonneg (random_source n) = true /\ finite (random_source n) = true
  /\ (mag (random_source n) * 2 ^ 53 <= (2 ^ 53 - 1) * 2 ^ 1074)%Z
  /\ (mag (random_source n) <= 2 ^ 1074)%Z.
Proof.
  destruct (Math_random_range n) as [H0 H1].
  destruct (random_unit _ H0 H1) as (N & F & H).
  repeat split; try assumption.
  change (2 ^ 1074)%Z with (2 ^ 1021 * 2 ^ 53)%Z in *.
  assert (0 < 2 ^ 53)%Z by reflexivity. assert (0 < 2 ^ 1021)%Z by reflexivity.
  set (c := (2 ^ 53)%Z) in *. set (u := (2 ^ 1021)%Z) in *. nia.
Qed.

(** [Math.random() * c + 0.5] for a constant [c] with [c + 0.5 <= hi]. *)
Lemma scaled_random_range (n : nat) (c hi : float) :
  nonneg c = true -> finite hi = true ->
  (mag c + mag 0.5 <= mag hi)%Z ->
  nonneg (random_source n * c + 0.5) = true
  /\ (mag 0.5 <= mag (random_source n * c + 0.5) <= mag hi)%Z.
Proof.
  intros Nc Fh Hsum.
  destruct (random_below_one n) as (Nr & Fr & _ & Hr).
  pose proof (mag_nonneg c) as Hc0.
  destruct (mul_le (random_source n) c c Fr (nonneg_finite c Nc)
              (nonneg_finite c Nc)) as (Fp & Hp & Np).
  { rewrite (Z.mul_comm (mag c)). apply Z.mul_le_mono_nonneg_r; assumption. }
  pose proof (mag_nonneg (random_source n * c)) as Hp0.
  apply add_range; auto.
  - rewrite mag_0_5. reflexivity.
  - lia.
Qed.

Lemma generated_radius (n : nat) :
  (0.5 <=? random_source n * 0x1.999999999999ap-5 + 0.5)%float = true
  /\ (random_source n * 0x1.999999999999ap-5 + 0.5 <=? 0x1.199999999999ap-1)%float
     = true.
Proof.
  destruct (scaled_random_range n 0x1.999999999999ap-5 0x1.199999999999ap-1
              eq_refl eq_refl radius_upper_end) as (N & H1 & H2).
  split; apply leb_mag; auto.
Qed.

Lemma generated_opacity (n : nat) :
  (0.5 <=? random_source n * 0.5 + 0.5)%float = true
  /\ (random_source n * 0.5 + 0.5 <=? 1)%float = true.
Proof.
  destruct (scaled_random_range n 0.5 1 eq_refl eq_refl) as (N & H1 & H2).
  { rewrite mag_0_5, mag_1. reflexivity. }
  split; apply leb_mag; auto.
Qed.

Lemma generated_speed (n : nat) :
  (0.5 <=? 0.5 + random_source n * 0.5)%float = true
  /\ (0.5 + random_source n * 0.5 <=? 1)%float = true.
Proof.
  destruct (random_below_one n) as (Nr & Fr & _ & Hr).
  destruct (mul_le (random_source n) 0.5 0.5 Fr eq_refl eq_refl)
    as (Fp & Hp & Np).
  { rewrite mag_0_5, (Z.mul_comm (2 ^ 1073)).
    apply Z.mul_le_mono_nonneg_r; [|assumption]. apply Z.pow_nonneg. lia. }
  pose proof (mag_nonneg (random_source n * 0.5)) as Hp0.
  destruct (add_range 0.5 (random_source n * 0.5) 0.5 1 eq_refl
              (Np Nr eq_refl) eq_refl eq_refl) as (N & H1 & H2).
  - rewrite mag_0_5. reflexivity.
  - rewrite mag_0_5, mag_1 in *.
    change (2 ^ 1074)%Z with (2 ^ 1073 + 2 ^ 1073)%Z. lia.
  - split; apply leb_mag; auto.
Qed.

(** [Math.random() * width] on a surface whose width is a normal
    double. *)
Lemma generated_position (n : nat) (width : float) :
  nonneg width = true -> (2 ^ 53 <= mag width)%Z ->
  (0 <=? random_source n * width)%float = true
  /\ (random_source n * width <? width)%float = true.
Proof.
  intros Nw Hw.
  destruct (random_below_one n) as (Nr & Fr & Hr53 & Hr).
  pose proof (nonneg_finite width Nw) as Fw.
  pose proof (mag_nonneg width) as Hw0.
  destruct (mul_le (random_source n) width width Fr Fw Fw) as (Fp & Hp & Np).
  { rewrite (Z.mul_comm (mag width)). apply Z.mul_le_mono_nonneg_r; assumption. }
  destruct (mul_lt (random_source n) width Fr Fw Hw Hr53) as (_ & Hlt).
  split.
  - apply leb_mag; auto. rewrite mag_0. apply mag_nonneg.
  - apply ltb_mag; auto.
Qed.

(** A surface with a subnormal side holds no star. *)
Lemma thin_surface_no_pass (width height : float) :
  nonneg width = true -> nonneg height = true ->
  (mag width < 2 ^ 53 \/ mag height < 2 ^ 53)%Z ->
  passes (float_floor (width * height * 0x1.3a92a30553261p-13)) = O.
Proof.
  intros Nw Nh Hthin.
  pose proof (mag_nonneg width) as Hw0. pose proof (mag_nonneg height) as Hh0.
  pose proof (mag_top width) as Hwt. pose proof (mag_top height) as Hht.
  destruct (mul_le width height 8 (nonneg_finite _ Nw) (nonneg_finite _ Nh)
              eq_refl) as (Fa & Ha & Na).
  { rewrite mag_8. change (2 ^ 1077 * 2 ^ 1074)%Z with (2 ^ 53 * 2 ^ 2098)%Z.
    destruct Hthin as [H|H].
    - apply Z.mul_le_mono_nonneg; lia.
    - rewrite Z.mul_comm. apply Z.mul_le_mono_nonneg; lia. }
  specialize (Na Nw Nh). rewrite mag_8 in Ha.
  pose proof (mag_nonneg (width * height)) as Ha0.
  destruct (mul_le (width * height) 0x1.3a92a30553261p-13 0.5 Fa eq_refl
              eq_refl) as (Fv & Hv & Nv).
  { rewrite mag_0_5. pose proof density_small as Hd.
    pose proof (mag_nonneg 0x1.3a92a30553261p-13) as Hd0.
    change (2 ^ 1073 * 2 ^ 1074)%Z with (2 ^ 1077 * 2 ^ 1070)%Z.
    apply Z.mul_le_mono_nonneg; lia. }
  rewrite floor_zero; [reflexivity|auto|].
  rewrite mag_0_5 in Hv. change (2 ^ 1074)%Z with (2 * 2 ^ 1073)%Z.
  assert (0 < 2 ^ 1073)%Z by reflexivity. lia.
Qed.

(** ** The opacity of a frame *)

(** [0.5 + |sin ((now * 0.001) / speed) * 0.5|] for a twinkle speed of
    [0.5, 1]. *)
Lemma twinkle_range (k : nat) (speed : float) :
  (0.5 <=? speed)%float = true -> (speed <=? 1)%float = true ->
  (0.5 <=? 0.5 + abs (platform_sin
                        ((float_of_Z (clock k) * 0x1.0624dd2f1a9fcp-10) / speed)
                      * 0.5))%float = true
  /\ (0.5 + abs (platform_sin
                   ((float_of_Z (clock k) * 0x1.0624dd2f1a9fcp-10) / speed)
                 * 0.5) <=? 1)%float = true.
Proof.
  intros Hlo Hhi.
  assert (nonneg speed = true) as Ns
    by (apply (nonneg_leb 0.5 speed 1); auto).
  apply (leb_mag 0.5 speed eq_refl Ns) in Hlo. rewrite mag_0_5 in Hlo.
  (* the time in milliseconds, then in seconds *)
  destruct (of_int_mag (clock k) 8640000000000000 eq_refl) as (Ft & Ht).
  { rewrite mag_latest. apply Z.mul_le_mono_nonneg_r; [|apply Date_now_range].
    apply Z.pow_nonneg. lia. }
  set (t := float_of_Z (clock k)) in *.
  destruct (mul_le t 0x1.0624dd2f1a9fcp-10 0x1p+44 Ft eq_refl eq_refl)
    as (Fp & Hp & _).
  { eapply Z.le_trans; [|exact latest_seconds].
    apply Z.mul_le_mono_nonneg_r; [apply mag_nonneg|exact Ht]. }
  rewrite mag_2_44 in Hp.
  set (p := (t * 0x1.0624dd2f1a9fcp-10)%float) in *.
  (* the argument of the sine is finite *)
  assert (finite (p / speed) = true) as Fa.
  { apply (div_finite p speed 1119 1073); auto using nonneg_finite; lia. }
  pose proof (Math_sin_range (p / speed) Fa) as Hsin.
  set (sn := platform_sin (p / speed)) in *.
  pose proof (abs_leb_finite sn 1 eq_refl Hsin) as Fsn.
  destruct (abs_finite sn Fsn) as (Nabs & Eabs).
  apply (leb_mag (abs sn) 1 Nabs eq_refl) in Hsin.
  rewrite Eabs, mag_1 in Hsin.
  (* half of it *)
  destruct (mul_le sn 0.5 0.5 Fsn eq_refl eq_refl) as (Fq & Hq & _).
  { rewrite mag_0_5, (Z.mul_comm (2 ^ 1073)).
    apply Z.mul_le_mono_nonneg_r; [|assumption]. apply Z.pow_nonneg. lia. }
  destruct (abs_finite (sn * 0.5) Fq) as (Nq & Eq).
  pose proof (mag_nonneg (sn * 0.5)) as Hq0.
  destruct (add_range 0.5 (abs (sn * 0.5)) 0.5 1 eq_refl Nq eq_refl eq_refl)
    as (N & H1 & H2).
  - rewrite mag_0_5. reflexivity.
  - rewrite Eq, mag_0_5, mag_1 in *.
    change (2 ^ 1074)%Z with (2 ^ 1073 + 2 ^ 1073)%Z. lia.
  - split; apply leb_mag; auto.
Qed.

(** A product with a zero factor is zero or NaN: its floor gives no pass
    of the loop. *)
Lemma zero_area_no_pass (width height density : float) :
  (width =? float_of_Z 0)%float = true
  \/ (height =? float_of_Z 0)%float = true ->
  passes (float_floor (width * height * density)) = O.
Proof.
  intro H. unfold float_floor.
  rewrite !FloatAxioms.mul_spec.
  rewrite !FloatAxioms.eqb_spec in H.
  replace (FloatOps.Prim2SF (float_of_Z 0))
    with (SpecFloat.S754_zero false) in H by (vm_compute; reflexivity).
  destruct (FloatOps.Prim2SF width) as [sw|sw| |sw mw ew],
           (FloatOps.Prim2SF height) as [sh|sh| |sh mh eh];
    try (destruct H as [H|H]; try discriminate H;
         try (destruct sw; discriminate H);
         try (destruct sh; discriminate H); fail);
    destruct (FloatOps.Prim2SF density); reflexivity.
Qed.

(** A product with a zero factor is zero or NaN: the loop ends, with no
    pass. *)
Lemma zero_area_loop_ends (width height density : float) :
  (width =? float_of_Z 0)%float = true
  \/ (height =? float_of_Z 0)%float = true ->
  match float_floor (width * height * density) with
  | Some n => (n <=? max_array_length)%Z
  | None => negb (float_of_Z 0 <? width * height * density)%float
  end = true.
Proof.
  intro H. unfold float_floor.
  rewrite FloatAxioms.ltb_spec, !FloatAxioms.mul_spec.
  rewrite !FloatAxioms.eqb_spec in H.
  replace (FloatOps.Prim2SF (float_of_Z 0))
    with (SpecFloat.S754_zero false) in * by (vm_compute; reflexivity).
  destruct (FloatOps.Prim2SF width) as [sw|sw| |sw mw ew],
           (FloatOps.Prim2SF height) as [sh|sh| |sh mh eh];
    try (destruct H as [H|H]; try discriminate H;
         try (destruct sw; discriminate H);
         try (destruct sh; discriminate H); fail);
    destruct (FloatOps.Prim2SF density); reflexivity.
Qed.

(** ** Statements about generation *)

(** C1, as the script has it on the doubles.  Let the count be
    [Math.floor(width * height * starDensity)], the product taken in
    double arithmetic in this order.  When the count is at most
    4294967295, [generateStars width height] returns that many stars
    (none when the count is negative); when it is larger, or plus
    infinity, the call gives no result; NaN and minus infinity give the
    empty list.  A zero width or height gives the empty list, and a
    1000 x 1000 surface with the shipped density 0.00015 gives 150
    stars. *)
Theorem generateStars_count (width height : @num doubles) (w : World) :
  let count := (width * height * starDensity cfg)%float in
  (forall n,
      Math_floor (Number := doubles) count = Some n ->
      (n <= 4294967295)%Z ->
      exists result w',
        generateStars_call random_source cfg width height w = Some (result, w')
        /\ length result = Z.to_nat n
        /\ ((0 <= n)%Z -> Z.of_nat (length result) = n))
  /\ (forall n,
         Math_floor (Number := doubles) count = Some n ->
         (4294967295 < n)%Z ->
         generateStars_call random_source cfg width height w = None)
  /\ (count = infinity ->
      generateStars_call random_source cfg width height w = None)
  /\ (Math_floor (Number := doubles) count = None ->
      (integer 0 <? count)%float = false ->
      generateStars_call random_source cfg width height w = Some ([], w))
  /\ ((width === of_int 0)%num = true \/ (height === of_int 0)%num = true ->
      generateStars_call random_source cfg width height w = Some ([], w))
  /\ (starDensity cfg = lit 15 100000 ->
      width = of_int 1000 -> height = of_int 1000 ->
      exists result w',
        generateStars_call random_source cfg width height w = Some (result, w')
        /\ length result = 150%nat).
Proof.
  cbv zeta.
  destruct (generateStars_eval random_source cfg width height w) as [Hlen _].
  assert (forall r, generateStars random_source cfg width height w = r ->
                    passes (numStars cfg width height) = O ->
                    r = ([], w)) as Hnone.
  { intros r <- H0. unfold generateStars. rewrite H0. reflexivity. }
  unfold generateStars_call, loop_ends, numStars in *.
  change (@nmul doubles) with PrimFloat.mul in *.
  change (@nltb doubles) with PrimFloat.ltb in *.
  change (@of_int doubles) with float_of_Z in *.
  split; [|split; [|split; [|split; [|split]]]].
  - intros n Hn Hle. rewrite Hn in *.
    replace (n <=? max_array_length)%Z with true
      by (symmetry; apply Z.leb_le; exact Hle).
    destruct (generateStars random_source cfg width height w) as [result w']
      eqn:Hg.
    exists result, w'. split; [reflexivity|].
    unfold eval in Hlen. rewrite Hg in Hlen. cbn [fst passes] in Hlen.
    split; [exact Hlen|]. intro Hpos. rewrite Hlen. apply Z2Nat.id. exact Hpos.
  - intros n Hn Hgt. rewrite Hn.
    replace (n <=? max_array_length)%Z with false; [reflexivity|].
    symmetry. apply Z.leb_gt. exact Hgt.
  - intros ->. reflexivity.
  - intros Hn Hlt. rewrite Hn in *. rewrite Hlt. cbn [negb]. f_equal.
    apply Hnone; reflexivity.
  - intro Hz.
    pose proof (zero_area_loop_ends width height (starDensity cfg) Hz) as He.
    cbv [Math_floor Binary64.binary64] in *. rewrite He. f_equal.
    apply Hnone; [reflexivity|]. apply zero_area_no_pass. exact Hz.
  - intros Hd -> ->. rewrite Hd in *.
    replace (match
                Math_floor (Number := doubles)
                  (float_of_Z 1000 * float_of_Z 1000
                   * lit (Number := doubles) 15 100000)%float
              with
              | Some n => (n <=? max_array_length)%Z
              | None =>
                  negb (float_of_Z 0 <? float_of_Z 1000 * float_of_Z 1000
                                        * lit (Number := doubles) 15 100000)%float
              end) with true by (vm_compute; reflexivity).
    destruct (generateStars random_source cfg (float_of_Z 1000)
                (float_of_Z 1000) w) as [result w'] eqn:Hg.
    exists result, w'. split; [reflexivity|].
    unfold eval in Hlen. rewrite Hg in Hlen. cbn [fst] in Hlen.
    rewrite Hlen. vm_compute. reflexivity.
Qed.

(** C5, as the script has it on the doubles: with the shipped density,
    on a surface of finite non-negative size, every generated star has
    its radius in [0.5, 0.55], its opacity in [0.5, 1] (both ends can be
    reached, see [radius_reaches_upper_end] and [opacity_reaches_one])
    and its position in [0, width) x [0, height). *)
Theorem generateStars_ranges (width height : @num doubles) (w : World)
        (s : Star) :
  starDensity cfg = lit 15 100000 ->
  (integer 0 <=? width)%float = true -> finite width = true ->
  (integer 0 <=? height)%float = true -> finite height = true ->
  In s (eval (generateStars random_source cfg width height) w) ->
  ((literal 5 10 <=? radius s)%float = true
   /\ (radius s <=? literal 55 100)%float = true)
  /\ ((literal 5 10 <=? opacity s)%float = true
      /\ (opacity s <=? integer 1)%float = true)
  /\ ((integer 0 <=? x s)%float = true /\ (x s <? width)%float = true)
  /\ ((integer 0 <=? y s)%float = true /\ (y s <? height)%float = true).
Proof.
  intros Hd Hw Fw Hh Fh Hin.
  destruct (generateStars_eval random_source cfg width height w) as [Hlen Hall].
  rewrite Forall_forall in Hall.
  destruct (Hall s Hin) as ((a & Ha) & (b & Hb) & (c & Hc) & (d & Hdd) & _).
  assert (0 < passes (numStars cfg width height))%nat as Hn.
  { destruct (eval (generateStars random_source cfg width height) w);
      [contradiction|].
    rewrite <- Hlen. cbn [length]. lia. }
  unfold numStars in Hn. rewrite Hd in Hn.
  cbv [num of_int lit nadd nmul Math_floor Binary64.binary64]
    in Hn, Hw, Hh, Ha, Hb, Hc, Hdd |- *.
  rewrite ?literal_0, ?literal_1, ?literal_0_5, ?literal_0_05, ?literal_0_55,
    ?literal_0_00015 in *.
  assert (nonneg width = true) as Nw by (apply nonneg_of_finite; assumption).
  assert (nonneg height = true) as Nh by (apply nonneg_of_finite; assumption).
  assert (2 ^ 53 <= mag width /\ 2 ^ 53 <= mag height)%Z as [Mw Mh].
  { destruct (Z_lt_le_dec (mag width) (2 ^ 53)) as [Hc1|Hc1];
      [|destruct (Z_lt_le_dec (mag height) (2 ^ 53)) as [Hc2|Hc2]];
      [| |split; assumption]; exfalso;
      rewrite thin_surface_no_pass in Hn by auto; inversion Hn. }
  rewrite Ha, Hb, Hc, Hdd.
  split; [apply generated_radius|]. split; [apply generated_opacity|].
  split; apply generated_position; assumption.
Qed.

(** C8, as the script has it on the doubles: with the "all stars
    twinkle" flag set and the shipped speeds 0.5 and 1, every generated
    star has a twinkle speed, and it lies in
    [minTwinkleSpeed, maxTwinkleSpeed] (the upper end can be reached, see
    [speed_reaches_maximum]). *)
Theorem generateStars_all_twinkle (width height : @num doubles) (w : World)
        (s : Star) :
  allStarsTwinkle cfg = true ->
  minTwinkleSpeed cfg = lit 5 10 -> maxTwinkleSpeed cfg = of_int 1 ->
  In s (eval (generateStars random_source cfg width height) w) ->
  exists speed,
    twinkleSpeed s = Some speed
    /\ (minTwinkleSpeed cfg <=? speed)%float = true
    /\ (speed <=? maxTwinkleSpeed cfg)%float = true.
Proof.
  intros Hall Hmin Hmax Hin.
  destruct (generateStars_eval random_source cfg width height w) as [_ HF].
  rewrite Forall_forall in HF.
  destruct (HF s Hin) as (_ & _ & _ & _ & [[Hf _]|(e & He)]).
  - congruence.
  - eexists. split; [exact He|]. rewrite Hmin, Hmax.
    cbv [num of_int lit nadd nsub nmul Binary64.binary64].
    rewrite literal_0_5, literal_1.
    change (1 - 0.5)%float with 0.5%float.
    apply generated_speed.
Qed.

(** ** Statements about one frame *)

(** C2, as the script has it on the doubles: one run of [render] sets the
    opacity of a twinkling star to
    0.5 + 0.5 * |sin ((currentTimeMillis * 0.001) / twinkleSpeed)|, where
    currentTimeMillis is a value of [Date.now()] read during that run (the
    clock is read once for each twinkling star, in the order of the
    collection) and 0.001 is the double of that literal; the product by
    0.001 is not the quotient by 1000, see [render_opacity_not_quotient]. *)
Theorem render_twinkle_opacity (w : World) (i : nat) (s : Star)
        (speed : @num doubles) :
  nth_error (stars w) i = Some s ->
  twinkleSpeed s = Some speed ->
  let n := (clock_reads w + twinkling (firstn i (stars w)))%nat in
  let currentTimeMillis : float := integer (clock n) in
  (clock_reads w <= n < clock_reads (exec (render clock) w))%nat
  /\ exists s',
       nth_error (stars (exec (render clock) w)) i = Some s'
       /\ opacity s' =
          (0.5 + 0.5 * abs (platform_sin
                              ((currentTimeMillis * literal 1 1000) / speed)))%float.
Proof.
  intros Hn Hs. cbv zeta. rewrite render_exec. cbn [clock_reads stars].
  split.
  - assert (twinkles s = true) as Ht by (unfold twinkles; rewrite Hs; reflexivity).
    pose proof (twinkling_firstn_lt (stars w) i s Hn Ht). lia.
  - destruct (twinkled_nth clock (stars w) (clock_reads w) i s speed Hn Hs)
      as (s' & H1 & H2).
    exists s'. split; [exact H1|]. rewrite H2. unfold twinkle.
    cbv [num of_int lit nadd nmul ndiv Math_abs Math_sin Binary64.binary64].
    rewrite literal_0_5. f_equal. apply abs_mul_comm. reflexivity.
Qed.

(** ** The range of the opacity *)

(** C6, as the script has it on the doubles, with the shipped twinkle
    speeds: a generated star has its opacity in [0.5, 1]; a run of
    [render] gives a star whose speed is in [0.5, 1] an opacity in
    [0.5, 1]; and so the opacity of every star of every reachable state
    lies in the closed interval [0.5, 1]. *)
Theorem opacity_closed_range :
  minTwinkleSpeed cfg = lit 5 10 -> maxTwinkleSpeed cfg = of_int 1 ->
  (forall width height w s,
      In s (eval (generateStars random_source cfg width height) w) ->
      (literal 5 10 <=? opacity s)%float = true
      /\ (opacity s <=? integer 1)%float = true)
  /\ (forall k speed,
         (literal 5 10 <=? speed)%float = true ->
         (speed <=? integer 1)%float = true ->
         (literal 5 10 <=? twinkle (N := doubles) (clock k) speed)%float = true
         /\ (twinkle (N := doubles) (clock k) speed <=? integer 1)%float = true)
  /\ (forall w,
         reachable random_source clock cfg w ->
         Forall (fun s : @Star doubles =>
                   (literal 5 10 <=? opacity s)%float = true
                   /\ (opacity s <=? integer 1)%float = true) (stars w)).
Proof.
  intros Hmin Hmax.
  assert (forall width height w,
             Forall (fun s : @Star doubles =>
                       ((0.5 <=? opacity s)%float = true
                        /\ (opacity s <=? 1)%float = true)
                       /\ forall speed, twinkleSpeed s = Some speed ->
                                        (0.5 <=? speed)%float = true
                                        /\ (speed <=? 1)%float = true)
               (eval (generateStars random_source cfg width height) w)) as Hgen.
  { intros width height w.
    destruct (generateStars_eval random_source cfg width height w) as [_ H].
    eapply Forall_impl; [|exact H].
    intros s (_ & _ & _ & (d & Hd) & Hsp). split.
    - rewrite Hd. cbv [num lit nadd nmul Binary64.binary64].
      rewrite literal_0_5. apply generated_opacity.
    - intros speed Hs. destruct Hsp as [[_ Hnone]|(e & He)]; [congruence|].
      rewrite He in Hs. injection Hs as <-. rewrite Hmin, Hmax.
      cbv [num of_int lit nadd nsub nmul Binary64.binary64].
      rewrite literal_0_5, literal_1.
      change (1 - 0.5)%float with 0.5%float.
      apply generated_speed. }
  assert (forall k speed,
             (0.5 <=? speed)%float = true -> (speed <=? 1)%float = true ->
             (0.5 <=? twinkle (N := doubles) (clock k) speed)%float = true
             /\ (twinkle (N := doubles) (clock k) speed <=? 1)%float = true)
    as Htw.
  { intros k speed Hlo Hhi. unfold twinkle.
    cbv [num of_int lit nadd nmul ndiv Math_abs Math_sin Binary64.binary64].
    rewrite literal_0_5, literal_0_001. apply twinkle_range; assumption. }
  cbv [num of_int lit Binary64.binary64].
  rewrite literal_0_5, literal_1.
  split; [|split].
  - intros width height w s Hin.
    pose proof (Hgen width height w) as Hg. rewrite Forall_forall in Hg.
    exact (proj1 (Hg s Hin)).
  - exact Htw.
  - intros w Hr.
    eapply Forall_impl;
      [|apply (reachable_stars random_source clock cfg _ Hgen); [|exact Hr]].
    + cbv beta. intros s [H _]. exact H.
    + intros k s speed [_ Hsp] Hs. cbn [opacity twinkleSpeed]. split.
      * destruct (Hsp speed Hs). apply Htw; assumption.
      * exact Hsp.
Qed.

End Doubles.

(** * Concrete pages *)

Section Pages.

Import PrimFloat Binary64 Rounding.

(** Rounding decides the count: 400 * 100 * 0.00015 is 5.999999999999999
    on the doubles, and 6 in exact arithmetic. *)
Example numStars_400_100_binary64 (platform_sin : PrimFloat.float -> PrimFloat.float) :
  numStars (N := Binary64.binary64 platform_sin) settings
    (of_int 400) (of_int 100) = Some 5%Z.
Proof. vm_compute. reflexivity. Qed.

Example numStars_400_100_exact :
  numStars (N := real_number) settings (of_int 400) (of_int 100) = Some 6%Z.
Proof.
  unfold numStars. cbn. f_equal. apply Zfloor_eq. simpl. lra.
Qed.

Example numStars_1920_1080_binary64 (platform_sin : PrimFloat.float -> PrimFloat.float) :
  numStars (N := Binary64.binary64 platform_sin) settings
    (of_int 1920) (of_int 1080) = Some 311%Z.
Proof. vm_compute. reflexivity. Qed.

(** ** The statements about the control flow, on concrete pages *)

Local Abbreviation real_star := (@Build_Star real_number).
Local Abbreviation real_resize := (@Resize real_number).

Lemma visible_100 : visible (N := real_number) 100%R 100%R = true.
Proof.
  unfold visible. cbn. unfold Reqb.
  destruct (Req_dec_T 100 0) as [E|_]; [exfalso; lra|reflexivity].
Qed.

Lemma numStars_100 :
  numStars (N := real_number) settings 100%R 100%R = Some 1%Z.
Proof. unfold numStars. cbn. f_equal. apply Zfloor_eq. simpl. lra. Qed.

(** In exact arithmetic a 100 x 100 surface holds one star, made of the
    next five values of [Math.random()]. *)
Lemma generateStars_100 (random_source : nat -> R) (w : @World real_number) :
  eval (generateStars (N := real_number) random_source settings 100%R 100%R) w
  = [ real_star (random_source (random_calls w) * 100)
        (random_source (S (random_calls w)) * 100)
        (random_source (S (S (random_calls w))) * 0.05 + 0.5)
        (random_source (S (S (S (random_calls w)))) * 0.5 + 0.5)
        (Some (0.5 + random_source (S (S (S (S (random_calls w)))))
                     * (1 - 0.5))) ]%R.
Proof.
  unfold generateStars. rewrite numStars_100. reflexivity.
Qed.

Lemma loaded_100_animating (random_source : nat -> R) (clock : nat -> Z) :
  is_idle (exec (DOMContentLoaded (N := real_number) random_source clock
                   settings 100%R 100%R) init)
  = false.
Proof.
  destruct (loaded_step (N := real_number) random_source clock settings
              100%R 100%R) as [_ H].
  rewrite H, visible_100. reflexivity.
Qed.

Lemma zero_in_unit (n : nat) : (0 <= (fun _ : nat => 0) n < 1)%R.
Proof. simpl. lra. Qed.

(** The count on the doubles, for a 1000 x 1000 and a 0 x 1000 surface
    (the sine plays no part in generation). *)
Lemma generateStars_count_witness :
  (exists result w',
      generateStars_call (N := Binary64.binary64 sine_table)
        (fun _ => of_int 0) settings (of_int 1000) (of_int 1000) init
      = Some (result, w')
      /\ length result = 150%nat)
  /\ generateStars_call (N := Binary64.binary64 sine_table)
       (fun _ => of_int 0) settings (of_int 0) (of_int 1000) init
     = Some ([], init).
Proof.
  destruct (generateStars_count sine_table (fun _ => of_int 0) settings
              (of_int 1000) (of_int 1000) init) as (_ & _ & _ & _ & _ & H6).
  destruct (generateStars_count sine_table (fun _ => of_int 0) settings
              (of_int 0) (of_int 1000) init) as (_ & _ & _ & _ & H5 & _).
  split; [apply H6; reflexivity|].
  apply H5. left. vm_compute. reflexivity.
Defined.

(** One delivered frame on a single star without twinkle speed. *)
Lemma render_frame_effect_witness :
  Forall2 keeps
    [ real_star 1%R 2%R 0.5%R 0.75%R None ]
    (stars (exec (render (N := real_number) (fun _ => 1000%Z))
              (set_frame_callbacks []
                 (set_frame_callbacks [1%positive]
                    (set_stars [ real_star 1%R 2%R 0.5%R 0.75%R None ]
                       init))))).
Proof.
  exact (proj2 (proj2 (render_frame_effect (N := real_number) (fun _ => 0%R)
                         (fun _ => 1000%Z) settings)
                  [Frame]
                  (set_frame_callbacks [1%positive]
                     (set_stars [ real_star 1%R 2%R 0.5%R 0.75%R None ]
                        init))
                  _ eq_refl eq_refl)).
Defined.

(** One run of [render] at time 1000 on a single star of twinkle speed
    0.5 and opacity 0.75: the star is painted with 0.75 and then holds
    the value of the twinkle formula. *)
Lemma render_draws_before_update_witness :
  exists s',
    nth_error
      (stars (exec (render (N := real_number) (fun _ => 1000%Z))
                (set_stars [ real_star 1%R 2%R 0.5%R 0.75%R (Some 0.5%R) ]
                   init))) 0
    = Some s'
    /\ opacity s' = twinkle (N := real_number) 1000 0.5%R.
Proof.
  exact (proj1 (proj2 (proj2 (proj2
           (render_draws_before_update (N := real_number) (fun _ => 0%R)
              (fun _ => 1000%Z) settings
              (set_stars [ real_star 1%R 2%R 0.5%R 0.75%R (Some 0.5%R) ]
                 init)))))
           0%nat _ 0.5%R eq_refl eq_refl).
Defined.

(** A resize to 0 x 150 on the initial state, on the doubles. *)
Lemma updateStars_hidden_unchanged_witness :
  exec (updateStars (N := Binary64.binary64 sine_table) (fun _ => of_int 0)
          (fun _ => 1000%Z) settings (of_int 0) (of_int 150)) init = init.
Proof.
  exact (proj1 (updateStars_hidden_unchanged
                  (N := Binary64.binary64 sine_table) (fun _ => of_int 0)
                  (fun _ => 1000%Z) settings (of_int 0) (of_int 150) init
                  (or_introl eq_refl))).
Defined.


(** Teardown of a page loaded at 100 x 100. *)
Lemma beforeunload_stops_callbacks_witness :
  count_cancels
    (new_calls
       (exec (DOMContentLoaded (N := real_number) (fun _ => 0%R)
                (fun _ => 1000%Z) settings 100%R 100%R) init)
       (exec beforeunload
          (exec (DOMContentLoaded (N := real_number) (fun _ => 0%R)
                   (fun _ => 1000%Z) settings 100%R 100%R) init))) = 1%nat
  /\ frame_callbacks
       (exec beforeunload
          (exec (DOMContentLoaded (N := real_number) (fun _ => 0%R)
                   (fun _ => 1000%Z) settings 100%R 100%R) init)) = []
  /\ observing
       (exec beforeunload
          (exec (DOMContentLoaded (N := real_number) (fun _ => 0%R)
                   (fun _ => 1000%Z) settings 100%R 100%R) init)) = false.
Proof.
  assert (animation_state
            (exec (DOMContentLoaded (N := real_number) (fun _ => 0%R)
                     (fun _ => 1000%Z) settings 100%R 100%R) init)
          = Animating) as Ha.
  { apply (is_idle_state _ true). apply loaded_100_animating. }
  destruct (beforeunload_stops_callbacks (N := real_number) (fun _ => 0%R)
              (fun _ => 1000%Z) settings
              _ (live_loaded (N := real_number) _ _ _ 100%R 100%R) Ha) as (_ & H2 & H3 & H4 & _).
  auto.
Defined.

(** ** The statements on the doubles, on concrete pages *)

(** In what follows [Math.random()] always returns 0.5, [Date.now()]
    always returns 1000 and the sine is that of [sine_table]. *)
Lemma half_in_unit (n : nat) :
  (0 <=? (fun _ : nat => 0.5) n)%float = true
  /\ ((fun _ : nat => 0.5) n <? 1)%float = true.
Proof. split; reflexivity. Qed.

Lemma sine_table_range (v : float) :
  finite v = true -> (abs (sine_table v) <=? 1)%float = true.
Proof.
  intros _. unfold sine_table.
  destruct (v =? 0x1.954fc40008313p+31)%float; [reflexivity|].
  destruct (v =? 0x1.954fc40008312p+31)%float; [reflexivity|].
  destruct (v =? 0x1.921fb54442d18p+0)%float; reflexivity.
Qed.

Lemma clock_1000_range (n : nat) :
  (Z.abs ((fun _ : nat => 1000) n) <= 8640000000000000)%Z.
Proof. simpl. lia. Qed.

(** The one star of a 100 x 100 surface. *)
Lemma generateStars_ranges_witness :
  length (eval (generateStars (N := binary64 sine_table) (fun _ => 0.5%float)
                  settings (of_int 100) (of_int 100)) init) = 1%nat
  /\ Forall (fun s : @Star (binary64 sine_table) =>
               ((0.5 <=? radius s)%float = true
                /\ (radius s <=? 0x1.199999999999ap-1)%float = true)
               /\ ((0.5 <=? opacity s)%float = true
                   /\ (opacity s <=? 1)%float = true)
               /\ ((0 <=? x s)%float = true /\ (x s <? 100)%float = true)
               /\ ((0 <=? y s)%float = true /\ (y s <? 100)%float = true))
       (eval (generateStars (N := binary64 sine_table) (fun _ => 0.5%float)
                settings (of_int 100) (of_int 100)) init).
Proof.
  split; [vm_compute; reflexivity|].
  apply Forall_forall. intros s Hin.
  exact (generateStars_ranges sine_table (fun _ => 0.5%float) settings
           half_in_unit (of_int 100) (of_int 100) init s
           eq_refl eq_refl eq_refl eq_refl eq_refl Hin).
Defined.

(** Its twinkle speed, under the shipped settings. *)
Lemma generateStars_all_twinkle_witness :
  Forall (fun s : @Star (binary64 sine_table) =>
            exists speed,
              twinkleSpeed s = Some speed
              /\ (0.5 <=? speed)%float = true /\ (speed <=? 1)%float = true)
    (eval (generateStars (N := binary64 sine_table) (fun _ => 0.5%float)
             settings (of_int 100) (of_int 100)) init).
Proof.
  apply Forall_forall. intros s Hin.
  exact (generateStars_all_twinkle sine_table (fun _ => 0.5%float) settings
           half_in_unit (of_int 100) (of_int 100) init s
           eq_refl eq_refl eq_refl Hin).
Defined.

Local Abbreviation float_star := (@Build_Star (binary64 sine_table)).

(** One frame at time 1000 on a single star of twinkle speed 0.5. *)
Lemma render_twinkle_opacity_witness :
  exists s',
    nth_error
      (stars (exec (render (N := binary64 sine_table) (fun _ => 1000%Z))
                (set_stars [ float_star 1 2 0.5 0.5 (Some 0.5) ]%float init))) 0
    = Some s'
    /\ opacity s'
       = (0.5 + 0.5 * abs (sine_table ((1000 * 0x1.0624dd2f1a9fcp-10) / 0.5)))%float.
Proof.
  exact (proj2 (render_twinkle_opacity sine_table (fun _ => 1000%Z)
                  (set_stars [ float_star 1 2 0.5 0.5 (Some 0.5) ]%float init)
                  0 _ 0.5%float eq_refl eq_refl)).
Defined.

(** The closed range on a page loaded at 100 x 100. *)
Lemma opacity_closed_range_witness :
  Forall (fun s : @Star (binary64 sine_table) =>
            (0.5 <=? opacity s)%float = true /\ (opacity s <=? 1)%float = true)
    (stars (exec (DOMContentLoaded (N := binary64 sine_table)
                    (fun _ => 0.5%float) (fun _ => 1000%Z) settings
                    (of_int 100) (of_int 100)) init)).
Proof.
  exact (proj2 (proj2 (opacity_closed_range sine_table
                         (fun _ => 0.5%float) (fun _ => 1000%Z) settings
                         half_in_unit sine_table_range clock_1000_range
                         eq_refl eq_refl))
           _ (reachable_loaded (N := binary64 sine_table) _ _ _
                (of_int 100) (of_int 100))).
Defined.

(** ** Where the statements of the specification fail *)

(** C1 as stated fails.  On a surface of 5400000 x 5400000 the count is
    4374000000, more than an array can hold, and on one of
    2^531 x 2^531 the product is plus infinity: the call gives no result.
    And the count is the floor of the product on the doubles, not of the
    exact product: for 400 x 100 the script makes 5 stars, where
    floor (400 * 100 * 0.00015) is 6. *)
Lemma generateStars_no_result :
  Math_floor (Number := binary64 sine_table)
    (of_int 5400000 * of_int 5400000 * starDensity settings)%num
  = Some 4374000000%Z
  /\ generateStars_call (N := binary64 sine_table) (fun _ => of_int 0)
       settings (of_int 5400000) (of_int 5400000) init = None
  /\ (0x1p+531 * 0x1p+531 * starDensity (N := binary64 sine_table) settings
      = infinity)%float
  /\ generateStars_call (N := binary64 sine_table) (fun _ => of_int 0)
       settings 0x1p+531%float 0x1p+531%float init = None
  /\ option_map (fun r => length (fst r))
       (generateStars_call (N := binary64 sine_table) (fun _ => of_int 0)
          settings (of_int 400) (of_int 100) init) = Some 5%nat
  /\ Zfloor (400 * 100 * (15 / 100000))%R = 6%Z.
Proof.
  assert (forall width height : @num (binary64 sine_table),
             loop_ends settings width height = false ->
             generateStars_call (fun _ => of_int 0) settings width height init
             = None) as Hnone.
  { intros width height H. unfold generateStars_call. rewrite H. reflexivity. }
  split; [vm_compute; reflexivity|].
  split; [apply Hnone; vm_compute; reflexivity|].
  split; [vm_compute; reflexivity|].
  split; [apply Hnone; vm_compute; reflexivity|].
  split; [vm_compute; reflexivity|].
  apply Zfloor_eq. simpl. lra.
Qed.

(** C7 as stated fails: what a frame displays is not always the opacity
    the frame before computed.  [Math.random()] returns 0.5 five times
    and 0.25 from then on, [Date.now()] returns 0.  The page is loaded at
    100 x 100: its one star is generated with the opacity 0.75, and the
    frame the script runs itself paints 0.75, which no frame computed,
    and leaves the star at 0.5.  A resize to 100 x 100 then regenerates
    the star with the opacity 0.625, and the next frame paints 0.625, not
    the 0.5 of the frame before. *)
Lemma frame_paints_generated_opacity :
  let random := fun n : nat => if (n <? 5)%nat then 0.5%float else 0.25%float in
  let loaded :=
    exec (DOMContentLoaded (N := binary64 sine_table) random (fun _ => 0%Z)
            settings (of_int 100) (of_int 100)) init in
  let resize :=
    deliver (N := binary64 sine_table) random (fun _ => 0%Z) settings
      (Resize (of_int 100) (of_int 100)) in
  let frame :=
    deliver (N := binary64 sine_table) random (fun _ => 0%Z) settings Frame in
  drawn_opacities (calls loaded) = [0.75%float]
  /\ map opacity (stars loaded) = [0.5%float]
  /\ option_map (fun w => map opacity (stars w)) (resize loaded)
     = Some [0.625%float]
  /\ match resize loaded with
     | Some w =>
         option_map (fun w' => drawn_opacities (new_calls w w')) (frame w)
     | None => None
     end = Some [0.625%float].
Proof. vm_compute. repeat split; reflexivity. Qed.


(** C5 as stated fails on the upper end of the radius.  [Math.random()]
    returns 1 - 2^-52, the largest value of generators that draw 52 bits:
    the radius [r * 0.05 + 0.5] of the star of a 100 x 100 surface rounds
    to the double 0.55, which is not below 0.55. *)
Lemma radius_reaches_upper_end :
  ((0 <=? 0x1.ffffffffffffep-1)%float = true
   /\ (0x1.ffffffffffffep-1 <? 1)%float = true)
  /\ map radius
       (eval (generateStars (N := binary64 sine_table)
                (fun _ => 0x1.ffffffffffffep-1%float) settings
                (of_int 100) (of_int 100)) init)
     = [@lit (binary64 sine_table) 55 100]
  /\ map (fun s => (radius s <? lit 55 100)%num)
       (eval (generateStars (N := binary64 sine_table)
                (fun _ => 0x1.ffffffffffffep-1%float) settings
                (of_int 100) (of_int 100)) init)
     = [false].
Proof. vm_compute. repeat split; reflexivity. Qed.

(** C8 as stated fails on the upper end of the speed.  [Math.random()]
    returns 1 - 2^-53, the double just below 1: the twinkle speed
    [0.5 + r * (1 - 0.5)] of the star of a 100 x 100 surface rounds to 1,
    the value of maxTwinkleSpeed. *)
Lemma speed_reaches_maximum :
  ((0 <=? 0x1.fffffffffffffp-1)%float = true
   /\ (0x1.fffffffffffffp-1 <? 1)%float = true)
  /\ allStarsTwinkle (N := binary64 sine_table) settings = true
  /\ map twinkleSpeed
       (eval (generateStars (N := binary64 sine_table)
                (fun _ => 0x1.fffffffffffffp-1%float) settings
                (of_int 100) (of_int 100)) init)
     = [Some (maxTwinkleSpeed (N := binary64 sine_table) settings)]
  /\ map (fun s => match twinkleSpeed s with
                   | Some speed => (speed <? maxTwinkleSpeed settings)%num
                   | None => false
                   end)
       (eval (generateStars (N := binary64 sine_table)
                (fun _ => 0x1.fffffffffffffp-1%float) settings
                (of_int 100) (of_int 100)) init)
     = [false].
Proof. vm_compute. repeat split; reflexivity. Qed.

(** C6 as stated fails already at generation.  With [Math.random()]
    returning 1 - 2^-53 the opacity [r * 0.5 + 0.5] of the star of a
    100 x 100 surface rounds to 1, which is not below 1. *)
Lemma opacity_reaches_one :
  ((0 <=? 0x1.fffffffffffffp-1)%float = true
   /\ (0x1.fffffffffffffp-1 <? 1)%float = true)
  /\ map opacity
       (eval (generateStars (N := binary64 sine_table)
                (fun _ => 0x1.fffffffffffffp-1%float) settings
                (of_int 100) (of_int 100)) init)
     = [@of_int (binary64 sine_table) 1]
  /\ map (fun s => (opacity s <? of_int 1)%num)
       (eval (generateStars (N := binary64 sine_table)
                (fun _ => 0x1.fffffffffffffp-1%float) settings
                (of_int 100) (of_int 100)) init)
     = [false].
Proof. vm_compute. repeat split; reflexivity. Qed.

(** It fails in a frame as well, whenever the sine returns 1 or -1.  With
    [Math.random()] returning 0.27323954473516276 and [Date.now()]
    returning 1000, the argument of the sine is the double nearest to
    PI/2; a sine that returns 1 there, as the usual implementations do,
    gives the star of a 100 x 100 surface the opacity 1 in the frame the
    script runs itself. *)
Lemma binary64_opacity_one (platform_sin : float -> float) :
  platform_sin 0x1.921fb54442d18p+0%float = 1%float ->
  map opacity
    (stars (exec (DOMContentLoaded (N := binary64 platform_sin)
                    (fun _ => 0x1.17cc1b727220cp-2%float) (fun _ => 1000%Z)
                    settings (of_int 100) (of_int 100)) init))
  = [1%float].
Proof.
  intro H. vm_compute. rewrite H. vm_compute. reflexivity.
Qed.

(** With the sine of [sine_table], which is 1 at the double nearest to
    PI/2, this is the state the page is in once the script has run. *)
Lemma frame_opacity_reaches_one :
  map opacity
    (stars (exec (DOMContentLoaded (N := binary64 sine_table)
                    (fun _ => 0x1.17cc1b727220cp-2%float) (fun _ => 1000%Z)
                    settings (of_int 100) (of_int 100)) init))
  = [1%float].
Proof. exact (binary64_opacity_one sine_table eq_refl). Qed.

Local Open Scope float_scope.

(** The script multiplies the time by 0.001, and on the doubles that is
    not the quotient by 1000.  [Math.random()]
    returns 0, so the star of a 100 x 100 surface has the twinkle speed
    0.5, and [Date.now()] returns 1700000000008.  The frame the script
    runs itself takes the sine at (1700000000008 * 0.001) / 0.5 =
    3400000000.0160003, the formula of the specification takes it at
    (1700000000008 / 1000) / 0.5 = 3400000000.016, one unit in the last
    place below.  The absolute values of the sine at the two arguments
    are 0.09404991... and 0.09404943...; for every sine that is accurate
    to 1e-7 there, the opacity the script stores is not the value of the
    formula. *)
Lemma time_scaling_changes_opacity (platform_sin : float -> float) :
  (0x1.813a43p-4 <=? abs (platform_sin 0x1.954fc40008313p+31))%float = true ->
  (abs (platform_sin 0x1.954fc40008313p+31) <=? 1)%float = true ->
  (abs (platform_sin 0x1.954fc40008312p+31) <=? 0x1.813a1d8p-4)%float = true ->
  let w := exec (DOMContentLoaded (N := binary64 platform_sin)
                   (fun _ => 0%float) (fun _ => 1700000000008%Z) settings
                   (of_int 100) (of_int 100)) init in
  let currentTimeMillis := float_of_Z 1700000000008 in
  map twinkleSpeed (stars w) = [Some 0.5%float]
  /\ ((currentTimeMillis * float_lit 1 1000) / 0.5
      = 0x1.954fc40008313p+31)%float
  /\ ((currentTimeMillis / float_of_Z 1000) / 0.5
      = 0x1.954fc40008312p+31)%float
  /\ map opacity (stars w)
     <> [(0.5 + 0.5 * abs (platform_sin
                             ((currentTimeMillis / float_of_Z 1000) / 0.5)))
         %float].
Proof.
  intros H1 H2 H3. cbv zeta.
  split; [vm_compute; reflexivity|].
  split; [vm_compute; reflexivity|].
  split; [vm_compute; reflexivity|].
  vm_compute. intro Heq. injection Heq as Heq.
  set (sn1 := platform_sin 0x1.954fc40008313p+31) in *.
  set (sn2 := platform_sin 0x1.954fc40008312p+31) in *.
  (* the opacity of the script is at least 0.5 + 0.0940497.../2 *)
  pose proof (abs_leb_finite sn1 1 eq_refl H2) as F1.
  destruct (abs_finite sn1 F1) as (Na1 & Ea1).
  apply (leb_mag 0x1.813a43p-4 (abs sn1) eq_refl Na1) in H1.
  apply (leb_mag (abs sn1) 1 Na1 eq_refl) in H2.
  rewrite Ea1 in H1, H2.
  pose proof (mag_nonneg sn1) as P1.
  destruct (mul_le sn1 0.5 0.5 F1 eq_refl eq_refl) as (Fq1 & Uq1 & _).
  { change (mag 1) with (2 ^ 1074)%Z in H2.
    rewrite (Z.mul_comm (mag 0.5)).
    apply Z.mul_le_mono_nonneg_r; [apply mag_nonneg|exact H2]. }
  assert (mag 0x1.813a43p-5 <= mag (sn1 * 0.5))%Z as Lq1.
  { apply mul_ge; auto; [reflexivity|].
    change (mag 0x1.813a43p-5 * 2 ^ 1074)%Z
      with (mag 0x1.813a43p-4 * mag 0.5)%Z.
    apply Z.mul_le_mono_nonneg_r; [apply mag_nonneg|exact H1]. }
  destruct (abs_finite (sn1 * 0.5) Fq1) as (Nq1 & Eq1).
  destruct (add_range 0.5 (abs (sn1 * 0.5)) 0x1.1813a43p-1 1 eq_refl Nq1
              eq_refl eq_refl) as (_ & Lo1 & _).
  { reflexivity. }
  { rewrite Eq1.
    change (mag 0x1.1813a43p-1) with (mag 0.5 + mag 0x1.813a43p-5)%Z.
    change (mag 1) with (mag 0.5 + mag 0.5)%Z. lia. }
  (* the value of the formula is at most 0.5 + 0.0940495.../2 *)
  pose proof (abs_leb_finite sn2 0x1.813a1d8p-4 eq_refl H3) as F2.
  destruct (abs_finite sn2 F2) as (Na2 & Ea2).
  apply (leb_mag (abs sn2) 0x1.813a1d8p-4 Na2 eq_refl) in H3.
  destruct (mul_le 0.5 (abs sn2) 0x1.813a1d8p-5 eq_refl
              (nonneg_finite _ Na2) eq_refl) as (_ & Up2 & Np2).
  { change (mag 0x1.813a1d8p-5 * 2 ^ 1074)%Z
      with (mag 0.5 * mag 0x1.813a1d8p-4)%Z.
    apply Z.mul_le_mono_nonneg_l; [apply mag_nonneg|exact H3]. }
  specialize (Np2 eq_refl Na2).
  pose proof (mag_nonneg (0.5 * abs sn2)) as P2.
  destruct (add_range 0.5 (0.5 * abs sn2) 0.5 0x1.1813a1d8p-1 eq_refl Np2
              eq_refl eq_refl) as (_ & _ & Hi2).
  { reflexivity. }
  { change (mag 0x1.1813a1d8p-1) with (mag 0.5 + mag 0x1.813a1d8p-5)%Z. lia. }
  assert (mag 0x1.1813a1d8p-1 < mag 0x1.1813a43p-1)%Z as Hgap by reflexivity.
  rewrite Heq in Lo1. lia.
Qed.

(** C2 as stated fails: on that page, with the sine rounded to nearest at
    the two arguments ([sine_table]), the opacity stored by the frame is
    0.5 + 0.5 * 0.09404991... and the value of the stated formula is
    0.5 + 0.5 * 0.09404943.... *)
Lemma render_opacity_not_quotient :
  map twinkleSpeed
    (stars (exec (DOMContentLoaded (N := binary64 sine_table)
                    (fun _ => 0) (fun _ => 1700000000008%Z) settings
                    (of_int 100) (of_int 100)) init))
  = [Some 0.5]
  /\ (float_of_Z 1700000000008 * float_lit 1 1000) / 0.5
     = 0x1.954fc40008313p+31
  /\ (float_of_Z 1700000000008 / float_of_Z 1000) / 0.5
     = 0x1.954fc40008312p+31
  /\ map opacity
       (stars (exec (DOMContentLoaded (N := binary64 sine_table)
                       (fun _ => 0) (fun _ => 1700000000008%Z) settings
                       (of_int 100) (of_int 100)) init))
     <> [0.5 + 0.5 * abs (sine_table
                            ((float_of_Z 1700000000008 / float_of_Z 1000)
                             / 0.5))].
Proof.
  exact (time_scaling_changes_opacity sine_table eq_refl eq_refl eq_refl).
Qed.

Local Close Scope float_scope.

(** In exact arithmetic, too, the opacity reaches 1 in a frame.
    [Math.random()] returns 4/PI - 1 (about 0.27),
    so the one star of a 100 x 100 surface gets the twinkle speed 2/PI;
    [Date.now()] returns 1000.  The first frame, run by the script itself,
    computes 0.5 + |sin (1 / (2/PI)) * 0.5| = 0.5 + |sin (PI/2)| * 0.5 = 1:
    the state after the script has run holds a star of opacity 1. *)
Lemma opacity_reaches_one_exact :
  (forall n : nat, 0 <= (fun _ : nat => 4 / PI - 1) n < 1)%R
  /\ reachable (N := real_number) (fun _ => 4 / PI - 1)%R (fun _ => 1000%Z)
       settings
       (exec (DOMContentLoaded (N := real_number) (fun _ => 4 / PI - 1)%R (fun _ => 1000%Z)
                settings 100%R 100%R) init)
  /\ ~ Forall (fun s : @Star real_number => 0.5 <= opacity s < 1)%R
         (stars (exec (DOMContentLoaded (N := real_number)
                         (fun _ => 4 / PI - 1)%R (fun _ => 1000%Z) settings
                         100%R 100%R) init)).
Proof.
  pose proof PI2_1 as Hpi. pose proof PI_4 as Hpi4.
  assert (0 < / PI)%R as Hinv by (apply Rinv_0_lt_compat; lra).
  assert (PI * / PI = 1)%R as Hone by (apply Rinv_r; lra).
  split; [|split].
  - intro n. cbv beta. unfold Rdiv. split; nra.
  - apply reachable_loaded.
  - rewrite (loaded_visible_stars (N := real_number) _ _ _ 100%R 100%R
               visible_100).
    rewrite generateStars_100. cbn [twinkled twinkleSpeed].
    intro H. inversion H as [|s l Hs _]; subst. cbn [opacity] in Hs.
    unfold twinkle in Hs. cbn in Hs.
    replace (1000 * 0.001)%R with 1%R in Hs by lra.
    replace (0.5 + (4 / PI - 1) * (1 - 0.5))%R with (2 / PI)%R in Hs
      by (unfold Rdiv; lra).
    replace (1 / (2 / PI))%R with (PI / 2)%R in Hs by (field; lra).
    rewrite sin_PI2, Rabs_right in Hs by lra.
    lra.
Qed.

End Pages.

(** * The star script: draws, cost of a frame, bitmap, hidden canvas *)

Section StarFacts.

Context {N : Number}.

Variable random_source : nat -> num.
Variable clock : nat -> Z.
Variable cfg : Settings.

(** ** The draws of [generateStars] *)

Lemma new_star_all_twinkle (width height : num) (w : World) :
  allStarsTwinkle cfg = true ->
  new_star random_source cfg width height w
  = ({| x := (random_source (random_calls w) * width)%num;
        y := (random_source (1 + random_calls w) * height)%num;
        radius := (random_source (2 + random_calls w) * lit 5 100 + lit 5 10)%num;
        opacity := (random_source (3 + random_calls w) * lit 5 10 + lit 5 10)%num;
        twinkleSpeed :=
          Some (minTwinkleSpeed cfg
                + random_source (4 + random_calls w)
                  * (maxTwinkleSpeed cfg - minTwinkleSpeed cfg))%num |},
     set_random_calls (5 + random_calls w) w).
Proof.
  intro Hall. unfold new_star, Math_random. rewrite Hall.
  cbv [bind ret get modify set_random_calls random_calls].
  destruct w; reflexivity.
Qed.

Lemma generate_loop_all_twinkle (width height : num) (n : nat) :
  allStarsTwinkle cfg = true ->
  forall acc w,
    generate_loop random_source cfg width height n acc w
    = (acc ++ map (fun i =>
                     {| x := (random_source (5 * i + random_calls w) * width)%num;
                        y := (random_source (1 + (5 * i + random_calls w))
                              * height)%num;
                        radius := (random_source (2 + (5 * i + random_calls w))
                                   * lit 5 100 + lit 5 10)%num;
                        opacity := (random_source (3 + (5 * i + random_calls w))
                                    * lit 5 10 + lit 5 10)%num;
                        twinkleSpeed :=
                          Some (minTwinkleSpeed cfg
                                + random_source (4 + (5 * i + random_calls w))
                                  * (maxTwinkleSpeed cfg - minTwinkleSpeed cfg))%num
                     |}) (seq 0 n),
       set_random_calls (5 * n + random_calls w) w).
Proof.
  intro Hall. induction n as [|n IH]; intros acc w.
  - cbn [generate_loop seq map]. unfold ret. rewrite app_nil_r.
    destruct w; reflexivity.
  - cbn [generate_loop]. unfold bind.
    rewrite (new_star_all_twinkle width height w Hall), IH.
    cbn [random_calls set_random_calls].
    rewrite <- app_assoc. cbn [app seq map]. rewrite <- seq_shift, map_map.
    f_equal.
    + f_equal. f_equal.
      apply map_ext. intro i.
      replace (5 * i + (5 + random_calls w))%nat
        with (5 * S i + random_calls w)%nat by lia.
      reflexivity.
    + destruct w. unfold set_random_calls. cbn. f_equal. lia.
Qed.

(** X1: With [allStarsTwinkle] set, a call of [generateStars] whose loop ends
    takes five values of [Math.random()] per star and nothing else from
    the page: star [i] is made of the values number [5i] to [5i + 4] that
    follow the ones drawn before, for x, y, radius, opacity and twinkle
    speed in this order. *)
Theorem generateStars_draw_order (width height : num) (w : World) :
  allStarsTwinkle cfg = true ->
  loop_ends cfg width height = true ->
  exists result,
    generateStars_call random_source cfg width height w
    = Some (result, set_random_calls (5 * length result + random_calls w) w)
    /\ forall i s,
         nth_error result i = Some s ->
         let k := (5 * i + random_calls w)%nat in
         x s = (random_source k * width)%num
         /\ y s = (random_source (1 + k) * height)%num
         /\ radius s = (random_source (2 + k) * lit 5 100 + lit 5 10)%num
         /\ opacity s = (random_source (3 + k) * lit 5 10 + lit 5 10)%num
         /\ twinkleSpeed s
            = Some (minTwinkleSpeed cfg
                    + random_source (4 + k)
                      * (maxTwinkleSpeed cfg - minTwinkleSpeed cfg))%num.
Proof.
  intros Hall Hends. unfold generateStars_call. rewrite Hends.
  unfold generateStars.
  rewrite (generate_loop_all_twinkle width height _ Hall). cbn [app].
  eexists. split.
  - rewrite length_map, length_seq. reflexivity.
  - intros i s Hn. cbv zeta.
    rewrite nth_error_map in Hn.
    destruct (nth_error (seq 0 (passes (numStars cfg width height))) i)
      as [j|] eqn:Hj; [|discriminate].
    assert (j = i) as ->.
    { assert (i < length (seq 0 (passes (numStars cfg width height))))%nat
        as Hlt by (apply nth_error_Some; congruence).
      rewrite length_seq in Hlt.
      pose proof (nth_error_nth _ _ 0%nat Hj) as Hnth.
      rewrite (seq_nth _ _ Hlt) in Hnth. lia. }
    cbn in Hn. injection Hn as <-. cbn. repeat split.
Qed.

Lemma new_star_tested (width height : num) (w : World) :
  allStarsTwinkle cfg = false ->
  let r := random_calls w in
  let t := (random_source r <? twinkleProbability cfg)%num in
  new_star random_source cfg width height w
  = ({| x := (random_source (1 + r) * width)%num;
        y := (random_source (2 + r) * height)%num;
        radius := (random_source (3 + r) * lit 5 100 + lit 5 10)%num;
        opacity := (random_source (4 + r) * lit 5 10 + lit 5 10)%num;
        twinkleSpeed :=
          if t then Some (minTwinkleSpeed cfg
                          + random_source (5 + r)
                            * (maxTwinkleSpeed cfg - minTwinkleSpeed cfg))%num
          else None |},
     set_random_calls ((if t then 6 else 5) + r) w).
Proof.
  intro Hall. cbv zeta. unfold new_star, Math_random. rewrite Hall.
  cbv [bind ret get modify set_random_calls random_calls].
  destruct w as [st id cw ch fc nf ob rc cr cl].
  destruct (random_source rc <? twinkleProbability cfg)%num; reflexivity.
Qed.

(** X2: With [allStarsTwinkle] off, every star starts with a draw that is
    compared with [twinkleProbability]: the star twinkles exactly when the
    draw is below it.  The next four draws give x, y, radius and opacity,
    and a twinkling star takes one more for its speed; so a call whose
    loop ends makes five draws per star and one more per twinkling
    star. *)
Theorem generateStars_twinkle_test (width height : num) (w : World) :
  allStarsTwinkle cfg = false ->
  loop_ends cfg width height = true ->
  exists result w',
    generateStars_call random_source cfg width height w = Some (result, w')
    /\ random_calls w'
       = (random_calls w + 5 * length result + twinkling result)%nat
    /\ Forall (fun s =>
                 exists k,
                   (random_calls w <= k)%nat
                   /\ twinkles s
                      = (random_source k <? twinkleProbability cfg)%num
                   /\ x s = (random_source (1 + k) * width)%num
                   /\ y s = (random_source (2 + k) * height)%num
                   /\ radius s
                      = (random_source (3 + k) * lit 5 100 + lit 5 10)%num
                   /\ opacity s
                      = (random_source (4 + k) * lit 5 10 + lit 5 10)%num
                   /\ twinkleSpeed s
                      = if twinkles s
                        then Some (minTwinkleSpeed cfg
                                   + random_source (5 + k)
                                     * (maxTwinkleSpeed cfg
                                        - minTwinkleSpeed cfg))%num
                        else None) result.
Proof.
  intros Hall Hends.
  set (P := fun (r : nat) (s : Star) =>
              exists k,
                (r <= k)%nat
                /\ twinkles s = (random_source k <? twinkleProbability cfg)%num
                /\ x s = (random_source (1 + k) * width)%num
                /\ y s = (random_source (2 + k) * height)%num
                /\ radius s = (random_source (3 + k) * lit 5 100 + lit 5 10)%num
                /\ opacity s = (random_source (4 + k) * lit 5 10 + lit 5 10)%num
                /\ twinkleSpeed s
                   = if twinkles s
                     then Some (minTwinkleSpeed cfg
                                + random_source (5 + k)
                                  * (maxTwinkleSpeed cfg - minTwinkleSpeed cfg))%num
                     else None).
  assert (forall n acc w0,
             exists l,
               generate_loop random_source cfg width height n acc w0
               = (acc ++ l,
                  set_random_calls
                    (random_calls w0 + 5 * length l + twinkling l) w0)
               /\ Forall (P (random_calls w0)) l) as Hloop.
  { induction n as [|n IH]; intros acc w0.
    - exists []. cbn [generate_loop]. unfold ret. rewrite app_nil_r.
      split; [|constructor]. f_equal. destruct w0. unfold set_random_calls.
      cbn. f_equal. unfold twinkling. simpl. lia.
    - cbn [generate_loop]. unfold bind.
      rewrite (new_star_tested width height w0 Hall). cbv zeta.
      set (t := (random_source (random_calls w0) <? twinkleProbability cfg)%num).
      set (s0 := {| x := (random_source (1 + random_calls w0) * width)%num;
                    y := (random_source (2 + random_calls w0) * height)%num;
                    radius := (random_source (3 + random_calls w0) * lit 5 100
                               + lit 5 10)%num;
                    opacity := (random_source (4 + random_calls w0) * lit 5 10
                                + lit 5 10)%num;
                    twinkleSpeed :=
                      if t
                      then Some (minTwinkleSpeed cfg
                                 + random_source (5 + random_calls w0)
                                   * (maxTwinkleSpeed cfg - minTwinkleSpeed cfg))%num
                      else None |}).
      destruct (IH (acc ++ [s0])
                  (set_random_calls ((if t then 6 else 5) + random_calls w0) w0))
        as (l & Hl & HP).
      exists (s0 :: l). rewrite Hl. cbn [random_calls set_random_calls] in *.
      assert (twinkles s0 = t) as Ht.
      { unfold twinkles, s0. cbn. destruct t; reflexivity. }
      split.
      + rewrite <- app_assoc. cbn [app]. f_equal.
        rewrite twinkling_cons, Ht. destruct w0. unfold set_random_calls. cbn.
        f_equal. destruct t; lia.
      + constructor.
        * exists (random_calls w0). rewrite Ht.
          split; [lia|]. repeat split.
        * eapply Forall_impl; [|exact HP].
          intros a (k & Hk & Ha). exists k. split; [|exact Ha].
          destruct t; lia. }
  unfold generateStars_call. rewrite Hends. unfold generateStars.
  destruct (Hloop (passes (numStars cfg width height)) [] w) as (l & Hl & HP).
  rewrite Hl. cbn [app]. exists l. eexists. split; [reflexivity|].
  split; [reflexivity|exact HP].
Qed.

(** ** The cost of a frame *)

Lemma star_calls_length (s : Star) :
  length (star_calls s) = (4 + if twinkles s then 1 else 0)%nat.
Proof. unfold star_calls, twinkles. destruct (twinkleSpeed s); reflexivity. Qed.

Lemma flat_map_star_calls_length (l : list Star) :
  length (flat_map star_calls l) = (4 * length l + twinkling l)%nat.
Proof.
  induction l as [|s l IH]; [reflexivity|].
  cbn [flat_map]. rewrite length_app, IH, star_calls_length, twinkling_cons.
  cbn [length]. destruct (twinkles s); lia.
Qed.

(** X3: One run of [render] makes four context calls per star, reads the
    clock once per twinkling star, each star at its own reading, clears
    the bitmap once and requests one frame; it draws no random value.
    Once the script has run with [allStarsTwinkle] set, every star
    twinkles, so a frame reads the clock as often as there are stars. *)
Theorem frame_cost :
  (forall w,
      let w' := exec (render clock) w in
      length (new_calls w w')
      = (2 + 4 * length (stars w) + twinkling (stars w))%nat
      /\ clock_reads w' = (clock_reads w + twinkling (stars w))%nat
      /\ random_calls w' = random_calls w
      /\ count_renders (new_calls w w') = 1%nat)
  /\ (allStarsTwinkle cfg = true ->
      forall w,
        reachable random_source clock cfg w ->
        twinkling (stars w) = length (stars w)).
Proof.
  split.
  - intro w. cbv zeta. rewrite render_new_calls, render_exec.
    cbn [clock_reads random_calls length].
    rewrite length_app, flat_map_star_calls_length. cbn [length].
    split; [lia|]. split; [reflexivity|]. split; [reflexivity|].
    unfold count_renders. cbn [filter length]. rewrite filter_app.
    cbn [filter]. rewrite app_nil_r.
    assert (forall l, filter (fun c => match c with
                                       | Call_clearRect _ _ _ _ => true
                                       | _ => false
                                       end) (flat_map star_calls l) = []) as H0.
    { induction l as [|s l IH]; [reflexivity|].
      cbn [flat_map]. rewrite filter_app, IH. unfold star_calls.
      destruct (twinkleSpeed s); reflexivity. }
    rewrite H0. reflexivity.
  - intros Hall w Hr.
    assert (Forall (fun s => twinkles s = true) (stars w)) as Hs.
    { apply (reachable_stars random_source clock cfg
               (fun s => twinkles s = true)); [| |exact Hr].
      - intros width height w0.
        destruct (generateStars_eval random_source cfg width height w0)
          as [_ Hg].
        eapply Forall_impl; [|exact Hg].
        intros s (_ & _ & _ & _ & [[Hf _]|[e He]]); [congruence|].
        unfold twinkles. rewrite He. reflexivity.
      - intros k s speed Hs Hsp. unfold twinkles. cbn. rewrite Hsp.
        reflexivity. }
    unfold twinkling. induction Hs as [|s l Hs _ IH]; [reflexivity|].
    cbn [filter]. rewrite Hs. cbn [length]. rewrite IH. reflexivity.
Qed.

(** ** The bitmap *)

(** X4: The bitmap of the canvas has the size of the last surface the resize
    handler has seen with a width and a height other than zero, as the
    size attributes of a canvas hold it (an unsigned long, the default
    300 or 150 when it is above 2147483647); frames, hidden surfaces and
    the teardown leave it as it is. *)
Theorem canvas_bitmap_follows_surface (evs : list Event) :
  forall w w',
    run random_source clock cfg evs w = Some w' ->
    (canvas_width w', canvas_height w')
    = fold_left (fun size e =>
                   match e with
                   | Resize width height =>
                       if visible width height
                       then (reflected 300 width, reflected 150 height)
                       else size
                   | _ => size
                   end) evs (canvas_width w, canvas_height w).
Proof.
  induction evs as [|e evs IH]; intros w w' Hrun; cbn [run fold_left] in *.
  - injection Hrun as <-. reflexivity.
  - destruct (deliver random_source clock cfg e w) as [w1|] eqn:Hd;
      [|discriminate].
    rewrite (IH w1 w' Hrun). f_equal.
    destruct e as [|width height|]; cbn [deliver] in Hd.
    + destruct (frame_callbacks w) as [|h rest]; [discriminate|].
      injection Hd as <-. rewrite render_exec. reflexivity.
    + destruct (observing w); [|discriminate]. injection Hd as <-.
      destruct (visible width height) eqn:Hv.
      * destruct (updateStars_visible_exec random_source clock cfg
                    width height w Hv) as (k & Hk).
        cbv zeta in Hk. rewrite Hk.
        destruct (animationFrameId w); [reflexivity|].
        rewrite render_exec. reflexivity.
      * rewrite updateStars_hidden_exec by exact Hv. reflexivity.
    + injection Hd as <-. rewrite beforeunload_exec. reflexivity.
Qed.

(** ** A canvas that is never shown *)

Lemma live_idle_untouched (w : World) :
  live random_source clock cfg w -> is_idle w = true ->
  w = set_observing true init.
Proof.
  induction 1 as [width height|e w w' Hl IH Hu Hd]; intro Hi.
  - destruct (loaded_step random_source clock cfg width height) as [_ H].
    rewrite H in Hi. apply negb_true_iff in Hi.
    rewrite DOMContentLoaded_exec, updateStars_hidden_exec by exact Hi.
    reflexivity.
  - assert (is_unload e = false) as Hue by (destruct e; auto; congruence).
    destruct (deliver_step random_source clock cfg e w w'
                (live_coherent random_source clock cfg w Hl) Hue Hd)
      as [_ Hi'].
    rewrite Hi in Hi'. symmetry in Hi'. apply andb_true_iff in Hi' as [Hw Hv].
    specialize (IH Hw).
    destruct e as [|width height|]; cbn [deliver] in Hd.
    + rewrite IH in Hd. discriminate.
    + destruct (observing w); [|discriminate]. injection Hd as <-.
      cbn [sees_visible] in Hv. apply negb_true_iff in Hv.
      rewrite updateStars_hidden_exec by exact Hv. exact IH.
    + contradiction.
Qed.

(** X5: While the canvas has never had a width and a height other than zero,
    the script has done nothing but install its observer: no star, no
    draw, no clock read, no call on the context, the default bitmap. *)
Theorem hidden_canvas_untouched (w : World) :
  live random_source clock cfg w ->
  animation_state w = Idle ->
  w = set_observing true init
  /\ stars w = [] /\ calls w = [] /\ random_calls w = 0%nat
  /\ clock_reads w = 0%nat
  /\ canvas_width w = 300%Z /\ canvas_height w = 150%Z.
Proof.
  intros Hl Ha.
  assert (is_idle w = true) as Hi by (unfold is_idle; rewrite Ha; reflexivity).
  rewrite (live_idle_untouched w Hl Hi). repeat split.
Qed.

(** X6: The teardown of a page whose animation never started: the handler
    calls [cancelAnimationFrame] with [undefined], which cancels nothing,
    and unsubscribes the observer; afterwards the browser can deliver
    neither a frame nor a resize notification, so the animation cannot
    start any more. *)
Theorem beforeunload_while_idle (w : World) :
  live random_source clock cfg w ->
  animation_state w = Idle ->
  let w' := exec beforeunload w in
  new_calls w w' = [Call_cancelAnimationFrame None; Call_unobserve]
  /\ frame_callbacks w' = []
  /\ observing w' = false
  /\ stars w' = []
  /\ (forall w'',
         reachable_from random_source clock cfg w' w'' ->
         deliver random_source clock cfg Frame w'' = None
         /\ (forall width height,
                deliver random_source clock cfg (Resize width height) w'' = None)
         /\ stars w'' = []
         /\ count_renders (calls w'') = 0%nat).
Proof.
  intros Hl Ha. cbv zeta.
  assert (is_idle w = true) as Hi by (unfold is_idle; rewrite Ha; reflexivity).
  rewrite (live_idle_untouched w Hl Hi).
  split; [reflexivity|]. split; [reflexivity|]. split; [reflexivity|].
  split; [reflexivity|].
  intros w'' Hr.
  destruct (torn_down_stays random_source clock cfg
              (exec beforeunload (set_observing true init)) w''
              eq_refl eq_refl Hr)
    as (H1 & H2 & _ & H4 & H5).
  cbn [deliver]. rewrite H1, H2, H4, H5. repeat split.
Qed.

End StarFacts.

(** * The star script on concrete pages, on the doubles *)

Section StarExamples.

Import Binary64.

Local Abbreviation doubles := (binary64 sine_table).
Local Abbreviation zeros := (fun _ : nat => @of_int doubles 0).
Local Abbreviation noon := (fun _ : nat => 1000%Z).
Local Abbreviation px := (@of_int doubles).

(** The settings of the script with [allStarsTwinkle] turned off. *)
Local Abbreviation tested :=
  (@Build_Settings doubles (@lit doubles 15 100000) (@lit doubles 5 10)
     (@of_int doubles 1) (@lit doubles 7 10) false).

(** A 100 x 100 surface holds one star, made of five draws. *)
Lemma generateStars_draw_order_witness :
  exists result,
    generateStars_call (N := doubles) zeros settings (px 100) (px 100) init
    = Some (result, set_random_calls (5 * length result + 0) init).
Proof.
  destruct (generateStars_draw_order (N := doubles) zeros settings
              (px 100) (px 100) init eq_refl eq_refl) as (result & H & _).
  exists result. exact H.
Defined.

(** The same surface with the flag off: the draw 0 is below 0.7, so the
    star twinkles and takes six draws. *)
Lemma generateStars_twinkle_test_witness :
  exists result w',
    generateStars_call (N := doubles) zeros tested (px 100) (px 100) init
    = Some (result, w')
    /\ random_calls w' = (0 + 5 * length result + twinkling result)%nat.
Proof.
  destruct (generateStars_twinkle_test (N := doubles) zeros tested
              (px 100) (px 100) init eq_refl eq_refl)
    as (result & w' & H1 & H2 & _).
  exists result, w'. split; [exact H1|exact H2].
Defined.

Lemma frame_cost_witness :
  twinkling (stars (exec (DOMContentLoaded (N := doubles) zeros noon settings
                            (px 100) (px 100)) init)) = 1%nat.
Proof.
  exact (proj2 (frame_cost (N := doubles) zeros noon settings) eq_refl
           (exec (DOMContentLoaded (N := doubles) zeros noon settings
                    (px 100) (px 100)) init)
           (reachable_loaded zeros noon settings (px 100) (px 100))).
Defined.

(** A hidden canvas that is shown at 100 x 50. *)
Lemma canvas_bitmap_follows_surface_witness :
  (canvas_width
     (exec (updateStars (N := doubles) zeros noon settings (px 100) (px 50))
        (set_observing true init)),
   canvas_height
     (exec (updateStars (N := doubles) zeros noon settings (px 100) (px 50))
        (set_observing true init)))
  = (100%Z, 50%Z).
Proof.
  rewrite (canvas_bitmap_follows_surface (N := doubles) zeros noon settings
             [Resize (px 100) (px 50)] (set_observing true init)
             (exec (updateStars (N := doubles) zeros noon settings
                      (px 100) (px 50)) (set_observing true init))
             eq_refl).
  vm_compute. reflexivity.
Defined.

Lemma hidden_canvas_untouched_witness :
  exec (DOMContentLoaded (N := doubles) zeros noon settings (px 0) (px 150)) init
  = set_observing true init.
Proof.
  exact (proj1 (hidden_canvas_untouched (N := doubles) zeros noon settings
                  (exec (DOMContentLoaded (N := doubles) zeros noon settings
                           (px 0) (px 150)) init)
                  (live_loaded zeros noon settings (px 0) (px 150)) eq_refl)).
Defined.

Lemma beforeunload_while_idle_witness :
  let hidden :=
    exec (DOMContentLoaded (N := doubles) zeros noon settings (px 0) (px 150))
      init in
  new_calls hidden (exec beforeunload hidden)
  = [Call_cancelAnimationFrame None; Call_unobserve].
Proof.
  exact (proj1 (beforeunload_while_idle (N := doubles) zeros noon settings
                  (exec (DOMContentLoaded (N := doubles) zeros noon settings
                           (px 0) (px 150)) init)
                  (live_loaded zeros noon settings (px 0) (px 150)) eq_refl)).
Defined.

End StarExamples.

(** * The page script: what its handlers do *)

Section PageFacts.

Import Page.
Import Stdlib.Strings.String.StringSyntax.
Local Open Scope string_scope.

Variable doc : Document.

(** ** Stores and token lists *)

Lemma upd_same {X : Type} (f : node -> X) (n : node) (v : X) : upd f n v n = v.
Proof. unfold upd. rewrite Nat.eqb_refl. reflexivity. Qed.

Lemma upd_other {X : Type} (f : node -> X) (n m : node) (v : X) :
  m <> n -> upd f n v m = f m.
Proof.
  intro H. unfold upd. destruct (Nat.eqb_spec m n); [contradiction|reflexivity].
Qed.

Ltac upd_simpl :=
  repeat (rewrite upd_same || rewrite upd_other by congruence).

Lemma contains_app (l l' : list String.string) (t : String.string) :
  contains (l ++ l') t = contains l t || contains l' t.
Proof. unfold contains. apply existsb_app. Qed.

Lemma contains_single_same (t : String.string) : contains [t] t = true.
Proof. unfold contains. simpl. rewrite String.eqb_refl. reflexivity. Qed.

Lemma contains_single_other (t u : String.string) :
  t <> u -> contains [t] u = false.
Proof.
  intro H. unfold contains. simpl.
  destruct (String.eqb_spec u t); [congruence|reflexivity].
Qed.

Lemma contains_remove_same (l : list String.string) (t : String.string) :
  contains (tokens_remove l t) t = false.
Proof.
  unfold contains, tokens_remove.
  induction l as [|a l IH]; simpl; [reflexivity|].
  destruct (String.eqb t a) eqn:E; simpl; [exact IH|].
  rewrite E. exact IH.
Qed.

Lemma contains_remove_other (l : list String.string) (t u : String.string) :
  t <> u -> contains (tokens_remove l t) u = contains l u.
Proof.
  intro H. unfold contains, tokens_remove.
  induction l as [|a l IH]; simpl; [reflexivity|].
  destruct (String.eqb_spec t a) as [->|Hta]; simpl.
  - destruct (String.eqb_spec u a); [congruence|]. exact IH.
  - rewrite IH. reflexivity.
Qed.

Lemma tokens_remove_absent (l : list String.string) (t : String.string) :
  contains l t = false -> tokens_remove l t = l.
Proof.
  unfold contains, tokens_remove.
  induction l as [|a l IH]; simpl; [reflexivity|].
  intro H. apply orb_false_iff in H as [Ha Hl].
  rewrite Ha. simpl. f_equal. apply IH. exact Hl.
Qed.

Lemma tokens_remove_app (l l' : list String.string) (t : String.string) :
  tokens_remove (l ++ l') t = tokens_remove l t ++ tokens_remove l' t.
Proof. unfold tokens_remove. apply filter_app. Qed.

Lemma contains_toggle_same (l : list String.string) (t : String.string) :
  contains (tokens_toggle l t) t = negb (contains l t).
Proof.
  unfold tokens_toggle. destruct (contains l t) eqn:E; simpl.
  - apply contains_remove_same.
  - rewrite contains_app, E, contains_single_same. reflexivity.
Qed.

Lemma contains_toggle_other (l : list String.string) (t u : String.string) :
  t <> u -> contains (tokens_toggle l t) u = contains l u.
Proof.
  intro H. unfold tokens_toggle. destruct (contains l t).
  - apply contains_remove_other. exact H.
  - rewrite contains_app, contains_single_other by exact H.
    apply orb_false_r.
Qed.

Lemma contains_add_same (l : list String.string) (t : String.string) :
  contains (tokens_add l t) t = true.
Proof.
  unfold tokens_add. destruct (contains l t) eqn:E; [exact E|].
  rewrite contains_app, contains_single_same. apply orb_true_r.
Qed.

Lemma contains_add_other (l : list String.string) (t u : String.string) :
  t <> u -> contains (tokens_add l t) u = contains l u.
Proof.
  intro H. unfold tokens_add. destruct (contains l t); [reflexivity|].
  rewrite contains_app, contains_single_other by exact H. apply orb_false_r.
Qed.

Lemma tokens_toggle_twice (l : list String.string) (t : String.string) :
  contains l t = false -> tokens_toggle (tokens_toggle l t) t = l.
Proof.
  intro H. unfold tokens_toggle at 2. rewrite H.
  unfold tokens_toggle. rewrite contains_app, H, contains_single_same. simpl.
  rewrite tokens_remove_app, (tokens_remove_absent l t H).
  unfold tokens_remove. simpl. rewrite String.eqb_refl. simpl.
  apply app_nil_r.
Qed.

(** ** Listeners installed over a node list *)

Lemma each_addEventListener (type : String.string) (cb : node -> Callback)
      (l : list node) :
  forall d,
    each (fun n => addEventListener (Node n) type (cb n)) l d
    = (Normal tt,
       set_listeners
         (listeners d ++ map (fun n => (Node n, type, cb n)) l) d).
Proof.
  induction l as [|a l IH]; intro d.
  - cbn [each js_ret map]. rewrite app_nil_r. destruct d; reflexivity.
  - cbn [each map]. unfold js_bind at 1. unfold addEventListener at 1.
    cbn [js_modify]. rewrite IH. cbn [listeners set_listeners].
    rewrite <- app_assoc. reflexivity.
Qed.

(** ** Mobile navigation *)

Lemma hamburger_click_after (h n : node) (d : Dom) :
  hamburger doc = Some h -> navLinks doc = Some n ->
  hamburger_click doc d
  = (Normal tt,
     set_classList
       (upd (upd (classList d) h (tokens_toggle (classList d h) "active")) n
          (tokens_toggle
             (upd (classList d) h (tokens_toggle (classList d h) "active") n)
             "active")) d).
Proof. intros Hh Hn. unfold hamburger_click. rewrite Hh, Hn. reflexivity. Qed.

Lemma link_click_after (h n : node) (d : Dom) :
  hamburger doc = Some h -> navLinks doc = Some n ->
  link_click doc d
  = (Normal tt,
     set_classList
       (upd (upd (classList d) h (tokens_remove (classList d h) "active")) n
          (tokens_remove
             (upd (classList d) h (tokens_remove (classList d h) "active") n)
             "active")) d).
Proof. intros Hh Hn. unfold link_click. rewrite Hh, Hn. reflexivity. Qed.



(** X12: A click on a link of the menu closes it, whatever its state: neither
    element is active afterwards, no other token and no other element
    changes, and a second click changes nothing more. *)
Theorem link_click_closes (h n : node) (d : Dom) :
  hamburger doc = Some h -> navLinks doc = Some n ->
  let d' := after (link_click doc) d in
  outcome (link_click doc) d = Normal tt
  /\ active d' h = false /\ active d' n = false
  /\ (forall m t, t <> "active" ->
                  contains (classList d' m) t = contains (classList d m) t)
  /\ (forall m, m <> h -> m <> n -> classList d' m = classList d m)
  /\ (forall m, classList (after (link_click doc) d') m = classList d' m).
Proof.
  intros Hh Hn. cbv zeta. unfold active, after, outcome.
  rewrite !(link_click_after h n _ Hh Hn). cbn [fst snd classList set_classList].
  split; [reflexivity|].
  assert (forall f : node -> list String.string,
             contains (upd (upd f h (tokens_remove (f h) "active")) n
                         (tokens_remove
                            (upd f h (tokens_remove (f h) "active") n) "active")
                         h) "active" = false
             /\ contains (upd (upd f h (tokens_remove (f h) "active")) n
                            (tokens_remove
                               (upd f h (tokens_remove (f h) "active") n)
                               "active") n) "active" = false) as Hoff.
  { intro f. split.
    - destruct (Nat.eq_dec h n) as [->|Hne].
      + rewrite upd_same. apply contains_remove_same.
      + rewrite (upd_other _ n h) by exact Hne. rewrite upd_same.
        apply contains_remove_same.
    - rewrite upd_same. apply contains_remove_same. }
  split; [apply Hoff|]. split; [apply Hoff|]. split; [|split].
  - intros m t Ht.
    destruct (Nat.eq_dec m n) as [->|Hmn].
    + rewrite upd_same, contains_remove_other by congruence.
      destruct (Nat.eq_dec n h) as [->|Hnh].
      * rewrite upd_same. apply contains_remove_other. congruence.
      * rewrite upd_other by exact Hnh. reflexivity.
    + rewrite (upd_other _ n m) by exact Hmn.
      destruct (Nat.eq_dec m h) as [->|Hmh].
      * rewrite upd_same. apply contains_remove_other. congruence.
      * rewrite upd_other by exact Hmh. reflexivity.
  - intros m Hmh Hmn. rewrite !upd_other by assumption. reflexivity.
  - intro m.
    set (f := upd (upd (classList d) h (tokens_remove (classList d h) "active"))
                n (tokens_remove
                     (upd (classList d) h
                        (tokens_remove (classList d h) "active") n) "active")).
    destruct (Hoff (classList d)) as [Fh Fn]. fold f in Fh, Fn.
    destruct (Nat.eq_dec m n) as [->|Hmn].
    + rewrite upd_same.
      destruct (Nat.eq_dec n h) as [->|Hnh].
      * rewrite upd_same.
        rewrite (tokens_remove_absent (f h)) by exact Fh.
        apply tokens_remove_absent. exact Fh.
      * rewrite upd_other by exact Hnh.
        apply tokens_remove_absent. exact Fn.
    + rewrite (upd_other _ n m) by exact Hmn.
      destruct (Nat.eq_dec m h) as [->|Hmh].
      * rewrite upd_same. apply tokens_remove_absent. exact Fh.
      * rewrite upd_other by exact Hmh. reflexivity.
Qed.

(** X13: Two clicks on the hamburger in a row give every element the class
    set it had (also when both selectors find the same element), and the
    very class lists when the two elements are distinct and were not
    active. *)
Theorem hamburger_click_twice (h n : node) (d : Dom) :
  hamburger doc = Some h -> navLinks doc = Some n ->
  let d'' := after (hamburger_click doc) (after (hamburger_click doc) d) in
  (forall m t, contains (classList d'' m) t = contains (classList d m) t)
  /\ (h <> n -> active d h = false -> active d n = false ->
      forall m, classList d'' m = classList d m).
Proof.
  intros Hh Hn. cbv zeta. unfold active, after.
  rewrite !(hamburger_click_after h n _ Hh Hn). cbn [snd classList set_classList].
  assert (forall l t, contains (tokens_toggle (tokens_toggle l "active") "active") t
                      = contains l t) as Htt.
  { intros l t. destruct (String.eqb_spec "active" t) as [<-|Ht].
    - rewrite !contains_toggle_same. apply negb_involutive.
    - rewrite !contains_toggle_other by exact Ht. reflexivity. }
  split.
  - intros m t.
    destruct (Nat.eq_dec h n) as [->|Hne];
      destruct (Nat.eq_dec m n) as [->|Hmn];
      try destruct (Nat.eq_dec m h) as [->|Hmh];
      upd_simpl; rewrite ?Htt; reflexivity.
  - intros Hne Ah An m.
    destruct (Nat.eq_dec m n) as [->|Hmn];
      [|destruct (Nat.eq_dec m h) as [->|Hmh]];
      upd_simpl; try reflexivity; apply tokens_toggle_twice; assumption.
Qed.

(** X14: Missing elements.  Without a hamburger, [initMobileNav] throws and
    installs no listener, the links included.  With a hamburger and no
    link list it installs the listener of the hamburger, and a click on
    the hamburger then flips the hamburger and throws. *)
Theorem mobile_nav_missing_elements (d : Dom) :
  (hamburger doc = None ->
   outcome (initMobileNav doc) d = TypeError
   /\ after (initMobileNav doc) d = d)
  /\ (forall h,
         hamburger doc = Some h -> navLinks doc = None ->
         outcome (initMobileNav doc) d = Normal tt
         /\ In (Node h, "click", hamburger_click_cb)
              (listeners (after (initMobileNav doc) d))
         /\ outcome (hamburger_click doc) d = TypeError
         /\ active (after (hamburger_click doc) d) h = negb (active d h)).
Proof.
  split.
  - intro Hh. unfold initMobileNav, outcome, after. rewrite Hh. split; reflexivity.
  - intros h Hh Hn. unfold outcome, after, active.
    assert (initMobileNav doc d
            = (Normal tt,
               set_listeners
                 (listeners d
                  ++ (Node h, "click", hamburger_click_cb)
                     :: map (fun link => (Node link, "click", link_click_cb))
                          (navLinksItems doc)) d)) as Hrun.
    { unfold initMobileNav. rewrite Hh. cbn [the].
      unfold js_bind at 1. unfold js_ret. unfold js_bind at 1.
      unfold addEventListener at 1. unfold js_modify.
      rewrite (each_addEventListener "click" (fun _ => link_click_cb)).
      cbn [listeners set_listeners]. rewrite <- app_assoc. reflexivity. }
    rewrite Hrun. cbn [fst snd listeners set_listeners].
    split; [reflexivity|]. split; [|split].
    + apply in_or_app. right. left. reflexivity.
    + unfold hamburger_click. rewrite Hh, Hn. reflexivity.
    + unfold hamburger_click. rewrite Hh, Hn.
      cbn [the js_bind js_ret classList_toggle js_modify throw snd classList
           set_classList].
      rewrite upd_same. apply contains_toggle_same.
Qed.

(** ** Accordion *)

Lemma accordion_click_after (b c : node) (d : Dom) :
  nextElementSibling doc b = Some c ->
  accordion_click doc b d
  = (Normal tt,
     set_next_timer (Pos.succ (next_timer d))
       (set_timeouts (timeouts d ++ [(next_timer d, scroll_update_cb, 500%Z)])
          (set_classList
             (upd (upd (classList d) b (tokens_toggle (classList d b) "active"))
                c (tokens_toggle
                     (upd (classList d) b
                        (tokens_toggle (classList d b) "active") c) "open"))
             d))).
Proof. intro Hc. unfold accordion_click. rewrite Hc. reflexivity. Qed.

Lemma accordion_click_fields (b c : node) (d : Dom) :
  nextElementSibling doc b = Some c ->
  let d' := after (accordion_click doc b) d in
  outcome (accordion_click doc b) d = Normal tt
  /\ active d' b = negb (active d b)
  /\ open d' c = negb (open d c)
  /\ (forall m, m <> b -> m <> c -> classList d' m = classList d m)
  /\ (forall m t, t <> "active" -> t <> "open" ->
                  contains (classList d' m) t = contains (classList d m) t)
  /\ timeouts d' = timeouts d ++ [(next_timer d, scroll_update_cb, 500%Z)]
  /\ lib_calls d' = lib_calls d.
Proof.
  intro Hc. cbv zeta. unfold outcome, after, active, open.
  rewrite (accordion_click_after b c d Hc).
  cbn [fst snd classList timeouts lib_calls set_next_timer set_timeouts
       set_classList].
  split; [reflexivity|]. split; [|split; [|split; [|split; [|split]]]];
    try reflexivity.
  - destruct (Nat.eq_dec b c) as [->|Hbc]; upd_simpl.
    + rewrite contains_toggle_other by discriminate. apply contains_toggle_same.
    + apply contains_toggle_same.
  - upd_simpl. rewrite contains_toggle_same.
    destruct (Nat.eq_dec c b) as [->|Hcb]; upd_simpl; [|reflexivity].
    rewrite contains_toggle_other by discriminate. reflexivity.
  - intros m Hb Hm. upd_simpl. reflexivity.
  - intros m t Ha Ho.
    destruct (Nat.eq_dec m c) as [->|Hmc]; upd_simpl.
    + rewrite contains_toggle_other by congruence.
      destruct (Nat.eq_dec c b) as [->|Hcb]; upd_simpl; [|reflexivity].
      apply contains_toggle_other. congruence.
    + destruct (Nat.eq_dec m b) as [->|Hmb]; upd_simpl; [|reflexivity].
      apply contains_toggle_other. congruence.
Qed.

(** X18: A click on an accordion button flips "active" on the button and
    "open" on the element after it, leaves every other token and every
    other element as it is (no other panel is closed), calls no library,
    and schedules one scroll update 500 ms later. *)
Theorem accordion_click_effect (b c : node) (d : Dom) :
  nextElementSibling doc b = Some c ->
  let d' := after (accordion_click doc b) d in
  outcome (accordion_click doc b) d = Normal tt
  /\ active d' b = negb (active d b)
  /\ open d' c = negb (open d c)
  /\ (forall m, m <> b -> m <> c -> classList d' m = classList d m)
  /\ (forall m t, t <> "active" -> t <> "open" ->
                  contains (classList d' m) t = contains (classList d m) t)
  /\ timeouts d' = timeouts d ++ [(next_timer d, scroll_update_cb, 500%Z)]
  /\ lib_calls d' = lib_calls d.
Proof. exact (accordion_click_fields b c d). Qed.

(** X19: After [k] clicks on the same button, the button is active and its
    panel open exactly when they were and [k] is even, or were not and
    [k] is odd; [k] scroll updates have been scheduled. *)
Theorem accordion_clicks_parity (b c : node) (k : nat) (d : Dom) :
  nextElementSibling doc b = Some c ->
  let d' := Nat.iter k (after (accordion_click doc b)) d in
  active d' b = xorb (Nat.odd k) (active d b)
  /\ open d' c = xorb (Nat.odd k) (open d c)
  /\ List.length (timeouts d') = (List.length (timeouts d) + k)%nat.
Proof.
  intro Hc. cbv zeta. induction k as [|k IH].
  - simpl. repeat split; try reflexivity; try lia.
  - rewrite Nat.odd_succ, <- Nat.negb_odd.
    cbn [Nat.iter nat_rect].
    change (nat_rect (fun _ => Dom) d
              (fun _ => after (accordion_click doc b)) k)
      with (Nat.iter k (after (accordion_click doc b)) d).
    destruct IH as (I1 & I2 & I3).
    destruct (accordion_click_fields b c
                (Nat.iter k (after (accordion_click doc b)) d) Hc)
      as (_ & E1 & E2 & _ & _ & E3 & _).
    cbv zeta in E1, E2, E3. rewrite E1, E2, E3, I1, I2, length_app, I3.
    cbn [List.length]. repeat split; try lia;
      destruct (Nat.odd k), (active d b), (open d c); reflexivity.
Qed.

(** X20: A button with no element after it: the click flips "active" on the
    button and throws; no panel changes and no scroll update is
    scheduled. *)
Theorem accordion_click_no_panel (b : node) (d : Dom) :
  nextElementSibling doc b = None ->
  let d' := after (accordion_click doc b) d in
  outcome (accordion_click doc b) d = TypeError
  /\ active d' b = negb (active d b)
  /\ (forall m, open d' m = open d m)
  /\ timeouts d' = timeouts d
  /\ lib_calls d' = lib_calls d.
Proof.
  intro Hc. cbv zeta. unfold outcome, after, active, open, accordion_click.
  rewrite Hc.
  cbn [the js_bind js_ret classList_toggle js_modify throw fst snd classList
       timeouts lib_calls set_classList].
  split; [reflexivity|]. split; [|split; [|split]]; try reflexivity.
  - upd_simpl. apply contains_toggle_same.
  - intro m. destruct (Nat.eq_dec m b) as [->|Hm]; upd_simpl; [|reflexivity].
    apply contains_toggle_other. discriminate.
Qed.

Lemma find_timer_none (id : positive) (l : list (positive * Callback * Z)) :
  find_timer id l = None ->
  filter (fun t => negb (Pos.eqb (fst (fst t)) id)) l = l.
Proof.
  unfold find_timer. induction l as [|t l IH]; [reflexivity|].
  cbn [find filter]. destruct (Pos.eqb (fst (fst t)) id); [discriminate|].
  intro H. cbn [negb]. f_equal. apply IH. exact H.
Qed.

Lemma find_timer_last (id : positive) (c : Callback) (delay : Z)
      (l : list (positive * Callback * Z)) :
  find_timer id l = None ->
  find_timer id (l ++ [(id, c, delay)]) = Some c.
Proof.
  unfold find_timer. induction l as [|t l IH].
  - intros _. cbn. rewrite Pos.eqb_refl. reflexivity.
  - cbn [find app]. destruct (Pos.eqb (fst (fst t)) id); [discriminate|].
    exact IH.
Qed.

Lemma fire_scroll_update (id : positive) (old : list (positive * Callback * Z))
      (d : Dom) :
  timeouts d = old ++ [(id, scroll_update_cb, 500%Z)] ->
  find_timer id old = None ->
  fire_timeout doc id d
  = Some (if locoScroll d
          then set_lib_calls (lib_calls d ++ [locoScroll_update])
                 (set_timeouts old d)
          else set_timeouts old d).
Proof.
  intros Ht Hfresh. unfold fire_timeout.
  rewrite Ht, (find_timer_last _ _ _ _ Hfresh). cbn [timer_callback].
  rewrite filter_app, (find_timer_none _ _ Hfresh).
  cbn [filter fst negb]. rewrite Pos.eqb_refl. cbn [negb]. rewrite app_nil_r.
  unfold after, scroll_update, js_bind, js_get.
  cbn [locoScroll set_timeouts].
  destruct (locoScroll d); reflexivity.
Qed.


(** ** Reveal on scroll *)

Lemma reveal_call_after (func dir : String.string) (el : node) (d : Dom) :
  reveal_call func dir el d
  = (Normal tt,
     if String.eqb func "reveal" && String.eqb dir "enter"
     then set_classList (upd (classList d) el
                           (tokens_add (classList d el) "is-inview")) d
     else d).
Proof.
  unfold reveal_call.
  destruct (String.eqb func "reveal"), (String.eqb dir "enter"); reflexivity.
Qed.

(** X16: The listener of the "call" event marks an element as in view only
    for the function "reveal" and the direction "enter", and never
    unmarks one: after any sequence of events an element is marked
    exactly when it was marked before or one of the events was a
    "reveal"/"enter" for it; no other token changes, and an event that is
    not a "reveal"/"enter" changes nothing at all. *)
Theorem reveal_marks_entered (events : list (String.string * String.string * node))
        (d : Dom) :
  let entered := fun (n : node) (e : String.string * String.string * node) =>
                   String.eqb (fst (fst e)) "reveal"
                   && String.eqb (snd (fst e)) "enter" && Nat.eqb (snd e) n in
  let d' := handle_all reveal_handler events d in
  (forall n, inview d' n = inview d n || existsb (entered n) events)
  /\ (forall m t, t <> "is-inview" ->
                  contains (classList d' m) t = contains (classList d m) t)
  /\ (forall func dir el,
         func <> "reveal" \/ dir <> "enter" ->
         after (reveal_call func dir el) d = d).
Proof.
  cbv zeta. split; [|split].
  - revert d. induction events as [|[[func dir] el] events IH]; intros d n.
    + simpl. rewrite orb_false_r. reflexivity.
    + cbn [handle_all existsb fst snd]. rewrite IH.
      unfold reveal_handler, after at 1. cbn [fst snd].
      rewrite reveal_call_after. cbn [snd]. unfold inview.
      destruct (String.eqb func "reveal" && String.eqb dir "enter") eqn:E;
        cbn [classList set_classList andb]; [|reflexivity].
      destruct (Nat.eqb_spec el n) as [->|Hne]; upd_simpl.
      * rewrite contains_add_same. rewrite orb_true_r. reflexivity.
      * rewrite orb_false_l. reflexivity.
  - revert d. induction events as [|[[func dir] el] events IH]; intros d m t Ht.
    + reflexivity.
    + cbn [handle_all]. rewrite IH by exact Ht.
      unfold reveal_handler, after. cbn [fst snd].
      rewrite reveal_call_after. cbn [snd].
      destruct (String.eqb func "reveal" && String.eqb dir "enter");
        cbn [classList set_classList]; [|reflexivity].
      destruct (Nat.eq_dec m el) as [->|Hne]; upd_simpl; [|reflexivity].
      apply contains_add_other. congruence.
  - intros func dir el H. unfold after. rewrite reveal_call_after. cbn [snd].
    destruct H as [H|H].
    + destruct (String.eqb_spec func "reveal"); [contradiction|reflexivity].
    + destruct (String.eqb_spec dir "enter"); [contradiction|].
      rewrite andb_false_r. reflexivity.
Qed.

Lemma attribute_get_set_same (l : list (String.string * String.string))
      (name value : String.string) :
  attribute_get (attribute_set l name value) name = Some value.
Proof.
  induction l as [|[k v] l IH]; cbn [attribute_set attribute_get].
  - rewrite String.eqb_refl. reflexivity.
  - destruct (String.eqb k name) eqn:E; cbn [attribute_get]; rewrite E;
      [reflexivity|exact IH].
Qed.

Lemma attribute_get_set_other (l : list (String.string * String.string))
      (name value other : String.string) :
  other <> name ->
  attribute_get (attribute_set l name value) other = attribute_get l other.
Proof.
  intro H. induction l as [|[k v] l IH]; cbn [attribute_set attribute_get].
  - destruct (String.eqb_spec name other); [congruence|reflexivity].
  - destruct (String.eqb_spec k name) as [->|Hk]; cbn [attribute_get].
    + destruct (String.eqb_spec name other); [congruence|reflexivity].
    + destruct (String.eqb k other); [reflexivity|exact IH].
Qed.

Lemma each_reveal_attributes (els : list node) :
  forall d,
    exists attrs,
      each (fun el =>
              setAttribute el "data-scroll" "";;
              setAttribute el "data-scroll-call" "reveal";;
              setAttribute el "data-scroll-repeat" "true") els d
      = (Normal tt, set_attributes attrs d)
      /\ (forall el, ~ In el els -> attrs el = attributes d el)
      /\ (forall el name,
             name <> "data-scroll" -> name <> "data-scroll-call" ->
             name <> "data-scroll-repeat" ->
             attribute_get (attrs el) name = attribute_get (attributes d el) name)
      /\ (forall el, In el els -> marked_for_reveal (attrs el))
      /\ (forall el, marked_for_reveal (attributes d el) ->
                     marked_for_reveal (attrs el)).
Proof.
  induction els as [|a els IH]; intro d.
  - exists (attributes d). split; [destruct d; reflexivity|].
    split; [reflexivity|]. split; [reflexivity|].
    split; [intros el []|intros el H; exact H].
  - set (d1 := after (setAttribute a "data-scroll" "";;
                      setAttribute a "data-scroll-call" "reveal";;
                      setAttribute a "data-scroll-repeat" "true") d).
    assert (forall m, attributes d1 m
                      = if Nat.eqb m a then reveal_attributes (attributes d a)
                        else attributes d m) as Hd1.
    { intro m. subst d1. unfold after, setAttribute, js_bind, js_modify.
      cbn [snd attributes set_attributes]. unfold reveal_attributes.
      destruct (Nat.eqb_spec m a) as [->|Hne]; upd_simpl; reflexivity. }
    assert (marked_for_reveal (attributes d1 a)) as Ha.
    { rewrite Hd1, Nat.eqb_refl. unfold marked_for_reveal, reveal_attributes.
      split; [|split].
      - rewrite !attribute_get_set_other by discriminate.
        apply attribute_get_set_same.
      - rewrite attribute_get_set_other by discriminate.
        apply attribute_get_set_same.
      - apply attribute_get_set_same. }
    destruct (IH d1) as (attrs & E & Hout & Hother & Hin & Hkeep).
    exists attrs. split; [|split; [|split; [|split]]].
    + cbn [each]. unfold js_bind at 1.
      change ((setAttribute a "data-scroll" "";;
               setAttribute a "data-scroll-call" "reveal";;
               setAttribute a "data-scroll-repeat" "true") d)
        with (Normal tt, d1).
      cbv beta iota. rewrite E. reflexivity.
    + intros el Hnot. rewrite Hout by (intro; apply Hnot; right; assumption).
      rewrite Hd1. destruct (Nat.eqb_spec el a) as [->|Hne]; [|reflexivity].
      exfalso. apply Hnot. left. reflexivity.
    + intros el name H1 H2 H3. rewrite Hother by assumption.
      rewrite Hd1. destruct (Nat.eqb_spec el a) as [->|Hne]; [|reflexivity].
      unfold reveal_attributes.
      rewrite !attribute_get_set_other by assumption. reflexivity.
    + intros el [<-|Hel]; [apply Hkeep; exact Ha|apply Hin; exact Hel].
    + intros el Hel. apply Hkeep.
      destruct (Nat.eq_dec el a) as [->|Hne]; [exact Ha|].
      rewrite Hd1. destruct (Nat.eqb_spec el a); [contradiction|exact Hel].
Qed.

Lemma initScrollAnimations_run (d : Dom) :
  initScrollAnimations doc d
  = if locoScroll d
    then each (fun el =>
                 setAttribute el "data-scroll" "";;
                 setAttribute el "data-scroll-call" "reveal";;
                 setAttribute el "data-scroll-repeat" "true")
           (revealElements doc)
           (set_lib_calls
              (lib_calls d ++ [locoScroll_on "call" reveal_call_cb]) d)
    else (TypeError, d).
Proof.
  unfold initScrollAnimations. unfold js_bind at 1 2. unfold js_get. cbv beta.
  destruct (locoScroll d); reflexivity.
Qed.

(** X15: The set-up of the reveal: with the scroll library in place, the
    listener of "call" is registered, every [.reveal-up] element carries
    the three attributes LocomotiveScroll looks for, no other element and
    no other attribute changes, and no element is marked as in view yet.
    Without the scroll library the function throws before it touches the
    page. *)
Theorem reveal_setup (d : Dom) :
  (locoScroll d = true ->
   let d' := after (initScrollAnimations doc) d in
   outcome (initScrollAnimations doc) d = Normal tt
   /\ lib_calls d' = lib_calls d ++ [locoScroll_on "call" reveal_call_cb]
   /\ (forall el, In el (revealElements doc) ->
                  marked_for_reveal (attributes d' el))
   /\ (forall el, ~ In el (revealElements doc) ->
                  attributes d' el = attributes d el)
   /\ (forall el name,
          name <> "data-scroll" -> name <> "data-scroll-call" ->
          name <> "data-scroll-repeat" ->
          attribute_get (attributes d' el) name
          = attribute_get (attributes d el) name)
   /\ classList d' = classList d)
  /\ (locoScroll d = false ->
      outcome (initScrollAnimations doc) d = TypeError
      /\ after (initScrollAnimations doc) d = d).
Proof.
  split; intro Hl; cbv zeta; unfold outcome, after;
    rewrite !initScrollAnimations_run, Hl.
  - destruct (each_reveal_attributes (revealElements doc)
                (set_lib_calls
                   (lib_calls d ++ [locoScroll_on "call" reveal_call_cb]) d))
      as (attrs & E & Hout & Hother & Hin & _).
    rewrite E. cbn [fst snd].
    split; [reflexivity|]. split; [reflexivity|]. split; [exact Hin|].
    split; [exact Hout|]. split; [exact Hother|reflexivity].
  - split; reflexivity.
Qed.

(** ** Preloader *)

Lemma fire_interval_times_snoc (k : nat) (id : positive) :
  forall d,
    fire_interval_times doc (S k) id d
    = match fire_interval_times doc k id d with
      | Some d' => fire_interval doc id d'
      | None => None
      end.
Proof.
  induction k as [|k IH]; intro d.
  - cbn [fire_interval_times]. destruct (fire_interval doc id d); reflexivity.
  - change (fire_interval_times doc (S (S k)) id d)
      with (match fire_interval doc id d with
            | Some d' => fire_interval_times doc (S k) id d'
            | None => None
            end).
    cbn [fire_interval_times].
    destruct (fire_interval doc id d) as [d1|]; [|reflexivity].
    rewrite <- IH. reflexivity.
Qed.

(** One tick below the target. *)
Lemma preloader_tick_below (d : Dom) :
  count d < 100 ->
  preloader_tick doc d
  = match counterElement doc with
    | Some e =>
        (Normal tt,
         set_textContent
           (upd (textContent d) e
              (String.append (String_of (S (count d))) "%"))
           (set_count (S (count d)) d))
    | None => (TypeError, set_count (S (count d)) d)
    end.
Proof.
  intro Hlt.
  assert (Nat.leb 100 (count d) = false) as Hleb by (apply Nat.leb_gt; exact Hlt).
  unfold preloader_tick. unfold js_bind at 1. unfold js_get at 1.
  cbv beta iota. rewrite Hleb.
  destruct (counterElement doc); reflexivity.
Qed.

Lemma preloader_tick_counting (d : Dom) :
  count d < 100 ->
  let d' := after (preloader_tick doc) d in
  count d' = S (count d)
  /\ counterInterval d' = counterInterval d
  /\ intervals d' = intervals d
  /\ lib_calls d' = lib_calls d
  /\ (forall e, counterElement doc = Some e ->
                textContent d' e = String.append (String_of (S (count d))) "%")
  /\ (forall m, counterElement doc <> Some m -> textContent d' m = textContent d m).
Proof.
  intro Hlt. cbv zeta. unfold after. rewrite (preloader_tick_below d Hlt).
  destruct (counterElement doc) as [e|]; cbn [snd count
    counterInterval intervals lib_calls textContent set_count set_textContent].
  - do 4 (split; [reflexivity|]). split.
    + intros e' [= <-]. apply upd_same.
    + intros m Hm. apply upd_other. congruence.
  - do 4 (split; [reflexivity|]). split; [intros e' [=]|reflexivity].
Qed.

Lemma preloader_ticks (d : Dom) (k : nat) :
  find_timer (next_timer d) (intervals d) = None ->
  k <= 100 ->
  exists dk,
    fire_interval_times doc k (next_timer d) (after initPreloader d) = Some dk
    /\ count dk = k
    /\ counterInterval dk = Some (next_timer d)
    /\ intervals dk = intervals d ++ [(next_timer d, preloader_tick_cb, 20%Z)]
    /\ lib_calls dk = lib_calls d
    /\ (forall e, counterElement doc = Some e -> 0 < k ->
                  textContent dk e = String.append (String_of k) "%").
Proof.
  intro Hfresh. induction k as [|k IH]; intro Hk.
  - eexists. split; [reflexivity|]. cbn. do 4 (split; [reflexivity|]).
    intros e _ H. inversion H.
  - destruct IH as (dk & Hrun & Hcount & Hci & Hint & Hlib & Htext); [lia|].
    rewrite fire_interval_times_snoc, Hrun. unfold fire_interval.
    rewrite Hint, (find_timer_last _ _ _ _ Hfresh). cbn [timer_callback].
    eexists. split; [reflexivity|].
    destruct (preloader_tick_counting dk) as (T1 & T2 & T3 & T4 & T5 & _);
      [lia|].
    cbv zeta in T1, T2, T3, T4, T5.
    rewrite T1, T2, T3, T4, Hcount, Hci, Hint, Hlib.
    do 4 (split; [reflexivity|]).
    intros e He _. rewrite (T5 e He), Hcount. reflexivity.
Qed.

(** X7: The counter of the preloader: once [initPreloader] has run, the
    [k]-th firing of its interval, for [k] from 1 to 100, brings the count
    to [k] and writes "k%" into the counter element; the interval is
    still running and no animation has been started. *)
Theorem preloader_counts_up (d : Dom) (k : nat) :
  find_timer (next_timer d) (intervals d) = None ->
  k <= 100 ->
  exists dk,
    fire_interval_times doc k (next_timer d) (after initPreloader d) = Some dk
    /\ count dk = k
    /\ (forall e, counterElement doc = Some e -> 0 < k ->
                  textContent dk e = String.append (String_of k) "%")
    /\ find_timer (next_timer d) (intervals dk) = Some preloader_tick_cb
    /\ lib_calls dk = lib_calls d.
Proof.
  intros Hfresh Hk.
  destruct (preloader_ticks d k Hfresh Hk) as (dk & H1 & H2 & _ & H4 & H5 & H6).
  exists dk. split; [exact H1|]. split; [exact H2|]. split; [exact H6|].
  split; [|exact H5]. rewrite H4. apply find_timer_last. exact Hfresh.
Qed.

(** X8: The 101st firing ends the preloader: it clears the interval, so that
    the browser has nothing left to fire, and builds the fade-out
    timeline, one [gsap.timeline()] and three tweens on the text, the
    counter and the preloader, the last one carrying [onComplete].  The
    count stays at 100.  This is so also when the page has no counter
    element. *)
Theorem preloader_finishes (d : Dom) :
  find_timer (next_timer d) (intervals d) = None ->
  exists d' vars1 vars2 vars3,
    fire_interval_times doc 101 (next_timer d) (after initPreloader d)
    = Some d'
    /\ count d' = 100
    /\ intervals d' = intervals d
    /\ fire_interval doc (next_timer d) d' = None
    /\ lib_calls d'
       = lib_calls d
         ++ [gsap_timeline;
             timeline_to (Element (preloaderText doc)) vars1 None;
             timeline_to (Element (counterElement doc)) vars2 (Some "-=0.5");
             timeline_to (Element (preloader doc)) vars3 None]
    /\ In (property "onComplete" (Function preloader_onComplete_cb)) vars3.
Proof.
  intro Hfresh.
  destruct (preloader_ticks d 100 Hfresh (le_n 100))
    as (dk & Hrun & Hcount & Hci & Hint & Hlib & _).
  rewrite fire_interval_times_snoc, Hrun. unfold fire_interval at 1.
  rewrite Hint, (find_timer_last _ _ _ _ Hfresh). cbn [timer_callback].
  unfold after, preloader_tick. unfold js_bind at 1. unfold js_get at 1.
  rewrite Hcount. change (Nat.leb 100 100) with true. cbv iota.
  unfold js_bind at 1. unfold js_get at 1. rewrite Hci.
  unfold clearInterval, lib, js_bind, js_modify.
  cbn [snd intervals set_intervals set_lib_calls lib_calls count].
  rewrite Hint, Hlib, filter_app, (find_timer_none _ _ Hfresh).
  cbn [filter fst negb]. rewrite Pos.eqb_refl. cbn [negb]. rewrite app_nil_r.
  do 4 eexists. split; [reflexivity|].
  cbn [count intervals lib_calls]. split; [exact Hcount|].
  split; [reflexivity|]. split; [|split].
  - unfold fire_interval. cbn [intervals set_intervals set_lib_calls].
    rewrite Hfresh. reflexivity.
  - cbn [lib_calls set_lib_calls]. rewrite <- !app_assoc. reflexivity.
  - cbn. auto.
Qed.

(** X9: When the fade-out is complete the preloader is taken out of the
    layout, the body is allowed to scroll, and the hero animation starts;
    on a page with no preloader element the callback throws before any of
    this: the body is not made scrollable and the hero animation does not
    start. *)
Theorem preloader_onComplete_effect (d : Dom) :
  (forall p,
      preloader doc = Some p ->
      let d' := after (preloader_onComplete doc) d in
      outcome (preloader_onComplete doc) d = Normal tt
      /\ attribute_get (style d' p) "display" = Some "none"
      /\ attribute_get (style d' (body doc)) "overflow" = Some "visible"
      /\ (forall m name, name <> "display" -> name <> "overflow" ->
                         attribute_get (style d' m) name
                         = attribute_get (style d m) name)
      /\ lib_calls d' = lib_calls (after initHeroAnimations d))
  /\ (preloader doc = None ->
      outcome (preloader_onComplete doc) d = TypeError
      /\ after (preloader_onComplete doc) d = d).
Proof.
  split.
  - intros p Hp. cbv zeta. unfold outcome, after, preloader_onComplete.
    rewrite Hp. unfold initHeroAnimations, style_set, lib, js_bind, js_modify.
    cbn [the js_ret fst snd style set_style set_lib_calls lib_calls].
    split; [reflexivity|]. split; [|split; [|split]].
    + destruct (Nat.eq_dec p (body doc)) as [->|Hne]; upd_simpl.
      * rewrite attribute_get_set_other by discriminate.
        apply attribute_get_set_same.
      * apply attribute_get_set_same.
    + upd_simpl. apply attribute_get_set_same.
    + intros m name H1 H2.
      destruct (Nat.eq_dec m (body doc)) as [->|Hmb]; upd_simpl.
      * rewrite attribute_get_set_other by congruence.
        destruct (Nat.eq_dec (body doc) p) as [E|Hbp].
        -- rewrite E. upd_simpl. apply attribute_get_set_other. congruence.
        -- upd_simpl. reflexivity.
      * destruct (Nat.eq_dec m p) as [->|Hmp]; upd_simpl; [|reflexivity].
        apply attribute_get_set_other. congruence.
    + reflexivity.
  - intro Hp. unfold outcome, after, preloader_onComplete. rewrite Hp.
    split; reflexivity.
Qed.

(** ** Smooth scroll *)

Lemma initSmoothScroll_run (d : Dom) :
  initSmoothScroll doc d
  = let created :=
      [new_LocomotiveScroll
         [property "el" (Elem (scrollContainer doc));
          property "smooth" (Boolean true);
          property "lerp" (numeral 8 100);
          property "smartphone" (Object [property "smooth" (Boolean true)]);
          property "tablet" (Object [property "smooth" (Boolean true)])];
       locoScroll_on "scroll" ScrollTrigger_update_cb] in
    match scrollContainer doc with
    | Some c =>
        (Normal tt,
         set_lib_calls
           (lib_calls d ++ created
            ++ [ScrollTrigger_scrollerProxy "[data-scroll-container]"
                  [property "scrollTop" (Function proxy_scrollTop_cb);
                   property "getBoundingClientRect"
                     (Function proxy_getBoundingClientRect_cb);
                   property "pinType"
                     (Text (if String.eqb
                                 (match attribute_get (style d c) "transform" with
                                  | Some v => v
                                  | None => ""
                                  end) ""
                            then "fixed" else "transform"))];
                ScrollTrigger_addEventListener "refresh" locoScroll_update_cb;
                ScrollTrigger_refresh])
           (set_locoScroll true d))
    | None =>
        (TypeError, set_lib_calls (lib_calls d ++ created) (set_locoScroll true d))
    end.
Proof.
  unfold initSmoothScroll.
  destruct (scrollContainer doc) as [c|];
    unfold lib, style_get, js_bind, js_modify, js_get;
    cbn [the js_ret throw lib_calls set_lib_calls set_locoScroll style];
    rewrite <- !app_assoc; reflexivity.
Qed.


(** ** Listeners of the accordion *)

Lemma click_listeners_app (d : Dom)
      (extra : list (EventTarget * String.string * Callback)) (n : node) :
  click_listeners (set_listeners (listeners d ++ extra) d) n
  = click_listeners d n
    ++ flat_map (fun l => match l with
                          | (Node m, type, c) =>
                              if Nat.eqb m n && String.eqb type "click"
                              then [c] else []
                          | _ => []
                          end) extra.
Proof. unfold click_listeners. cbn [listeners set_listeners]. apply flat_map_app. Qed.

Lemma initAccordion_run (d : Dom) :
  initAccordion doc d
  = (Normal tt,
     set_listeners
       (listeners d
        ++ map (fun b => (Node b, "click", accordion_click_cb b))
             (accordionButtons doc)) d).
Proof.
  unfold initAccordion.
  apply (each_addEventListener "click" accordion_click_cb).
Qed.

(** X17: Every accordion button gets one click listener, its own: the
    listener of button [b] acts on [b] and on the element after [b].  No
    other element gets a listener, and nothing else on the page
    changes. *)
Theorem accordion_listeners (d : Dom) :
  NoDup (accordionButtons doc) ->
  let d' := after (initAccordion doc) d in
  outcome (initAccordion doc) d = Normal tt
  /\ (forall b, In b (accordionButtons doc) ->
                click_listeners d' b = click_listeners d b ++ [accordion_click_cb b])
  /\ (forall n, ~ In n (accordionButtons doc) ->
                click_listeners d' n = click_listeners d n)
  /\ classList d' = classList d
  /\ timeouts d' = timeouts d
  /\ lib_calls d' = lib_calls d.
Proof.
  intro Hnd. cbv zeta. unfold outcome, after. rewrite initAccordion_run.
  cbn [fst snd classList timeouts lib_calls set_listeners].
  split; [reflexivity|].
  assert (forall l n,
             NoDup l ->
             flat_map (fun l0 : EventTarget * String.string * Callback =>
                         match l0 with
                         | (Node m, type, c) =>
                             if Nat.eqb m n && String.eqb type "click"
                             then [c] else []
                         | _ => []
                         end)
               (map (fun b => (Node b, "click", accordion_click_cb b)) l)
             = if existsb (Nat.eqb n) l then [accordion_click_cb n] else [])
    as Hmap.
  { induction l as [|a l IH]; intros n Hl; [reflexivity|].
    inversion Hl as [|? ? Hnotin Hl']; subst.
    cbn [map flat_map existsb]. rewrite (IH n Hl').
    rewrite (Nat.eqb_sym n a).
    destruct (Nat.eqb_spec a n) as [->|Hne]; cbn [andb orb app].
    - destruct (existsb (Nat.eqb n) l) eqn:E; [|reflexivity].
      exfalso. apply Hnotin. apply existsb_exists in E as (x & Hx & Hxn).
      apply Nat.eqb_eq in Hxn. subst x. exact Hx.
    - reflexivity. }
  split; [|split; [|repeat split]].
  - intros b Hb. rewrite click_listeners_app, (Hmap _ b Hnd).
    replace (existsb (Nat.eqb b) (accordionButtons doc)) with true; [reflexivity|].
    symmetry. apply existsb_exists. exists b. split; [exact Hb|].
    apply Nat.eqb_refl.
  - intros n Hn. rewrite click_listeners_app, (Hmap _ n Hnd).
    destruct (existsb (Nat.eqb n) (accordionButtons doc)) eqn:E.
    + exfalso. apply Hn. apply existsb_exists in E as (x & Hx & Hxn).
      apply Nat.eqb_eq in Hxn. subst x. exact Hx.
    + apply app_nil_r.
Qed.

(** ** The load listener *)

Lemma js_bind_normal {A B : Type} (m : Js A) (k : A -> Js B) (d d' : Dom) (a : A) :
  m d = (Normal a, d') -> js_bind m k d = k a d'.
Proof. intro H. unfold js_bind. rewrite H. reflexivity. Qed.

Lemma js_bind_throw {A B : Type} (m : Js A) (k : A -> Js B) (d d' : Dom) :
  m d = (TypeError, d') -> js_bind m k d = (TypeError, d').
Proof. intro H. unfold js_bind. rewrite H. reflexivity. Qed.

Lemma initPreloader_run (d : Dom) :
  initPreloader d
  = (Normal tt,
     set_counterInterval (Some (next_timer d))
       (set_next_timer (Pos.succ (next_timer d))
          (set_intervals
             (intervals d ++ [(next_timer d, preloader_tick_cb, 20%Z)])
             (set_count 0 d)))).
Proof. reflexivity. Qed.

Lemma initCursorFollower_run (d : Dom) :
  initCursorFollower doc d
  = (Normal tt,
     set_listeners
       (listeners d
        ++ [(Window, "mousemove", mousemove_cb);
            (Node (body doc), "mouseleave", mouseleave_cb);
            (Node (body doc), "mouseenter", mouseenter_cb)]) d).
Proof.
  unfold initCursorFollower, addEventListener, js_bind, js_modify.
  cbn [listeners set_listeners]. rewrite <- !app_assoc. reflexivity.
Qed.

Lemma initMobileNav_run (d : Dom) :
  initMobileNav doc d
  = match hamburger doc with
    | Some h =>
        (Normal tt,
         set_listeners
           (listeners d
            ++ (Node h, "click", hamburger_click_cb)
               :: map (fun link => (Node link, "click", link_click_cb))
                    (navLinksItems doc)) d)
    | None => (TypeError, d)
    end.
Proof.
  unfold initMobileNav. destruct (hamburger doc) as [h|]; [|reflexivity].
  cbn [the]. unfold js_bind at 1. unfold js_ret. unfold js_bind at 1.
  unfold addEventListener at 1. unfold js_modify.
  rewrite (each_addEventListener "click" (fun _ => link_click_cb)).
  cbn [listeners set_listeners]. rewrite <- app_assoc. reflexivity.
Qed.

(** The state in which [initScrollAnimations] runs during [load]. *)
Lemma load_prefix (c h : node) (k : Js unit) (d : Dom) :
  scrollContainer doc = Some c -> hamburger doc = Some h ->
  exists d4,
    (initPreloader;; initSmoothScroll doc;; initCursorFollower doc;;
     initMobileNav doc;; k) d = k d4
    /\ locoScroll d4 = true
    /\ listeners d4
       = listeners d
         ++ [(Window, "mousemove", mousemove_cb);
             (Node (body doc), "mouseleave", mouseleave_cb);
             (Node (body doc), "mouseenter", mouseenter_cb);
             (Node h, "click", hamburger_click_cb)]
         ++ map (fun link => (Node link, "click", link_click_cb))
              (navLinksItems doc)
    /\ intervals d4 = intervals d ++ [(next_timer d, preloader_tick_cb, 20%Z)]
    /\ next_timer d4 = Pos.succ (next_timer d)
    /\ timeouts d4 = timeouts d
    /\ attributes d4 = attributes d
    /\ classList d4 = classList d
    /\ textContent d4 = textContent d
    /\ style d4 = style d.
Proof.
  intros Hc Hh. eexists. split.
  - rewrite (js_bind_normal _ _ _ _ _ (initPreloader_run d)).
    pose proof (initSmoothScroll_run
                  (set_counterInterval (Some (next_timer d))
                     (set_next_timer (Pos.succ (next_timer d))
                        (set_intervals
                           (intervals d
                            ++ [(next_timer d, preloader_tick_cb, 20%Z)])
                           (set_count 0 d))))) as Hs.
    cbv zeta in Hs. rewrite Hc in Hs.
    rewrite (js_bind_normal _ _ _ _ _ Hs).
    rewrite (js_bind_normal _ _ _ _ _ (initCursorFollower_run _)).
    match goal with
    | |- js_bind _ _ ?D = _ => pose proof (initMobileNav_run D) as Hm
    end.
    rewrite Hh in Hm.
    rewrite (js_bind_normal _ _ _ _ _ Hm). reflexivity.
  - cbn [locoScroll listeners intervals next_timer timeouts attributes classList
         textContent style set_listeners set_lib_calls set_locoScroll
         set_counterInterval set_next_timer set_intervals set_count].
    split; [reflexivity|]. split; [rewrite <- app_assoc; reflexivity|].
    repeat split.
Qed.

Lemma load_tail (d4 : Dom) :
  locoScroll d4 = true ->
  exists attrs,
    (initScrollAnimations doc;; _ <- setTimeout scroll_update_cb 500;; js_ret tt) d4
    = (Normal tt,
       set_next_timer (Pos.succ (next_timer d4))
         (set_timeouts (timeouts d4 ++ [(next_timer d4, scroll_update_cb, 500%Z)])
            (set_attributes attrs
               (set_lib_calls
                  (lib_calls d4 ++ [locoScroll_on "call" reveal_call_cb]) d4))))
    /\ (initScrollAnimations doc;; initAccordion doc;;
        _ <- setTimeout scroll_update_cb 500;; js_ret tt) d4
       = (Normal tt,
          set_next_timer (Pos.succ (next_timer d4))
            (set_timeouts
               (timeouts d4 ++ [(next_timer d4, scroll_update_cb, 500%Z)])
               (set_listeners
                  (listeners d4
                   ++ map (fun b => (Node b, "click", accordion_click_cb b))
                        (accordionButtons doc))
                  (set_attributes attrs
                     (set_lib_calls
                        (lib_calls d4 ++ [locoScroll_on "call" reveal_call_cb])
                        d4)))))
    /\ (forall el, In el (revealElements doc) -> marked_for_reveal (attrs el))
    /\ (forall el, ~ In el (revealElements doc) -> attrs el = attributes d4 el).
Proof.
  intro Hl.
  destruct (each_reveal_attributes (revealElements doc)
              (set_lib_calls
                 (lib_calls d4 ++ [locoScroll_on "call" reveal_call_cb]) d4))
    as (attrs & E & Hout & _ & Hin & _).
  assert (initScrollAnimations doc d4
          = (Normal tt,
             set_attributes attrs
               (set_lib_calls
                  (lib_calls d4 ++ [locoScroll_on "call" reveal_call_cb]) d4)))
    as Hrun by (rewrite initScrollAnimations_run, Hl; exact E).
  exists attrs. split; [|split; [|split]].
  - rewrite (js_bind_normal _ _ _ _ _ Hrun). reflexivity.
  - rewrite (js_bind_normal _ _ _ _ _ Hrun).
    rewrite (js_bind_normal _ _ _ _ _ (initAccordion_run _)). reflexivity.
  - exact Hin.
  - exact Hout.
Qed.

Lemma load_fields (c h : node) (d : Dom) :
  scrollContainer doc = Some c -> hamburger doc = Some h ->
  let d' := after (load doc) d in
  outcome (load doc) d = Normal tt
  /\ intervals d' = intervals d ++ [(next_timer d, preloader_tick_cb, 20%Z)]
  /\ listeners d'
     = listeners d
       ++ [(Window, "mousemove", mousemove_cb);
           (Node (body doc), "mouseleave", mouseleave_cb);
           (Node (body doc), "mouseenter", mouseenter_cb);
           (Node h, "click", hamburger_click_cb)]
       ++ map (fun link => (Node link, "click", link_click_cb))
            (navLinksItems doc)
  /\ (forall el, In el (revealElements doc) ->
                 marked_for_reveal (attributes d' el))
  /\ (forall el, ~ In el (revealElements doc) ->
                 attributes d' el = attributes d el)
  /\ timeouts d'
     = timeouts d ++ [(Pos.succ (next_timer d), scroll_update_cb, 500%Z)]
  /\ locoScroll d' = true
  /\ classList d' = classList d
  /\ textContent d' = textContent d
  /\ style d' = style d.
Proof.
  intros Hc Hh. cbv zeta. unfold outcome, after, load.
  destruct (load_prefix c h
              (initScrollAnimations doc;;
               _ <- setTimeout scroll_update_cb 500;; js_ret tt) d Hc Hh)
    as (d4 & Hrun & Hloc & Hlis & Hint & Hnext & Htim & Hattr & Hcl & Htxt & Hsty).
  destruct (load_tail d4 Hloc) as (attrs & Htail & _ & Hin & Hout).
  rewrite Hrun, Htail.
  cbn [fst snd intervals listeners attributes timeouts locoScroll classList
       textContent style set_next_timer set_timeouts set_attributes
       set_lib_calls].
  rewrite Hint, Hlis, Htim, Hnext, Hloc, Hcl, Htxt, Hsty.
  do 3 (split; [reflexivity|]). split; [exact Hin|].
  split; [intros el Hel; rewrite (Hout el Hel), Hattr; reflexivity|].
  repeat split.
Qed.

(** X22: What [load] installs on a page with a scroll container and a
    hamburger: it completes; the preloader interval runs every 20 ms; the
    three cursor listeners, the click listener of the hamburger and one
    click listener per navigation link are registered, in this order;
    every [.reveal-up] element carries the reveal attributes and no other
    element's attributes change; one scroll update is pending, 500 ms
    later; and no class, text or style of the page has changed yet. *)
Theorem load_installs (c h : node) (d : Dom) :
  scrollContainer doc = Some c -> hamburger doc = Some h ->
  let d' := after (load doc) d in
  outcome (load doc) d = Normal tt
  /\ intervals d' = intervals d ++ [(next_timer d, preloader_tick_cb, 20%Z)]
  /\ listeners d'
     = listeners d
       ++ [(Window, "mousemove", mousemove_cb);
           (Node (body doc), "mouseleave", mouseleave_cb);
           (Node (body doc), "mouseenter", mouseenter_cb);
           (Node h, "click", hamburger_click_cb)]
       ++ map (fun link => (Node link, "click", link_click_cb))
            (navLinksItems doc)
  /\ (forall el, In el (revealElements doc) ->
                 marked_for_reveal (attributes d' el))
  /\ (forall el, ~ In el (revealElements doc) ->
                 attributes d' el = attributes d el)
  /\ timeouts d'
     = timeouts d ++ [(Pos.succ (next_timer d), scroll_update_cb, 500%Z)]
  /\ locoScroll d' = true
  /\ classList d' = classList d
  /\ textContent d' = textContent d
  /\ style d' = style d.
Proof. exact (load_fields c h d). Qed.

(** X23: [load] completes exactly on the pages that have a scroll container
    and a hamburger; the other elements the script looks up may be
    missing. *)
Theorem load_completes_iff (d : Dom) :
  outcome (load doc) d = Normal tt
  <-> scrollContainer doc <> None /\ hamburger doc <> None.
Proof.
  unfold outcome, load.
  rewrite (js_bind_normal _ _ _ _ _ (initPreloader_run d)).
  match goal with
  | |- fst (js_bind _ _ ?D) = _ <-> _ =>
      pose proof (initSmoothScroll_run D) as Hs
  end.
  cbv zeta in Hs.
  destruct (scrollContainer doc) as [c|].
  - rewrite (js_bind_normal _ _ _ _ _ Hs).
    rewrite (js_bind_normal _ _ _ _ _ (initCursorFollower_run _)).
    match goal with
    | |- fst (js_bind _ _ ?D) = _ <-> _ =>
        pose proof (initMobileNav_run D) as Hm
    end.
    destruct (hamburger doc) as [h|].
    + rewrite (js_bind_normal _ _ _ _ _ Hm).
      match goal with
      | |- fst (?K ?D) = _ <-> _ =>
          destruct (load_tail D eq_refl) as (attrs & Htail & _)
      end.
      rewrite Htail. cbn [fst].
      split; [intros _; split; discriminate|reflexivity].
    + rewrite (js_bind_throw _ _ _ _ Hm). cbn [fst].
      split; [discriminate|intros [_ H]; contradiction].
  - rewrite (js_bind_throw _ _ _ _ Hs). cbn [fst].
    split; [discriminate|intros [H _]; contradiction].
Qed.

(** X24: [load] stops at the first element it misses.  Without a scroll
    container the preloader is started and the scroller created, and
    nothing else happens: no cursor, navigation or reveal set-up, no
    delayed scroll update.  With a container and no hamburger the cursor
    listeners are there as well, and still no navigation listener, no
    reveal attribute and no delayed scroll update. *)
Theorem load_stops_at_missing_element (d : Dom) :
  let d' := after (load doc) d in
  (scrollContainer doc = None ->
   outcome (load doc) d = TypeError
   /\ intervals d' = intervals d ++ [(next_timer d, preloader_tick_cb, 20%Z)]
   /\ locoScroll d' = true
   /\ listeners d' = listeners d
   /\ attributes d' = attributes d
   /\ timeouts d' = timeouts d)
  /\ (forall c,
         scrollContainer doc = Some c -> hamburger doc = None ->
         outcome (load doc) d = TypeError
         /\ intervals d' = intervals d ++ [(next_timer d, preloader_tick_cb, 20%Z)]
         /\ locoScroll d' = true
         /\ listeners d'
            = listeners d
              ++ [(Window, "mousemove", mousemove_cb);
                  (Node (body doc), "mouseleave", mouseleave_cb);
                  (Node (body doc), "mouseenter", mouseenter_cb)]
         /\ attributes d' = attributes d
         /\ timeouts d' = timeouts d).
Proof.
  cbv zeta. unfold outcome, after, load.
  rewrite (js_bind_normal _ _ _ _ _ (initPreloader_run d)).
  match goal with
  | |- context [js_bind (initSmoothScroll doc) _ ?D] =>
      pose proof (initSmoothScroll_run D) as Hs
  end.
  cbv zeta in Hs. split.
  - intro Hc. rewrite Hc in Hs. rewrite (js_bind_throw _ _ _ _ Hs).
    cbn. repeat split.
  - intros c Hc Hh. rewrite Hc in Hs. rewrite (js_bind_normal _ _ _ _ _ Hs).
    rewrite (js_bind_normal _ _ _ _ _ (initCursorFollower_run _)).
    match goal with
    | |- context [js_bind (initMobileNav doc) _ ?D] =>
        pose proof (initMobileNav_run D) as Hm
    end.
    rewrite Hh in Hm. rewrite (js_bind_throw _ _ _ _ Hm).
    cbn. repeat split.
Qed.

(** X25: The page's version of [load], which also sets up the accordion,
    fails when [load] fails, in the same state; when [load] completes it
    completes and differs by the click listeners of the accordion buttons,
    registered after all others, and by nothing else. *)
Theorem load_with_accordion_adds_listeners (d : Dom) :
  let d' := after (load doc) d in
  outcome (load_with_accordion doc) d = outcome (load doc) d
  /\ after (load_with_accordion doc) d
     = match outcome (load doc) d with
       | Normal _ =>
           set_listeners
             (listeners d'
              ++ map (fun b => (Node b, "click", accordion_click_cb b))
                   (accordionButtons doc)) d'
       | TypeError => d'
       end.
Proof.
  cbv zeta. unfold outcome, after, load, load_with_accordion.
  rewrite !(js_bind_normal _ _ _ _ _ (initPreloader_run d)).
  match goal with
  | |- context [js_bind (initSmoothScroll doc) _ ?D] =>
      pose proof (initSmoothScroll_run D) as Hs
  end.
  cbv zeta in Hs.
  destruct (scrollContainer doc) as [c|].
  - rewrite !(js_bind_normal _ _ _ _ _ Hs).
    rewrite !(js_bind_normal _ _ _ _ _ (initCursorFollower_run _)).
    match goal with
    | |- context [js_bind (initMobileNav doc) _ ?D] =>
        pose proof (initMobileNav_run D) as Hm
    end.
    destruct (hamburger doc) as [h|].
    + rewrite !(js_bind_normal _ _ _ _ _ Hm).
      match goal with
      | |- context [js_bind (initScrollAnimations doc) _ ?D] =>
          destruct (load_tail D eq_refl) as (attrs & Htail & Htail' & _)
      end.
      rewrite Htail, Htail'. split; reflexivity.
    + rewrite !(js_bind_throw _ _ _ _ Hm). split; reflexivity.
  - rewrite !(js_bind_throw _ _ _ _ Hs). split; reflexivity.
Qed.

(** X26: The scroll update that [load] delays by 500 ms reaches the scroll
    library: when its timeout fires, [locoScroll.update()] is called once
    and nothing else on the page changes. *)
Theorem load_delayed_update (c h : node) (d : Dom) :
  scrollContainer doc = Some c -> hamburger doc = Some h ->
  find_timer (Pos.succ (next_timer d)) (timeouts d) = None ->
  let d' := after (load doc) d in
  exists d'',
    fire_timeout doc (Pos.succ (next_timer d)) d' = Some d''
    /\ lib_calls d'' = lib_calls d' ++ [locoScroll_update]
    /\ timeouts d'' = timeouts d
    /\ classList d'' = classList d'
    /\ attributes d'' = attributes d'
    /\ listeners d'' = listeners d'
    /\ intervals d'' = intervals d'.
Proof.
  intros Hc Hh Hfresh. cbv zeta.
  destruct (load_fields c h d Hc Hh)
    as (_ & _ & _ & _ & _ & Htim & Hloc & _).
  cbv zeta in Htim, Hloc.
  rewrite (fire_scroll_update _ _ _ Htim Hfresh), Hloc.
  eexists. split; [reflexivity|].
  cbn [lib_calls timeouts classList attributes listeners intervals
       set_lib_calls set_timeouts].
  repeat split.
Qed.

End PageFacts.

(** * The page script on concrete pages *)

Section PageExamples.

Import Page.
Import Stdlib.Strings.String.StringSyntax.
Local Open Scope string_scope.

Local Abbreviation blank := (fresh (fun _ => [])).

(** Three ticks on the sample page. *)
Lemma preloader_counts_up_witness :
  exists dk,
    fire_interval_times sample_document 3 1 (after initPreloader blank) = Some dk
    /\ count dk = 3
    /\ textContent dk 2 = "3%".
Proof.
  destruct (preloader_counts_up sample_document blank 3 eq_refl
              (proj1 (Nat.leb_le 3 100) eq_refl))
    as (dk & H1 & H2 & H3 & _).
  exists dk. split; [exact H1|]. split; [exact H2|].
  apply (H3 2 eq_refl). apply Nat.lt_0_succ.
Defined.

Lemma preloader_finishes_witness :
  exists d',
    fire_interval_times sample_document 101 1 (after initPreloader blank) = Some d'
    /\ count d' = 100
    /\ intervals d' = [].
Proof.
  destruct (preloader_finishes sample_document blank eq_refl)
    as (d' & v1 & v2 & v3 & H1 & H2 & H3 & _).
  exists d'. split; [exact H1|]. split; [exact H2|exact H3].
Defined.

Lemma preloader_onComplete_effect_witness :
  attribute_get (style (after (preloader_onComplete sample_document) blank) 0)
    "overflow" = Some "visible"
  /\ outcome (preloader_onComplete bare_document) blank = TypeError.
Proof.
  split.
  - exact (proj1 (proj2 (proj2 (proj1 (preloader_onComplete_effect
                                         sample_document blank) 1 eq_refl)))).
  - exact (proj1 (proj2 (preloader_onComplete_effect bare_document blank)
                    eq_refl)).
Defined.



Lemma link_click_closes_witness :
  active (after (link_click sample_document) (fresh (fun _ => ["active"]))) 6
  = false.
Proof.
  exact (proj1 (proj2 (link_click_closes sample_document 6 7
                         (fresh (fun _ => ["active"])) eq_refl eq_refl))).
Defined.

Lemma hamburger_click_twice_witness :
  classList (after (hamburger_click sample_document)
               (after (hamburger_click sample_document)
                  (fresh (fun _ => ["menu"])))) 6
  = ["menu"].
Proof.
  exact (proj2 (hamburger_click_twice sample_document 6 7
                  (fresh (fun _ => ["menu"])) eq_refl eq_refl)
           (n_Sn 6) eq_refl eq_refl 6).
Defined.

Lemma mobile_nav_missing_elements_witness :
  outcome (initMobileNav bare_document) blank = TypeError.
Proof.
  exact (proj1 (proj1 (mobile_nav_missing_elements bare_document blank) eq_refl)).
Defined.

Lemma reveal_setup_witness :
  marked_for_reveal
    (attributes (after (initScrollAnimations sample_document)
                   (set_locoScroll true blank)) 10).
Proof.
  exact (proj1 (proj2 (proj2 (proj1 (reveal_setup sample_document
                                       (set_locoScroll true blank)) eq_refl)))
           10 (or_introl eq_refl)).
Defined.

Lemma reveal_marks_entered_witness :
  inview (handle_all reveal_handler
            [("reveal", "exit", 10); ("reveal", "enter", 11)] blank) 11 = true.
Proof.
  exact (proj1 (reveal_marks_entered
                  [("reveal", "exit", 10); ("reveal", "enter", 11)] blank) 11).
Defined.

Lemma accordion_listeners_witness :
  click_listeners (after (initAccordion sample_document) blank) 12
  = [accordion_click_cb 12].
Proof.
  assert (NoDup (accordionButtons sample_document)) as Hnd.
  { constructor.
    - intros [H|[]]. discriminate H.
    - constructor; [intros []|constructor]. }
  exact (proj1 (proj2 (accordion_listeners sample_document blank Hnd))
           12 (or_introl eq_refl)).
Defined.

Lemma accordion_click_effect_witness :
  open (after (accordion_click sample_document 12) blank) 13 = true.
Proof.
  exact (proj1 (proj2 (proj2 (accordion_click_effect sample_document 12 13 blank
                                eq_refl)))).
Defined.

Lemma accordion_clicks_parity_witness :
  open (Nat.iter 3 (after (accordion_click sample_document 12)) blank) 13 = true.
Proof.
  exact (proj1 (proj2 (accordion_clicks_parity sample_document 12 13 3 blank
                         eq_refl))).
Defined.

Lemma accordion_click_no_panel_witness :
  outcome (accordion_click sample_document 13) blank = TypeError.
Proof.
  exact (proj1 (accordion_click_no_panel sample_document 13 blank eq_refl)).
Defined.


Lemma load_installs_witness :
  outcome (load sample_document) blank = Normal tt.
Proof.
  exact (proj1 (load_installs sample_document 4 6 blank eq_refl eq_refl)).
Defined.

Lemma load_completes_iff_witness :
  outcome (load sample_document) blank = Normal tt.
Proof.
  apply (proj2 (load_completes_iff sample_document blank)).
  split; discriminate.
Defined.

Lemma load_stops_at_missing_element_witness :
  outcome (load bare_document) blank = TypeError.
Proof.
  exact (proj1 (proj1 (load_stops_at_missing_element bare_document blank)
                  eq_refl)).
Defined.

Lemma load_delayed_update_witness :
  exists d'',
    fire_timeout sample_document 2 (after (load sample_document) blank) = Some d''
    /\ lib_calls d'' = lib_calls (after (load sample_document) blank)
                       ++ [locoScroll_update].
Proof.
  destruct (load_delayed_update sample_document 4 6 blank eq_refl eq_refl eq_refl)
    as (d'' & H1 & H2 & _).
  exists d''. split; [exact H1|exact H2].
Defined.

End PageExamples.
